(** * Tridiagonal LU solver and Debye-Huckel / Poisson-Boltzmann drivers

    A shallow embedding of [lu.py] over exact real arithmetic.  Python
    lists and numpy vectors are [list R]; Python integers are [Z]; every
    operation that can raise in Python returns a [result].  Loops over
    [range] are folds over the list of indices.  The loop of
    [calcul_uk0] is defined by well-founded recursion on its counter;
    the bisection loop carries fuel, and its theorems show how much
    fuel is enough. *)

From Stdlib Require Import Reals Lra Lia ZArith.
From Equations Require Import Equations.
From stdpp Require Import base tactics option list numbers.

Open Scope R_scope.

(** ** Python runtime: exceptions, indexing, loops *)

Inductive PyError : Type :=
  | IndexError
  | ZeroDivisionError
  | UnboundLocalError
  | ValueError
  | LinAlgError.

Inductive result (A : Type) : Type :=
  | Ok (a : A)
  | Raise (e : PyError).
Arguments Ok {A} a.
Arguments Raise {A} e.

#[global] Instance result_ret : MRet result := fun A a => Ok a.
#[global] Instance result_bind : MBind result := fun A B f m =>
  match m with
  | Ok a => f a
  | Raise e => Raise e
  end.

#[global] Instance R_inhabited : Inhabited R := populate 0.

(** Python index normalisation: [l[i]] accepts [-len <= i < len]. *)
Definition py_index (len : nat) (i : Z) : result nat :=
  if decide (0 <= i < Z.of_nat len)%Z then Ok (Z.to_nat i)
  else if decide (- Z.of_nat len <= i < 0)%Z then Ok (Z.to_nat (Z.of_nat len + i))
  else Raise IndexError.

Definition getitem {A} (l : list A) (i : Z) : result A :=
  k ← py_index (length l) i;
  match l !! k with
  | Some x => Ok x
  | None => Raise IndexError
  end.

Definition setitem {A} (l : list A) (i : Z) (x : A) : result (list A) :=
  k ← py_index (length l) i;
  Ok (<[k := x]> l).

(** [x / y] on Python numbers: a zero divisor raises.  With a numpy
    float64 operand the same expression returns inf or nan and warns
    instead; the results below that rest on the exception concern
    Python-number operands. *)
Definition py_div (x y : R) : result R :=
  if Req_dec_T y 0 then Raise ZeroDivisionError else Ok (x / y).

(** [range(lo, hi)] and [range(hi, lo, -1)]. *)
Definition range (lo hi : Z) : list Z := seqZ lo (hi - lo).
Definition range_down (hi lo : Z) : list Z :=
  (fun k => hi - k)%Z <$> seqZ 0 (hi - lo).

(** [for i in idx: s = body i s], stopping at the first exception. *)
Fixpoint for_each {S} (idx : list Z) (body : Z -> S -> result S) (s : S)
  : result S :=
  match idx with
  | [] => Ok s
  | i :: rest => s' ← body i s; for_each rest body s'
  end.

(** [while cond: s = body s]; [None] when the fuel runs out. *)
Fixpoint while {S} (fuel : nat) (cond : S -> result bool)
    (body : S -> result S) (s : S) : option (result S) :=
  match fuel with
  | O => None
  | Datatypes.S fuel' =>
      match cond s with
      | Raise e => Some (Raise e)
      | Ok false => Some (Ok s)
      | Ok true =>
          match body s with
          | Raise e => Some (Raise e)
          | Ok s' => while fuel' cond body s'
          end
      end
  end.

(** ** lutri, descente, remontee (lu.py, lines 13-58) *)

Definition lutri_body (a b c : list R) (i : Z) (lv : list R * list R)
  : result (list R * list R) :=
  let '(l, v) := lv in
  bi ← getitem b (i - 1);
  vp ← getitem v (i - 1);
  li ← py_div bi vp;
  let l := l ++ [li] in
  ai ← getitem a i;
  lp ← getitem l (i - 1);
  cp ← getitem c (i - 1);
  Ok (l, v ++ [ai - lp * cp]).

Definition lutri (a b c : list R) : result (list R * list R) :=
  let n := Z.of_nat (length a) in
  a0 ← getitem a 0;
  for_each (range 1 n) (lutri_body a b c) ([], [a0]).

Definition descente_body (l z : list R) (i : Z) (y : list R)
  : result (list R) :=
  zi ← getitem z i;
  lp ← getitem l (i - 1);
  yp ← getitem y (i - 1);
  Ok (y ++ [zi - lp * yp]).

Definition descente (l z : list R) : result (list R) :=
  let n := Z.of_nat (length z) in
  z0 ← getitem z 0;
  for_each (range 1 n) (descente_body l z) [z0].

Definition remontee_body (v c y : list R) (i : Z) (x : list R)
  : result (list R) :=
  yi ← getitem y i;
  ci ← getitem c i;
  x0 ← getitem x 0;
  vi ← getitem v i;
  q ← py_div (yi - ci * x0) vi;
  Ok (q :: x).

Definition remontee (v c y : list R) : result (list R) :=
  let n := Z.of_nat (length y) in
  yn ← getitem y (n - 1);
  vn ← getitem v (n - 1);
  q ← py_div yn vn;
  for_each (range_down (n - 2) (-1)) (remontee_body v c y) [q].

(** ** Assemblers (lu.py, lines 61-87, 125-156, 249-284) *)

(** [[v] * n] for a Python integer [n] (empty when [n <= 0]). *)
Definition py_replicate (n : Z) (v : R) : list R := replicate (Z.to_nat n) v.

(** The grid coefficients written by every assembler at row [i]. *)
Definition grid_x (h : R) (i : Z) : R := 1 + IZR i * h.

(** Lines 67-81 of [solve_debye_huckel]: grid, diagonals and right-hand
    side, returned as [(x, b, a, c, z)]. *)
Definition debye_huckel_row (h : R) (i : Z)
    (s : list R * list R * list R) : result (list R * list R * list R) :=
  let '(x, b, c) := s in
  let xi := grid_x h i in
  q ← py_div h (2 * xi);
  b ← setitem b (i - 1) (1 - q);
  q ← py_div h (2 * xi);
  c ← setitem c i (1 + q);
  x ← setitem x i xi;
  Ok (x, b, c).

Definition assemble_debye_huckel (n : Z) (mu : R)
  : result (list R * list R * list R * list R * list R) :=
  h ← py_div 10 (IZR n);
  let x := py_replicate n 1 in
  let b := py_replicate (n - 1) 0 in
  let a := py_replicate n (- (2 + h ^ 2)) in
  let c := py_replicate (n - 1) 0 in
  let z := py_replicate n 0 in
  let z0 := mu * h * (h - 2) in
  c ← setitem c 0 2;
  z ← setitem z 0 z0;
  '(x, b, c) ← for_each (range 1 (n - 1)) (debye_huckel_row h) (x, b, c);
  let xn := grid_x h (n - 1) in
  q ← py_div h (2 * xn);
  b ← setitem b (n - 2) (1 - q);
  x ← setitem x (n - 1) xn;
  Ok (x, b, a, c, z).

(** [solve_debye_huckel] returns [(x, u, [b, a, c])]. *)
Definition solve_debye_huckel (n : Z) (mu : R)
  : result (list R * list R * (list R * list R * list R)) :=
  '(x, b, a, c, z) ← assemble_debye_huckel n mu;
  '(l, v) ← lutri a b c;
  y ← descente l z;
  u ← remontee v c y;
  Ok (x, u, (b, a, c)).

(** [g = lambda x: np.sinh(x) - x]. *)
Definition g (t : R) : R := sinh t - t.

(** Lines 133-150 of [solve_poisson_boltzmann], returned as
    [(x, b, a, c, z)]. *)
Definition poisson_boltzmann_row (u : list R) (h : R) (i : Z)
    (s : list R * list R * list R * list R)
  : result (list R * list R * list R * list R) :=
  let '(x, b, c, z) := s in
  let xi := grid_x h i in
  q ← py_div h (2 * xi);
  b ← setitem b (i - 1) (1 - q);
  q ← py_div h (2 * xi);
  c ← setitem c i (1 + q);
  ui ← getitem u i;
  z ← setitem z i (h ^ 2 * g ui);
  x ← setitem x i xi;
  Ok (x, b, c, z).

Definition assemble_poisson_boltzmann (u : list R) (n : Z) (mu : R)
  : result (list R * list R * list R * list R * list R) :=
  h ← py_div 10 (IZR n);
  let x := py_replicate n 1 in
  let b := py_replicate (n - 1) 0 in
  let a := py_replicate n (- (2 + h ^ 2)) in
  let c := py_replicate (n - 1) 0 in
  let z := py_replicate n 0 in
  u0 ← getitem u 0;
  let z0 := h ^ 2 * g u0 + mu * h * (h - 2) in
  c ← setitem c 0 2;
  z ← setitem z 0 z0;
  '(x, b, c, z) ←
    for_each (range 1 (n - 1)) (poisson_boltzmann_row u h) (x, b, c, z);
  let xn := grid_x h (n - 1) in
  q ← py_div h (2 * xn);
  b ← setitem b (n - 2) (1 - q);
  un ← getitem u (n - 1);
  z ← setitem z (n - 1) (h ^ 2 * g un);
  x ← setitem x (n - 1) xn;
  Ok (x, b, a, c, z).

(** [solve_poisson_boltzmann] returns [(x, u_suivant, z)]. *)
Definition solve_poisson_boltzmann (u : list R) (n : Z) (mu : R)
  : result (list R * list R * list R) :=
  '(x, b, a, c, z) ← assemble_poisson_boltzmann u n mu;
  '(l, v) ← lutri a b c;
  y ← descente l z;
  u_suivant ← remontee v c y;
  Ok (x, u_suivant, z).

(** ** Dense matrices: [np.diag], [+], [dot], [tridiag] (lines 159-162) *)

Definition matrix : Type := list (list R).

(** [np.diag(v, k)]: a square matrix of side [len v + |k|] with [v] on
    the [k]-th diagonal. *)
Definition np_diag (v : list R) (k : Z) : matrix :=
  let m := (length v + Z.abs_nat k)%nat in
  map (fun i => map (fun j =>
     if decide (Z.of_nat j - Z.of_nat i = k)%Z then v !!! Nat.min i j else 0)
     (seq 0 m)) (seq 0 m).

(** [M + N] on square matrices, with numpy's broadcasting of a 1x1
    operand; other shape mismatches raise. *)
Definition np_add (M N : matrix) : result matrix :=
  if decide (length M = length N) then Ok (zip_with (zip_with Rplus) M N)
  else match M, N with
       | [[m]], _ => Ok (map (map (fun q => m + q)) N)
       | _, [[q]] => Ok (map (map (fun m => m + q)) M)
       | _, _ => Raise ValueError
       end.

Definition tridiag (diags : list R * list R * list R) : result matrix :=
  let '(b, a, c) := diags in
  M ← np_add (np_diag b (-1)) (np_diag a 0);
  np_add M (np_diag c 1).

Definition row_dot (r x : list R) : R := foldr Rplus 0 (zip_with Rmult r x).

(** [M.dot(x)] for a 2-D [M] and a 1-D [x]. *)
Definition np_dot (M : matrix) (x : list R) : result (list R) :=
  if decide (Forall (fun r => length r = length x) M)
  then Ok (map (fun r => row_dot r x) M)
  else Raise ValueError.

(** [u - w] on 1-D arrays, with broadcasting of a length-1 operand. *)
Definition np_sub (u w : list R) : result (list R) :=
  if decide (length u = length w) then Ok (zip_with Rminus u w)
  else match u, w with
       | [p], _ => Ok (map (fun q => p - q) w)
       | _, [q] => Ok (map (fun p => p - q) u)
       | _, _ => Raise ValueError
       end.

(** [np.linalg.norm(v, np.inf)]: the largest absolute value; numpy
    refuses an empty array. *)
Definition norm_inf (v : list R) : result R :=
  match v with
  | [] => Raise ValueError
  | p :: r => Ok (foldl (fun m q => Rmax m (Rabs q)) (Rabs p) r)
  end.

(** ** Newton step (lu.py, lines 249-284) *)

(** Lines 257-276 of [solve_poisson_boltzmann_newton], returned as
    [(x, b, a, c, F)]. *)
Definition newton_row (u : list R) (h : R) (i : Z)
    (s : list R * list R * list R * list R)
  : result (list R * list R * list R * list R) :=
  let '(x, b, c, F) := s in
  let xi := grid_x h i in
  q ← py_div h (2 * xi);
  let bi := 1 - q in
  q ← py_div h (2 * xi);
  let ci := 1 + q in
  b ← setitem b (i - 1) bi;
  c ← setitem c i ci;
  up ← getitem u (i - 1);
  ui ← getitem u i;
  ui' ← getitem u i;
  us ← getitem u (i + 1);
  F ← setitem F i (bi * up - 2 * ui - h ^ 2 * sinh ui' + ci * us);
  x ← setitem x i xi;
  Ok (x, b, c, F).

Definition assemble_newton (u : list R) (n : Z) (mu : R)
  : result (list R * list R * list R * list R * list R) :=
  h ← py_div 10 (IZR n);
  let x := py_replicate n 1 in
  let b := py_replicate (n - 1) 0 in
  let a := map (fun t => -2 - h ^ 2 * cosh t) u in
  let c := py_replicate (n - 1) 0 in
  let F := py_replicate n 0 in
  u0 ← getitem u 0;
  u0' ← getitem u 0;
  u1 ← getitem u 1;
  F ← setitem F 0 (- 2 * u0 - h ^ 2 * sinh u0' + 2 * u1 + mu * h * (2 - h));
  '(x, b, c, F) ← for_each (range 1 (n - 1)) (newton_row u h) (x, b, c, F);
  let xn := grid_x h (n - 1) in
  q ← py_div h (2 * xn);
  let bn := 1 - q in
  b ← setitem b (n - 2) bn;
  up ← getitem u (n - 2);
  un ← getitem u (n - 1);
  un' ← getitem u (n - 1);
  F ← setitem F (n - 1) (bn * up - 2 * un - h ^ 2 * sinh un');
  x ← setitem x (n - 1) xn;
  Ok (x, b, a, c, F).

(** [np.linalg.inv] is numpy's; the step is parametrised by it.  It
    returns [(x, u_suivant, F)]. *)
Definition solve_poisson_boltzmann_newton
    (np_linalg_inv : matrix -> result matrix) (u : list R) (n : Z) (mu : R)
  : result (list R * list R * list R) :=
  '(x, b, a, c, F) ← assemble_newton u n mu;
  J ← tridiag (b, a, c);
  inv_Jk ← np_linalg_inv J;
  d ← np_dot inv_Jk F;
  u_suivant ← np_sub u d;
  Ok (x, u_suivant, F).

(** ** Fixed-point iteration (lu.py, lines 165-191) *)

Definition mu1 : R := 10 / 10 ^ 12.
Definition mu2 : R := 10 / 10 ^ 9.

(** The local variables of [calcul_uk0] that outlive one pass of its
    loop; [x] is unbound until the first pass. *)
Record uk0_state : Type := Uk0 {
  uk_x : option (list R);
  uk_u : list R;
  uk_ecart1 : list R;
  uk_ecart2 : list R
}.

(** [norm(ecart1) < mu1 and norm(ecart2) < mu2], with [and]'s short cut. *)
Definition uk0_tolerance (s : uk0_state) : result bool :=
  n1 ← norm_inf (uk_ecart1 s);
  if Rlt_dec n1 mu1 then
    n2 ← norm_inf (uk_ecart2 s);
    Ok (if Rlt_dec n2 mu2 then true else false)
  else Ok false.

(** One pass of the loop body (lines 185-188). *)
Definition uk0_step (A : matrix) (n : Z) (mu : R) (s : uk0_state)
  : result uk0_state :=
  '(x, u_suivant, z) ← solve_poisson_boltzmann (uk_u s) n mu;
  Au ← np_dot A u_suivant;
  ecart1 ← np_sub Au z;
  ecart2 ← np_sub u_suivant (uk_u s);
  Ok (Uk0 (Some x) u_suivant ecart1 ecart2).

(** [while not (k > 200 or tolerance): body; k += 1]. *)
Equations? uk0_loop (A : matrix) (n : Z) (mu : R) (s : uk0_state) (k : Z)
  : result (uk0_state * Z) by wf (Z.to_nat (201 - k)) lt :=
  uk0_loop A n mu s k with decide (k > 200)%Z => {
    | left _ => Ok (s, k)
    | right _ with uk0_tolerance s => {
        | Raise e => Raise e
        | Ok true => Ok (s, k)
        | Ok false with uk0_step A n mu s => {
            | Raise e => Raise e
            | Ok s' => uk0_loop A n mu s' (k + 1) } } }.
Proof. lia. Qed.

Definition calcul_uk0 (mu : R) : result (list R * list R * Z) :=
  let n := 1000%Z in
  '(_, u, diags) ← solve_debye_huckel n mu;
  A ← tridiag diags;
  ecart1 ← np_dot A u;
  let ecart2 := u in
  '(s, k) ← uk0_loop A n mu (Uk0 None u ecart1 ecart2) 0;
  match uk_x s with
  | Some x => Ok (x, uk_u s, k)
  | None => Raise UnboundLocalError
  end.

(** ** Bisection on mu (lu.py, lines 233-246) *)

(** The locals of [find_convergence_mu]; [m] is unbound until the
    first pass. *)
Record bisect_state : Type := Bisect {
  debut : R;
  fin : R;
  ecart : R;
  bm : option R
}.

Definition bisect_cond (s : bisect_state) : result bool :=
  Ok (if Rgt_dec (ecart s) (10 / 10 ^ 6) then true else false).

Definition bisect_body (calcul : R -> result (list R * list R * Z))
    (s : bisect_state) : result bisect_state :=
  let m := (debut s + fin s) / 2 in
  '(_, _, k) ← calcul m;
  let '(debut', fin') :=
    if decide (k > 200)%Z then (debut s, m) else (m, fin s) in
  Ok (Bisect debut' fin' (fin' - debut') (Some m)).

(** The function over an arbitrary iteration-count oracle. *)
Definition find_convergence_mu_with
    (calcul : R -> result (list R * list R * Z)) (fuel : nat)
  : option (result R) :=
  match while fuel bisect_cond (bisect_body calcul) (Bisect 0 7 (7 - 0) None) with
  | None => None
  | Some (Raise e) => Some (Raise e)
  | Some (Ok s) =>
      match bm s with
      | Some m => Some (Ok m)
      | None => Some (Raise UnboundLocalError)
      end
  end.

Definition find_convergence_mu (fuel : nat) : option (result R) :=
  find_convergence_mu_with calcul_uk0 fuel.


(** ** Newton iteration (lu.py, lines 287-314) *)

(** One pass of the loop body (lines 307-311); the [print] evaluates
    both norms. *)
Definition newton_step (np_linalg_inv : matrix -> result matrix)
    (n : Z) (mu : R) (s : uk0_state) : result uk0_state :=
  '(x, u_suivant, F) ←
    solve_poisson_boltzmann_newton np_linalg_inv (uk_u s) n mu;
  let ecart1 := F in
  ecart2 ← np_sub u_suivant (uk_u s);
  _ ← norm_inf ecart1;
  _ ← norm_inf ecart2;
  Ok (Uk0 (Some x) u_suivant ecart1 ecart2).

(** [while not (k > 50 or tolerance): body; k += 1]. *)
Equations? newton_loop (np_linalg_inv : matrix -> result matrix)
    (n : Z) (mu : R) (s : uk0_state) (k : Z)
  : result (uk0_state * Z) by wf (Z.to_nat (51 - k)) lt :=
  newton_loop np_linalg_inv n mu s k with decide (k > 50)%Z => {
    | left _ => Ok (s, k)
    | right _ with uk0_tolerance s => {
        | Raise e => Raise e
        | Ok true => Ok (s, k)
        | Ok false with newton_step np_linalg_inv n mu s => {
            | Raise e => Raise e
            | Ok s' => newton_loop np_linalg_inv n mu s' (k + 1) } } }.
Proof. lia. Qed.

Definition calcul_uk0_newton (np_linalg_inv : matrix -> result matrix)
    (mu : R) : result (list R * list R * Z) :=
  let n := 1000%Z in
  '(_, u, diags) ← solve_debye_huckel n mu;
  A ← tridiag diags;
  ecart1 ← np_dot A u;
  let ecart2 := u in
  '(s, k) ← newton_loop np_linalg_inv n mu (Uk0 None u ecart1 ecart2) 0;
  match uk_x s with
  | Some x => Ok (x, uk_u s, k)
  | None => Raise UnboundLocalError
  end.

(** [np.linalg.inv] on a 2x2 matrix over the reals: the adjugate
    divided by the determinant; numpy raises LinAlgError on a singular
    matrix.  Only 2x2 inputs are in its domain: any other shape is
    answered with LinAlgError, as numpy does for a non-square input,
    and larger systems keep the parameter [np_linalg_inv] of the step. *)
Definition np_linalg_inv_2x2 (J : matrix) : result matrix :=
  match J with
  | [[p; q]; [r; s]] =>
      if Req_dec_T (p * s - q * r) 0 then Raise LinAlgError
      else Ok [[s / (p * s - q * r); - q / (p * s - q * r)];
               [- r / (p * s - q * r); p / (p * s - q * r)]]
  | _ => Raise LinAlgError
  end.
(** ** Specification vocabulary *)

(** Row [i] of the product of the tridiagonal matrix [(b, a, c)] with [x]. *)
Definition tri_row (b a c x : list R) (i : nat) : R :=
  match i with O => 0 | S j => b !!! j * x !!! j end
  + a !!! i * x !!! i
  + (if decide (S i < length x)%nat then c !!! i * x !!! S i else 0).

(** [l], [v] are the Thomas factors of [(b, a, c)]. *)
Definition lu_rel (a b c l v : list R) : Prop :=
  length v = length a /\ S (length l) = length a /\
  v !!! 0%nat = a !!! 0%nat /\
  forall k, (S k < length a)%nat ->
    v !!! k <> 0 /\ l !!! k = b !!! k / v !!! k /\
    v !!! S k = a !!! S k - l !!! k * c !!! k.

(** [y] solves the unit lower bidiagonal system [L y = z]. *)
Definition fwd_rel (l z y : list R) : Prop :=
  length y = length z /\ y !!! 0%nat = z !!! 0%nat /\
  forall k, (S k < length z)%nat ->
    y !!! S k = z !!! S k - l !!! k * y !!! k.

(** [x] solves the upper bidiagonal system [U x = y]. *)
Definition bwd_rel (v c y x : list R) : Prop :=
  length x = length y /\
  forall k, (k < length y)%nat ->
    x !!! k =
    (if decide (S k < length y)%nat then y !!! k - c !!! k * x !!! S k
     else y !!! k) / v !!! k.

(** The loop invariant of [lutri] after rows [1 .. k] are factored. *)
Definition lutri_inv (a b c : list R) (i : Z) (lv : list R * list R) : Prop :=
  let '(l, v) := lv in
  exists k : nat, i = Z.of_nat (S k) /\ length l = k /\ length v = S k /\
    v !!! 0%nat = a !!! 0%nat /\
    forall j, (j < k)%nat ->
      v !!! j <> 0 /\ l !!! j = b !!! j / v !!! j /\
      v !!! S j = a !!! S j - l !!! j * c !!! j.


(** The state of the bisection after [j] passes of its loop body, the
    loop test left aside. *)
Fixpoint bisect_run (calcul : R -> result (list R * list R * Z)) (j : nat)
  : result bisect_state :=
  match j with
  | O => Ok (Bisect 0 7 (7 - 0) None)
  | S j' => s ← bisect_run calcul j'; bisect_body calcul s
  end.

(** What holds of the bracket after [j] passes. *)
Definition bisect_inv (j : nat) (s : bisect_state) : Prop :=
  0 <= debut s /\ debut s <= fin s /\ fin s <= 7 /\
  ecart s = fin s - debut s /\ ecart s = 7 / 2 ^ j /\
  ((0 < j)%nat -> exists m, bm s = Some m /\ 0 <= m <= 7).

(** [l] has length [N] and entry [f j] at every index [j]. *)
Definition tabulates (l : list R) (N : nat) (f : nat -> R) : Prop :=
  length l = N /\ forall j, (j < N)%nat -> l !!! j = f j.

(** The geometric coefficients: [coef_b h k] is [b[k]], [coef_c h k] is
    [c[k]] of the linear assembler. *)
Definition coef_b (h : R) (k : nat) : R :=
  1 - h / (2 * grid_x h (Z.of_nat (S k))).
Definition coef_c (h : R) (k : nat) : R :=
  if decide (k = 0)%nat then 2 else 1 + h / (2 * grid_x h (Z.of_nat k)).

(** The invariant shared by the three assembling loops before row [i]. *)
Definition grid_inv (h : R) (N : nat) (i : Z) (x b c : list R) : Prop :=
  tabulates x N
    (fun j => if decide (j < Z.to_nat i)%nat then grid_x h (Z.of_nat j) else 1) /\
  tabulates b (N - 1)
    (fun j => if decide (S j < Z.to_nat i)%nat then coef_b h j else 0) /\
  tabulates c (N - 1)
    (fun j => if decide (j < Z.to_nat i)%nat then coef_c h j else 0).

(** Closed forms of what the linear assembler builds on [N] points. *)
Definition step_size (N : nat) : R := 10 / IZR (Z.of_nat N).
Definition dh_x (N : nat) : list R :=
  map (fun j => grid_x (step_size N) (Z.of_nat j)) (seq 0 N).
Definition dh_b (N : nat) : list R := map (coef_b (step_size N)) (seq 0 (N - 1)).
Definition dh_a (N : nat) : list R := replicate N (- (2 + step_size N ^ 2)).
Definition dh_c (N : nat) : list R := map (coef_c (step_size N)) (seq 0 (N - 1)).
Definition dh_z (N : nat) (mu : R) : list R :=
  <[0%nat := mu * step_size N * (step_size N - 2)]> (replicate N 0).

(** The right-hand side of the fixed-point step on [N] points. *)
Definition pb_z (N : nat) (mu : R) (u : list R) : list R :=
  map (fun j => step_size N ^ 2 * g (u !!! j)
                + (if decide (j = 0)%nat
                   then mu * step_size N * (step_size N - 2) else 0))
      (seq 0 N).

(** The dense matrix built by [tridiag], entry by entry. *)
Definition tridiag_entry (b a c : list R) (i j : nat) : R :=
  (if decide (Z.of_nat j - Z.of_nat i = -1)%Z then b !!! Nat.min i j else 0)
  + (if decide (Z.of_nat j - Z.of_nat i = 0)%Z then a !!! Nat.min i j else 0)
  + (if decide (Z.of_nat j - Z.of_nat i = 1)%Z then c !!! Nat.min i j else 0).


(** Row [i] of the linear operator on [N] points applied to a grid
    function [U]. *)
Definition tri_fun (h : R) (N : nat) (U : nat -> R) (i : nat) : R :=
  match i with O => 0 | S j => coef_b h j * U j end
  - (2 + h ^ 2) * U i
  + (if decide (S i < N)%nat then coef_c h i * U (S i) else 0).

(** What holds of the locals of [calcul_uk0] at the loop head after [k]
    passes on [N] points: the lengths, and, once a pass has run, where
    [u], [ecart1] and [ecart2] come from. *)
Definition uk0_inv (A : matrix) (N : nat) (mu : R) (s : uk0_state) (k : Z)
  : Prop :=
  (0 <= k <= 201)%Z /\
  length (uk_u s) = N /\ length (uk_ecart1 s) = N /\
  length (uk_ecart2 s) = N /\
  ((k = 0)%Z -> uk_x s = None) /\
  ((1 <= k)%Z -> exists u_prev z Au,
     length u_prev = N /\
     solve_poisson_boltzmann u_prev (Z.of_nat N) mu = Ok (dh_x N, uk_u s, z) /\
     uk_x s = Some (dh_x N) /\
     np_dot A (uk_u s) = Ok Au /\
     np_sub Au z = Ok (uk_ecart1 s) /\
     np_sub (uk_u s) u_prev = Ok (uk_ecart2 s)).

(** The iterate [u] has one sign [sigma], its first component is at
    least [T] in size, and the last step moved it by at least [mu2]. *)
Definition diverging (N : nat) (T : R) (s : uk0_state) : Prop :=
  exists sigma, (sigma = 1 \/ sigma = -1) /\
    (forall i, (i < N)%nat -> 0 <= sigma * uk_u s !!! i) /\
    T <= sigma * uk_u s !!! 0%nat /\
    mu2 <= Rabs (uk_ecart2 s !!! 0%nat).


(** What a computation may end in: a value satisfying [Q], or an
    exception satisfying [E]. *)
Definition outcome {A} (m : result A) (Q : A -> Prop) (E : PyError -> Prop)
  : Prop :=
  match m with
  | Ok a => Q a
  | Raise e => E e
  end.

(** What the bisection keeps when its oracle is a threshold at
    [mu_star]: the bracket contains the threshold, and the last midpoint
    is one of its ends. *)
Definition bracket_inv (mu_star : R) (j : nat) (s : bisect_state) : Prop :=
  debut s <= mu_star <= fin s /\
  ((0 < j)%nat -> exists m, bm s = Some m /\ (m = debut s \/ m = fin s)).

(** What the bisection keeps when every midpoint is answered: the last
    midpoint is away from both ends of [0, 7] by the width reached. *)
Definition midpoint_inv (j : nat) (s : bisect_state) : Prop :=
  (0 < j)%nat ->
  exists m, bm s = Some m /\ 7 / 2 ^ j <= m <= 7 - 7 / 2 ^ j.

(** Closed forms of what the Newton assembler builds on [N] points from
    the iterate [u]. *)
Definition newton_a (N : nat) (u : list R) : list R :=
  map (fun t => -2 - step_size N ^ 2 * cosh t) u.
Definition newton_c (N : nat) : list R :=
  map (fun j => if decide (j = 0)%nat then 0 else coef_c (step_size N) j)
      (seq 0 (N - 1)).
Definition newton_F_entry (h : R) (N : nat) (mu : R) (u : list R) (j : nat)
  : R :=
  match j with
  | O => - 2 * u !!! 0%nat - h ^ 2 * sinh (u !!! 0%nat) + 2 * u !!! 1%nat
         + mu * h * (2 - h)
  | S k => coef_b h k * u !!! k - 2 * u !!! j - h ^ 2 * sinh (u !!! j)
           + (if decide (S j < N)%nat then coef_c h j * u !!! S j else 0)
  end.
Definition newton_F (N : nat) (mu : R) (u : list R) : list R :=
  map (newton_F_entry (step_size N) N mu u) (seq 0 N).

(** The invariant of the Newton assembling loop before row [i]: the
    grid and the sub-diagonal as in the other assemblers, the
    super-diagonal likewise but for its first entry, left at 0, and [F]
    filled up to row [i]. *)
Definition newton_inv (h : R) (N : nat) (mu : R) (u : list R) (i : Z)
    (s : list R * list R * list R * list R) : Prop :=
  let '(x, b, c, F) := s in
  grid_inv h N i x b (<[0%nat := 2]> c) /\ c !!! 0%nat = 0 /\
  tabulates F N
    (fun j => if decide (j < Z.to_nat i)%nat
              then newton_F_entry h N mu u j else 0).

(** Row [i] of a tridiagonal matrix is strictly dominated by its
    diagonal entry, with margin [d]. *)
Definition row_dominant (b a c : list R) (d : R) (i : nat) : Prop :=
  match i with O => 0 | S j => Rabs (b !!! j) end
  + (if decide (S i < length a)%nat then Rabs (c !!! i) else 0) + d
  <= Rabs (a !!! i).

(** What holds of the locals of [calcul_uk0_newton] at the loop head
    after [k] passes on [N] points. *)
Definition newton_state_inv (np_linalg_inv : matrix -> result matrix)
    (N : nat) (mu : R) (s : uk0_state) (k : Z) : Prop :=
  (0 <= k <= 51)%Z /\ length (uk_u s) = N /\
  ((k = 0)%Z -> uk_x s = None) /\
  ((1 <= k)%Z -> exists u_prev,
     length u_prev = N /\ uk_x s = Some (dh_x N) /\
     solve_poisson_boltzmann_newton np_linalg_inv u_prev (Z.of_nat N) mu
     = Ok (dh_x N, uk_u s, uk_ecart1 s) /\
     np_sub (uk_u s) u_prev = Ok (uk_ecart2 s)).

(** A stand-in for [np.linalg.inv] that answers with the zero matrix of
    the same shape; it serves to exhibit a run of the Newton loop. *)
Definition zero_matrix_like (J : matrix) : result matrix :=
  Ok (map (map (fun _ : R => 0)) J).
(** * Verification *)

(** ** The runtime *)

Lemma bind_Ok {A B} (f : A -> result B) (a : A) : (Ok a ≫= f) = f a.
Proof. reflexivity. Qed.

Lemma bind_Raise {A B} (f : A -> result B) (e : PyError) :
  (Raise e ≫= f) = Raise e.
Proof. reflexivity. Qed.

Lemma bind_Ok_inv {A B} (f : A -> result B) (m : result A) (r : B) :
  (m ≫= f) = Ok r -> exists a, m = Ok a /\ f a = Ok r.
Proof. destruct m as [a|e]; [exists a; auto | discriminate]. Qed.

Lemma py_div_Ok (x y : R) : y <> 0 -> py_div x y = Ok (x / y).
Proof. intros H. unfold py_div. destruct (Req_dec_T y 0); [contradiction | reflexivity]. Qed.

Lemma py_div_zero (x : R) : py_div x 0 = Raise ZeroDivisionError.
Proof. unfold py_div. destruct (Req_dec_T 0 0); [reflexivity | contradiction]. Qed.

Lemma py_div_Ok_inv (x y q : R) : py_div x y = Ok q -> y <> 0 /\ q = x / y.
Proof.
  unfold py_div. destruct (Req_dec_T y 0); [discriminate|].
  intros [= <-]. auto.
Qed.

Lemma py_index_nat (len k : nat) :
  py_index len (Z.of_nat k) = if decide (k < len)%nat then Ok k else Raise IndexError.
Proof.
  unfold py_index. repeat case_decide; try lia; try reflexivity.
  now rewrite Nat2Z.id.
Qed.

Lemma getitem_nat {A} (l : list A) (k : nat) :
  getitem l (Z.of_nat k) =
  match l !! k with Some x => Ok x | None => Raise IndexError end.
Proof.
  unfold getitem. rewrite py_index_nat. case_decide; [reflexivity|].
  rewrite bind_Raise. rewrite lookup_ge_None_2 by lia. reflexivity.
Qed.

Lemma getitem_lt (l : list R) (k : nat) :
  (k < length l)%nat -> getitem l (Z.of_nat k) = Ok (l !!! k).
Proof.
  intros H. rewrite getitem_nat.
  now rewrite (list_lookup_lookup_total_lt l k H).
Qed.

Lemma getitem_head (l : list R) :
  l <> [] -> getitem l 0 = Ok (l !!! 0%nat).
Proof. intros H. apply (getitem_lt l 0). destruct l; simpl; [done | lia]. Qed.

Lemma getitem_ge {A} (l : list A) (k : nat) :
  (length l <= k)%nat -> getitem l (Z.of_nat k) = Raise IndexError.
Proof. intros H. rewrite getitem_nat. now rewrite lookup_ge_None_2. Qed.

Lemma getitem_Ok_inv (l : list R) (k : nat) (x : R) :
  getitem l (Z.of_nat k) = Ok x -> (k < length l)%nat /\ x = l !!! k.
Proof.
  destruct (decide (k < length l)%nat) as [H|H].
  - rewrite getitem_lt by done. intros [= <-]. auto.
  - rewrite getitem_ge by lia. discriminate.
Qed.

Lemma setitem_nat {A} (l : list A) (k : nat) (x : A) :
  setitem l (Z.of_nat k) x =
  if decide (k < length l)%nat then Ok (<[k := x]> l) else Raise IndexError.
Proof. unfold setitem. rewrite py_index_nat. now case_decide. Qed.

Lemma setitem_lt {A} (l : list A) (k : nat) (x : A) :
  (k < length l)%nat -> setitem l (Z.of_nat k) x = Ok (<[k := x]> l).
Proof. intros H. rewrite setitem_nat. now case_decide. Qed.

Lemma range_nil (lo hi : Z) : (hi <= lo)%Z -> range lo hi = [].
Proof.
  intros H. unfold range, seqZ. now replace (Z.to_nat (hi - lo)) with 0%nat by lia.
Qed.

Lemma range_cons (lo hi : Z) :
  (lo < hi)%Z -> range lo hi = lo :: range (lo + 1) hi.
Proof.
  intros H. unfold range.
  replace (hi - lo)%Z with (Z.succ (hi - (lo + 1))) by lia.
  rewrite seqZ_cons by lia. f_equal. f_equal; lia.
Qed.

Lemma range_down_nil (hi lo : Z) : (hi <= lo)%Z -> range_down hi lo = [].
Proof.
  intros H. unfold range_down, seqZ.
  now replace (Z.to_nat (hi - lo)) with 0%nat by lia.
Qed.

Lemma range_down_cons (hi lo : Z) :
  (lo < hi)%Z -> range_down hi lo = hi :: range_down (hi - 1) lo.
Proof.
  intros H. unfold range_down.
  rewrite seqZ_cons by lia. rewrite fmap_cons. f_equal; [lia|].
  replace (Z.pred (hi - lo)) with (hi - 1 - lo)%Z by lia.
  rewrite <- (fmap_add_seqZ 1 0). rewrite <- list_fmap_compose.
  apply list_fmap_ext. intros _ k _. simpl. lia.
Qed.

(** Total correctness of an ascending [for] loop under an invariant. *)
Lemma for_range_ok {S} (Inv : Z -> S -> Prop) (body : Z -> S -> result S)
    (lo hi : Z) (s : S) :
  (lo <= hi)%Z -> Inv lo s ->
  (forall i s, (lo <= i < hi)%Z -> Inv i s ->
     exists s', body i s = Ok s' /\ Inv (i + 1)%Z s') ->
  exists s', for_each (range lo hi) body s = Ok s' /\ Inv hi s'.
Proof.
  intros Hle H0 Hstep.
  remember (Z.to_nat (hi - lo)) as d eqn:Hd.
  revert lo s Hle H0 Hstep Hd. induction d as [|d IH]; intros lo s Hle H0 Hstep Hd.
  - assert (lo = hi) as -> by lia. rewrite range_nil by lia. exists s. auto.
  - rewrite range_cons by lia. simpl.
    destruct (Hstep lo s) as (s1 & -> & H1); [lia | done |].
    rewrite bind_Ok. apply IH; [lia | done | | lia].
    intros i s2 Hi. apply Hstep. lia.
Qed.

(** Partial correctness: what a completed ascending loop establishes. *)
Lemma for_range_inv {S} (Inv : Z -> S -> Prop) (body : Z -> S -> result S)
    (lo hi : Z) (s s' : S) :
  for_each (range lo hi) body s = Ok s' ->
  (lo <= hi)%Z -> Inv lo s ->
  (forall i s s', (lo <= i < hi)%Z -> Inv i s -> body i s = Ok s' ->
     Inv (i + 1)%Z s') ->
  Inv hi s'.
Proof.
  intros Hrun Hle H0 Hstep.
  remember (Z.to_nat (hi - lo)) as d eqn:Hd.
  revert lo s Hrun Hle H0 Hstep Hd.
  induction d as [|d IH]; intros lo s Hrun Hle H0 Hstep Hd.
  - assert (lo = hi) as -> by lia. rewrite range_nil in Hrun by lia.
    simpl in Hrun. now injection Hrun as <-.
  - rewrite range_cons in Hrun by lia. simpl in Hrun.
    apply bind_Ok_inv in Hrun as (s1 & Hb & Hrun).
    apply (IH (lo + 1)%Z s1); [done | lia | | | lia].
    + apply (Hstep lo s); [lia | done | done].
    + intros i s2 s3 Hi. apply Hstep. lia.
Qed.

(** Total correctness of a descending [for] loop: [Inv i] holds before
    index [i] is processed. *)
Lemma for_range_down_ok {S} (Inv : Z -> S -> Prop)
    (body : Z -> S -> result S) (hi lo : Z) (s : S) :
  (lo <= hi)%Z -> Inv hi s ->
  (forall i s, (lo < i <= hi)%Z -> Inv i s ->
     exists s', body i s = Ok s' /\ Inv (i - 1)%Z s') ->
  exists s', for_each (range_down hi lo) body s = Ok s' /\ Inv lo s'.
Proof.
  intros Hle H0 Hstep.
  remember (Z.to_nat (hi - lo)) as d eqn:Hd.
  revert hi s Hle H0 Hstep Hd. induction d as [|d IH]; intros hi s Hle H0 Hstep Hd.
  - assert (lo = hi) as -> by lia. rewrite range_down_nil by lia. exists s. auto.
  - rewrite range_down_cons by lia. simpl.
    destruct (Hstep hi s) as (s1 & -> & H1); [lia | done |].
    rewrite bind_Ok. apply IH; [lia | done | | lia].
    intros i s2 Hi. apply Hstep. lia.
Qed.

(** ** One pass of each loop of the solver *)

Lemma lutri_body_step (a b c l v : list R) (k : nat) :
  length l = k -> length v = S k ->
  lutri_body a b c (Z.of_nat (S k)) (l, v) =
  if decide (k < length b)%nat then
    if Req_dec_T (v !!! k) 0 then Raise ZeroDivisionError
    else if decide (S k < length a)%nat then
      if decide (k < length c)%nat then
        Ok (l ++ [b !!! k / v !!! k],
            v ++ [a !!! S k - b !!! k / v !!! k * c !!! k])
      else Raise IndexError
    else Raise IndexError
  else Raise IndexError.
Proof.
  intros Hl Hv. unfold lutri_body.
  replace (Z.of_nat (S k) - 1)%Z with (Z.of_nat k) by lia.
  case_decide as Hb; [| now rewrite (getitem_ge b) by lia].
  rewrite (getitem_lt b), bind_Ok by done.
  rewrite (getitem_lt v), bind_Ok by lia.
  unfold py_div. destruct (Req_dec_T (v !!! k) 0) as [Hz|Hz]; [reflexivity|].
  rewrite bind_Ok.
  case_decide as Ha; [| now rewrite (getitem_ge a) by lia].
  rewrite (getitem_lt a), bind_Ok by done.
  rewrite (getitem_lt (l ++ _)), bind_Ok by (rewrite length_app; simpl; lia).
  rewrite lookup_total_app_r by lia.
  replace (k - length l)%nat with 0%nat by lia. simpl.
  case_decide as Hc; [| now rewrite (getitem_ge c) by lia].
  now rewrite (getitem_lt c), bind_Ok by done.
Qed.

Lemma descente_body_step (l z y : list R) (k : nat) :
  length y = S k ->
  descente_body l z (Z.of_nat (S k)) y =
  if decide (S k < length z)%nat then
    if decide (k < length l)%nat then
      Ok (y ++ [z !!! S k - l !!! k * y !!! k])
    else Raise IndexError
  else Raise IndexError.
Proof.
  intros Hy. unfold descente_body.
  replace (Z.of_nat (S k) - 1)%Z with (Z.of_nat k) by lia.
  case_decide as Hz; [| now rewrite (getitem_ge z) by lia].
  rewrite (getitem_lt z), bind_Ok by done.
  case_decide as Hl; [| now rewrite (getitem_ge l) by lia].
  rewrite (getitem_lt l), bind_Ok by done.
  now rewrite (getitem_lt y), bind_Ok by lia.
Qed.

Lemma remontee_body_step (v c y x : list R) (k : nat) :
  x <> [] ->
  remontee_body v c y (Z.of_nat k) x =
  if decide (k < length y)%nat then
    if decide (k < length c)%nat then
      if decide (k < length v)%nat then
        if Req_dec_T (v !!! k) 0 then Raise ZeroDivisionError
        else Ok ((y !!! k - c !!! k * x !!! 0%nat) / v !!! k :: x)
      else Raise IndexError
    else Raise IndexError
  else Raise IndexError.
Proof.
  intros Hx. unfold remontee_body.
  case_decide as Hy; [| now rewrite (getitem_ge y) by lia].
  rewrite (getitem_lt y), bind_Ok by done.
  case_decide as Hc; [| now rewrite (getitem_ge c) by lia].
  rewrite (getitem_lt c), bind_Ok by done.
  rewrite getitem_head, bind_Ok by done.
  case_decide as Hv; [| now rewrite (getitem_ge v) by lia].
  rewrite (getitem_lt v), bind_Ok by done.
  unfold py_div. now destruct (Req_dec_T (v !!! k) 0).
Qed.

(** ** Factorisation and substitutions as relations *)

Lemma lutri_inv_step (a b c l v : list R) (k : nat) (q w : R) :
  lutri_inv a b c (Z.of_nat (S k)) (l, v) ->
  v !!! k <> 0 -> q = b !!! k / v !!! k -> w = a !!! S k - q * c !!! k ->
  lutri_inv a b c (Z.of_nat (S k) + 1) (l ++ [q], v ++ [w]).
Proof.
  intros (k' & Hk & Hl & Hv & H0 & Hrel) Hnz Hq Hw.
  assert (k' = k) as -> by lia.
  exists (S k). repeat split.
  - lia.
  - rewrite length_app. simpl. lia.
  - rewrite length_app. simpl. lia.
  - rewrite lookup_total_app_l by lia. done.
  - rewrite lookup_total_app_l by lia.
    destruct (decide (j = k)) as [->|Hj]; [done|]. apply Hrel. lia.
  - destruct (decide (j = k)) as [->|Hj].
    + rewrite lookup_total_app_r by lia. rewrite lookup_total_app_l by lia.
      replace (k - length l)%nat with 0%nat by lia. done.
    + rewrite !lookup_total_app_l by lia. apply Hrel. lia.
  - destruct (decide (j = k)) as [->|Hj].
    + rewrite (lookup_total_app_r v) by lia.
      rewrite (lookup_total_app_r l) by lia.
      replace (S k - length v)%nat with 0%nat by lia.
      replace (k - length l)%nat with 0%nat by lia. done.
    + rewrite !lookup_total_app_l by lia. apply Hrel. lia.
Qed.

Lemma lutri_inv_final (a b c l v : list R) :
  lutri_inv a b c (Z.of_nat (length a)) (l, v) -> lu_rel a b c l v.
Proof.
  intros (k & Hk & Hl & Hv & H0 & Hrel).
  assert (length a = S k) as Ha by lia.
  repeat split; try lia; try done; apply Hrel; lia.
Qed.

(** A successful [lutri] produces the Thomas factors, and every pivot it
    divided by was nonzero. *)
Lemma lutri_Ok_rel (a b c l v : list R) :
  lutri a b c = Ok (l, v) -> lu_rel a b c l v.
Proof.
  unfold lutri. intros H. apply bind_Ok_inv in H as (a0 & Ha0 & H).
  apply (getitem_Ok_inv a 0) in Ha0 as [Hlen ->].
  apply lutri_inv_final.
  eapply (for_range_inv (lutri_inv a b c)); [exact H | lia | |].
  - exists 0%nat. repeat split; try done; lia.
  - intros i [l1 v1] s' Hi Hinv Hbody.
    pose proof Hinv as (k & -> & Hl & Hv & _).
    rewrite lutri_body_step in Hbody by done.
    repeat (case_decide || destruct (Req_dec_T _ _)); try discriminate.
    injection Hbody as <-. now apply lutri_inv_step.
Qed.

(** [lutri] succeeds as soon as some property of the pivots is carried
    along the recurrence and excludes zero. *)
Lemma lutri_pivots (P : nat -> R -> Prop) (a b c : list R) :
  a <> [] ->
  (length a <= S (length b))%nat -> (length a <= S (length c))%nat ->
  P 0%nat (a !!! 0%nat) ->
  (forall k p, (S k < length a)%nat -> P k p ->
     p <> 0 /\ P (S k) (a !!! S k - b !!! k / p * c !!! k)) ->
  (forall p, P (length a - 1)%nat p -> p <> 0) ->
  exists l v, lutri a b c = Ok (l, v) /\ lu_rel a b c l v /\
    forall k, (k < length a)%nat -> v !!! k <> 0 /\ P k (v !!! k).
Proof.
  intros Ha Hb Hc HP0 HP Hlast. unfold lutri.
  rewrite getitem_head, bind_Ok by done.
  assert (0 < length a)%nat as Hn by (destruct a; simpl; [done | lia]).
  destruct (for_range_ok
    (fun i lv => lutri_inv a b c i lv /\
       forall j, (Z.of_nat j < i)%Z -> P j (snd lv !!! j))
    (lutri_body a b c) 1 (Z.of_nat (length a)) ([], [a !!! 0%nat]))
    as ([l v] & Hrun & Hinv & HPv).
  - lia.
  - split.
    + exists 0%nat. repeat split; try done; lia.
    + intros j Hj. assert (j = 0)%nat as -> by lia. done.
  - intros i [l1 v1] Hi [Hinv HPv].
    pose proof Hinv as (k & -> & Hl & Hv & _). simpl in HPv.
    destruct (HP k (v1 !!! k)) as [Hnz HPn]; [lia | apply HPv; lia |].
    rewrite lutri_body_step by done.
    rewrite !decide_True by lia.
    destruct (Req_dec_T (v1 !!! k) 0); [done|].
    eexists. split; [reflexivity|]. split.
    + now apply lutri_inv_step.
    + intros j Hj. simpl.
      destruct (decide (j = S k)) as [->|Hne].
      * rewrite lookup_total_app_r by lia.
        replace (S k - length v1)%nat with 0%nat by lia. done.
      * rewrite lookup_total_app_l by lia. apply HPv. lia.
  - exists l, v. split; [done|]. split; [now apply lutri_inv_final|].
    intros k Hk. simpl in HPv.
    assert (P k (v !!! k)) as HPk by (apply HPv; lia).
    split; [|done].
    destruct (decide (S k < length a)%nat) as [Hlt|Hge].
    + now destruct (HP k (v !!! k) Hlt HPk).
    + apply Hlast. now replace (length a - 1)%nat with k by lia.
Qed.

(** [descente] is total on matching dimensions. *)
Lemma descente_Ok (l z : list R) :
  z <> [] -> (length z <= S (length l))%nat ->
  exists y, descente l z = Ok y /\ fwd_rel l z y.
Proof.
  intros Hz Hl. unfold descente.
  rewrite getitem_head, bind_Ok by done.
  assert (0 < length z)%nat as Hn by (destruct z; simpl; [done | lia]).
  destruct (for_range_ok
    (fun i y => exists k : nat, i = Z.of_nat (S k) /\ length y = S k /\
       y !!! 0%nat = z !!! 0%nat /\
       forall j, (j < k)%nat -> y !!! S j = z !!! S j - l !!! j * y !!! j)
    (descente_body l z) 1 (Z.of_nat (length z)) [z !!! 0%nat])
    as (y & Hrun & k & Hk & Hy & H0 & Hrel).
  - lia.
  - exists 0%nat. repeat split; try done; lia.
  - intros i y Hi (k & -> & Hy & H0 & Hrel).
    rewrite descente_body_step by done.
    rewrite !decide_True by lia.
    eexists. split; [reflexivity|].
    exists (S k). repeat split.
    + lia.
    + rewrite length_app. simpl. lia.
    + rewrite lookup_total_app_l by lia. done.
    + intros j Hj. destruct (decide (j = k)) as [->|Hne].
      * rewrite lookup_total_app_r by lia.
        rewrite lookup_total_app_l by lia.
        replace (S k - length y)%nat with 0%nat by lia. done.
      * rewrite !lookup_total_app_l by lia. apply Hrel. lia.
  - exists y. split; [done|]. repeat split; try lia; try done.
    intros j Hj. apply Hrel. lia.
Qed.

(** [remontee] is total when no pivot is zero. *)
Lemma remontee_Ok (v c y : list R) :
  y <> [] -> (length y <= length v)%nat -> (length y <= S (length c))%nat ->
  (forall k, (k < length y)%nat -> v !!! k <> 0) ->
  exists x, remontee v c y = Ok x /\ bwd_rel v c y x.
Proof.
  intros Hy Hv Hc Hnz. unfold remontee.
  assert (0 < length y)%nat as Hn by (destruct y; simpl; [done | lia]).
  set (n := length y) in *.
  replace (Z.of_nat n - 1)%Z with (Z.of_nat (n - 1)) by lia.
  rewrite (getitem_lt y), bind_Ok by lia.
  rewrite (getitem_lt v), bind_Ok by lia.
  rewrite py_div_Ok, bind_Ok by (apply Hnz; lia).
  destruct (for_range_down_ok
    (fun i x => exists m : nat, (i = Z.of_nat n - 1 - Z.of_nat m)%Z /\
       (1 <= m)%nat /\ length x = m /\
       forall t, (t < m)%nat ->
         x !!! t =
         (if decide (S (n - m + t) < n)%nat
          then y !!! (n - m + t)%nat - c !!! (n - m + t)%nat * x !!! S t
          else y !!! (n - m + t)%nat) / v !!! (n - m + t)%nat)
    (remontee_body v c y) (Z.of_nat n - 2) (-1)
    [y !!! (n - 1)%nat / v !!! (n - 1)%nat])
    as (x & Hrun & m & Hm & _ & Hx & Hrel).
  - lia.
  - exists 1%nat. repeat split; try lia; try done.
    intros t Ht. assert (t = 0)%nat as -> by lia.
    replace (n - 1 + 0)%nat with (n - 1)%nat by lia.
    rewrite decide_False by lia. done.
  - intros i x Hi (m & Hm & Hm1 & Hx & Hrel).
    assert (i = Z.of_nat (n - m - 1)) as -> by lia.
    rewrite remontee_body_step by (destruct x; simpl in *; [lia | done]).
    rewrite !decide_True by lia.
    destruct (Req_dec_T (v !!! (n - m - 1)%nat) 0) as [Hz|_];
      [exfalso; revert Hz; apply Hnz; lia|].
    eexists. split; [reflexivity|].
    exists (S m). repeat split; try lia.
    + simpl. lia.
    + intros [|t] Ht.
      * replace (n - S m + 0)%nat with (n - m - 1)%nat by lia.
        rewrite decide_True by lia. done.
      * replace (n - S m + S t)%nat with (n - m + t)%nat by lia.
        change ((?q :: x) !!! S t) with (x !!! t).
        change ((?q :: x) !!! S (S t)) with (x !!! S t).
        apply Hrel. lia.
  - exists x. split; [done|].
    assert (m = n) as -> by lia.
    split; [done|]. intros k Hk.
    specialize (Hrel k Hk).
    now replace (n - n + k)%nat with k in Hrel by lia.
Qed.

(** ** The tridiagonal product *)

(** With the three relations in hand, row [i] of [A x] is [z i]. *)
Lemma thomas_row (a b c z l v y x : list R) (i : nat) :
  length z = length a ->
  lu_rel a b c l v -> fwd_rel l z y -> bwd_rel v c y x ->
  (forall k, (k < length a)%nat -> v !!! k <> 0) ->
  (i < length a)%nat ->
  tri_row b a c x i = z !!! i.
Proof.
  intros Hz (Hlv & Hll & Hv0 & Hlu) (Hly & Hy0 & Hfw) (Hlx & Hbw) Hnz Hi.
  unfold tri_row. rewrite Hlx, Hly, Hz.
  assert (v !!! i * x !!! i =
          if decide (S i < length a)%nat
          then y !!! i - c !!! i * x !!! S i else y !!! i) as Hxi.
  { rewrite (Hbw i) by lia. rewrite Hly, Hz.
    field. apply Hnz. lia. }
  destruct i as [|j].
  - rewrite <- Hv0, Hxi, <- Hy0. case_decide; lra.
  - destruct (Hlu j Hi) as (Hvj & Hlj & Hvs).
    assert (v !!! j * x !!! j = y !!! j - c !!! j * x !!! S j) as Hxj.
    { rewrite (Hbw j) by lia. rewrite Hly, Hz.
      rewrite decide_True by lia. field. done. }
    assert (b !!! j = l !!! j * v !!! j) as -> by (rewrite Hlj; field; done).
    assert (a !!! S j = v !!! S j + l !!! j * c !!! j) as -> by lra.
    pose proof (Hfw j ltac:(lia)) as Hzj.
    transitivity (l !!! j * (v !!! j * x !!! j) + v !!! S j * x !!! S j
                  + l !!! j * c !!! j * x !!! S j
                  + (if decide (S (S j) < length a)%nat
                     then c !!! S j * x !!! S (S j) else 0)); [ring|].
    rewrite Hxj, Hxi. case_decide; lra.
Qed.

Lemma zip_with_map_same {A B C D} (f : B -> C -> D) (p : A -> B) (q : A -> C)
    (l : list A) :
  zip_with f (map p l) (map q l) = map (fun t => f (p t) (q t)) l.
Proof. induction l as [|t l IH]; simpl; [done | now rewrite IH]. Qed.

Lemma row_dot_plus (p q : nat -> R) (idx : list nat) (x : list R) :
  row_dot (map (fun j => p j + q j) idx) x =
  row_dot (map p idx) x + row_dot (map q idx) x.
Proof.
  unfold row_dot. revert x. induction idx as [|j idx IH]; intros [|t x]; simpl;
    try lra.
  rewrite IH. lra.
Qed.

(** A row with a single nonzero entry picks one component of [x]. *)
Lemma row_dot_single (f : nat -> R) (k s n : nat) (x : list R) :
  length x = n -> (forall j, j <> k -> f j = 0) ->
  row_dot (map f (seq s n)) x =
  if decide (s <= k < s + n)%nat then f k * x !!! (k - s)%nat else 0.
Proof.
  unfold row_dot. revert s x.
  induction n as [|n IH]; intros s [|t x] Hx Hf; simpl in *; try lia.
  - case_decide; [lia | done].
  - rewrite (IH (S s) x) by (done || lia).
    destruct (decide (k = s)) as [->|Hne].
    + rewrite (decide_False (P := (S s <= s < _)%nat)) by lia.
      rewrite decide_True by lia.
      replace (s - s)%nat with 0%nat by lia. simpl. lra.
    + rewrite (Hf s) by lia.
      destruct (decide (S s <= k < S s + n)%nat) as [Hin|Hout].
      * rewrite decide_True by lia.
        replace (k - s)%nat with (S (k - S s)) by lia. simpl. lra.
      * rewrite decide_False by lia. lra.
Qed.

Lemma np_diag_rows (v : list R) (k : Z) :
  length (np_diag v k) = (length v + Z.abs_nat k)%nat.
Proof. unfold np_diag. now rewrite length_map, length_seq. Qed.

Lemma tridiag_Ok (b a c : list R) :
  length a = S (length b) -> length a = S (length c) ->
  tridiag (b, a, c) =
  Ok (map (fun i => map (tridiag_entry b a c i) (seq 0 (length a)))
        (seq 0 (length a))).
Proof.
  intros Hb Hc. unfold tridiag, np_add.
  rewrite !np_diag_rows. simpl Z.abs_nat.
  rewrite decide_True by lia. rewrite bind_Ok.
  rewrite length_zip_with, !np_diag_rows. simpl Z.abs_nat.
  rewrite decide_True by lia.
  f_equal. unfold np_diag.
  replace (length b + Z.abs_nat (-1))%nat with (length a) by (simpl; lia).
  replace (length c + Z.abs_nat 1)%nat with (length a) by (simpl; lia).
  replace (length a + Z.abs_nat 0)%nat with (length a) by (simpl; lia).
  rewrite zip_with_map_same. rewrite zip_with_map_same.
  apply map_ext. intros i.
  rewrite zip_with_map_same. rewrite zip_with_map_same. reflexivity.
Qed.

Lemma tridiag_row_dot (b a c x : list R) (i : nat) :
  length x = length a -> (i < length a)%nat ->
  row_dot (map (tridiag_entry b a c i) (seq 0 (length a))) x =
  tri_row b a c x i.
Proof.
  intros Hx Hi. unfold tridiag_entry, tri_row.
  rewrite row_dot_plus, row_dot_plus.
  rewrite (row_dot_single _ (i - 1) 0 (length a) x) by
    (done || (intros j Hj; case_decide; [lia | done])).
  rewrite (row_dot_single _ i 0 (length a) x) by
    (done || (intros j Hj; case_decide; [lia | done])).
  rewrite (row_dot_single _ (S i) 0 (length a) x) by
    (done || (intros j Hj; case_decide; [lia | done])).
  rewrite Hx. rewrite !Nat.sub_0_r.
  rewrite (decide_True (P := (0 <= i - 1 < _)%nat)) by lia.
  rewrite (decide_True (P := (0 <= i < _)%nat)) by lia.
  rewrite (decide_True (P := (_ - _ = 0)%Z)) by lia.
  rewrite Nat.min_id.
  f_equal; [f_equal|].
  - destruct i as [|j].
    + rewrite decide_False by lia. lra.
    + rewrite decide_True by lia.
      replace (S j - 1)%nat with j by lia.
      now replace (Nat.min (S j) j) with j by lia.
  - destruct (decide (S i < length a)%nat) as [Hlt|Hge].
    + rewrite (decide_True (P := (0 <= S i < _)%nat)) by lia.
      rewrite decide_True by lia.
      now replace (Nat.min i (S i)) with i by lia.
    + now rewrite (decide_False (P := (0 <= S i < _)%nat)) by lia.
Qed.

(** [tridiag (b, a, c)] times [x], row by row. *)
Lemma tridiag_dot (b a c x : list R) :
  length a = S (length b) -> length a = S (length c) ->
  length x = length a ->
  exists M, tridiag (b, a, c) = Ok M /\
    np_dot M x = Ok (map (tri_row b a c x) (seq 0 (length a))).
Proof.
  intros Hb Hc Hx. eexists. split; [now apply tridiag_Ok|].
  unfold np_dot. rewrite decide_True.
  - f_equal. rewrite map_map. apply map_ext_in. intros i Hi.
    apply in_seq in Hi. apply tridiag_row_dot; [done | lia].
  - apply Forall_forall. intros r Hr.
    apply in_map_iff in Hr as (i & <- & _).
    now rewrite length_map, length_seq.
Qed.

Lemma for_each_cons {S} (i : Z) (rest : list Z) (body : Z -> S -> result S)
    (s : S) :
  for_each (i :: rest) body s = (body i s ≫= for_each rest body).
Proof. reflexivity. Qed.

Lemma map_seq_lookup_total (f : nat -> R) (z : list R) :
  (forall i, (i < length z)%nat -> f i = z !!! i) ->
  map f (seq 0 (length z)) = z.
Proof.
  intros H. apply list_eq. intros i.
  change (map f (seq 0 (length z))) with (f <$> seq 0 (length z)).
  rewrite list_lookup_fmap.
  destruct (decide (i < length z)%nat) as [Hi|Hi].
  - rewrite lookup_seq_lt by done. simpl. rewrite H by done.
    symmetry. now apply list_lookup_lookup_total_lt.
  - rewrite lookup_seq_ge by lia. simpl. symmetry. apply lookup_ge_None_2. lia.
Qed.

(** One pass of [lutri] on literal data, with the new entries [q], [w]
    given in normal form. *)
Ltac lutri_pass q w :=
  rewrite for_each_cons, lutri_body_step by reflexivity;
  rewrite !decide_True by (simpl; lia);
  simpl (_ !!! _);
  destruct (Req_dec_T _ 0) as [Hz|_]; [exfalso; lra|];
  match goal with
  | |- context [Ok (?l ++ [?q'], ?v ++ [?w'])] =>
      replace w' with w by lra; replace q' with q by lra
  end;
  rewrite bind_Ok; simpl (_ ++ _).

(** The fixture of [main] (lines 345-347), evaluated. *)
Lemma lutri_fixture_eval :
  lutri [-2; 5; -1; 4; -2] [-4; -3; -2; 2] [1; 2; -1; 1]
  = Ok ([2; -1; -2; 1], [-2; 3; 1; 2; -3]).
Proof.
  unfold lutri. rewrite getitem_head, bind_Ok by done.
  replace (range 1 (Z.of_nat (length [-2; 5; -1; 4; -2])))
    with [Z.of_nat 1; Z.of_nat 2; Z.of_nat 3; Z.of_nat 4] by reflexivity.
  simpl (_ !!! _).
  lutri_pass 2 3. lutri_pass (-1) 1. lutri_pass (-2) 2. lutri_pass 1 (-3).
  reflexivity.
Qed.

(** ** Bisection *)

Lemma pow2_pos (j : nat) : 0 < 2 ^ j.
Proof. apply pow_lt. lra. Qed.

Lemma bisect_width_large (j : nat) : (j < 20)%nat -> 7 / 2 ^ j > 10 / 10 ^ 6.
Proof.
  intros Hj.
  assert (2 ^ j <= 2 ^ 19) as Hle by (apply Rle_pow; [lra | lia]).
  pose proof (pow2_pos j) as Hpos.
  assert (2 ^ 19 = 524288) as E19 by (simpl; lra).
  assert (10 ^ 6 = 1000000) as E6 by (simpl; lra).
  rewrite E6. rewrite E19 in Hle.
  apply Rlt_gt. apply Rmult_lt_reg_r with (2 ^ j); [done|].
  unfold Rdiv at 2. rewrite Rmult_assoc, Rinv_l by lra. lra.
Qed.

Lemma bisect_width_small (j : nat) : (20 <= j)%nat -> ~ 7 / 2 ^ j > 10 / 10 ^ 6.
Proof.
  intros Hj Hgt.
  assert (2 ^ 20 <= 2 ^ j) as Hle by (apply Rle_pow; [lra | lia]).
  pose proof (pow2_pos j) as Hpos.
  assert (2 ^ 20 = 1048576) as E20 by (simpl; lra).
  assert (10 ^ 6 = 1000000) as E6 by (simpl; lra).
  rewrite E6 in Hgt. rewrite E20 in Hle.
  apply Rgt_lt in Hgt. apply (Rmult_lt_compat_r (2 ^ j)) in Hgt; [|done].
  unfold Rdiv at 2 in Hgt. rewrite Rmult_assoc, Rinv_l in Hgt by lra. lra.
Qed.

Lemma bisect_body_Ok_inv (calcul : R -> result (list R * list R * Z))
    (s s' : bisect_state) :
  bisect_body calcul s = Ok s' ->
  let m := (debut s + fin s) / 2 in
  bm s' = Some m /\ ecart s' = fin s' - debut s' /\
  ((debut s' = debut s /\ fin s' = m) \/ (debut s' = m /\ fin s' = fin s)).
Proof.
  unfold bisect_body. intros H.
  apply bind_Ok_inv in H as ([[xs us] k] & _ & H).
  case_decide; injection H as <-; simpl; auto.
Qed.

Lemma bisect_inv_step (calcul : R -> result (list R * list R * Z))
    (j : nat) (s s' : bisect_state) :
  bisect_inv j s -> bisect_body calcul s = Ok s' -> bisect_inv (S j) s'.
Proof.
  intros (H0 & Hle & H7 & He & Hw & _) Hbody.
  apply bisect_body_Ok_inv in Hbody as (Hm & He' & Hcase).
  pose proof (pow2_pos j) as Hpos.
  assert (7 / 2 ^ S j = 7 / 2 ^ j / 2) as Hhalf by (simpl; field; lra).
  unfold bisect_inv. rewrite Hhalf, <- Hw, He', Hm.
  destruct Hcase as [[-> ->]|[-> ->]];
    (repeat split; try lra; intros _; eexists; split; [reflexivity | lra]).
Qed.

Lemma bisect_run_inv (calcul : R -> result (list R * list R * Z))
    (j : nat) (s : bisect_state) :
  bisect_run calcul j = Ok s -> bisect_inv j s.
Proof.
  revert s. induction j as [|j IH]; intros s Hrun; simpl in Hrun.
  - injection Hrun as <-. unfold bisect_inv. simpl.
    repeat split; try lra. intros Hj. lia.
  - apply bind_Ok_inv in Hrun as (s0 & Hrun & Hbody).
    eapply bisect_inv_step; [apply IH|]; done.
Qed.

Lemma bisect_cond_spec (j : nat) (s : bisect_state) :
  bisect_inv j s ->
  bisect_cond s = Ok (if decide (j < 20)%nat then true else false).
Proof.
  intros (_ & _ & _ & _ & Hw & _). unfold bisect_cond. rewrite Hw.
  case_decide as Hj.
  - destruct (Rgt_dec _ _) as [_|Hn]; [done|].
    exfalso. apply Hn. now apply bisect_width_large.
  - destruct (Rgt_dec _ _) as [Hgt|_]; [|done].
    exfalso. revert Hgt. apply bisect_width_small. lia.
Qed.

Lemma while_S {S} (fuel : nat) (cond : S -> result bool)
    (body : S -> result S) (s : S) :
  while (Datatypes.S fuel) cond body s =
  match cond s with
  | Raise e => Some (Raise e)
  | Ok false => Some (Ok s)
  | Ok true =>
      match body s with
      | Raise e => Some (Raise e)
      | Ok s' => while fuel cond body s'
      end
  end.
Proof. reflexivity. Qed.

(** From the state after [j <= 20] passes the loop needs at most
    [20 - j] further passes. *)
Lemma bisect_while (calcul : R -> result (list R * list R * Z))
    (d j : nat) (s : bisect_state) :
  (j + d = 20)%nat -> bisect_run calcul j = Ok s ->
  exists r, (forall fuel, (d < fuel)%nat ->
               while fuel bisect_cond (bisect_body calcul) s = Some r) /\
    match r with
    | Ok s' => bisect_run calcul 20 = Ok s'
    | Raise e => exists j' s', (j' < 20)%nat /\ bisect_run calcul j' = Ok s' /\
                   bisect_body calcul s' = Raise e
    end.
Proof.
  revert j s. induction d as [|d IH]; intros j s Hj Hrun.
  - assert (j = 20)%nat as -> by lia.
    exists (Ok s). split; [|done].
    intros [|fuel] Hf; [lia|]. rewrite while_S.
    rewrite (bisect_cond_spec 20) by now apply (bisect_run_inv calcul).
    now rewrite decide_False by lia.
  - destruct (bisect_body calcul s) as [s1|e] eqn:Hbody.
    + destruct (IH (S j) s1) as (r & Hr & Hgood); [lia | |].
      { simpl. now rewrite Hrun, bind_Ok. }
      exists r. split; [|done].
      intros [|fuel] Hf; [lia|]. rewrite while_S.
      rewrite (bisect_cond_spec j) by now apply (bisect_run_inv calcul).
      rewrite decide_True by lia. rewrite Hbody. apply Hr. lia.
    + exists (Raise e). split.
      * intros [|fuel] Hf; [lia|]. rewrite while_S.
        rewrite (bisect_cond_spec j) by now apply (bisect_run_inv calcul).
        rewrite decide_True by lia. now rewrite Hbody.
      * exists j, s. repeat split; try done. lia.
Qed.

Lemma bisect_run_S (calcul : R -> result (list R * list R * Z)) (j : nat) :
  bisect_run calcul (S j) = (s ← bisect_run calcul j; bisect_body calcul s).
Proof. reflexivity. Qed.

(** Once a pass has raised, so has every longer run. *)
Lemma bisect_run_raise (calcul : R -> result (list R * list R * Z))
    (j d : nat) (e : PyError) :
  bisect_run calcul j = Raise e -> bisect_run calcul (j + d) = Raise e.
Proof.
  intros H. induction d as [|d IH].
  - now rewrite Nat.add_0_r.
  - rewrite Nat.add_succ_r. simpl. now rewrite IH.
Qed.

(** The loop of the function is the loop body run 20 times: from the
    state after [j <= 20] passes, with enough fuel, [while] ends in the
    state after 20 passes, or in the exception of the pass that raised. *)
Lemma bisect_while_exact (calcul : R -> result (list R * list R * Z))
    (d j : nat) (s : bisect_state) :
  (j + d = 20)%nat -> bisect_run calcul j = Ok s ->
  forall fuel, (d < fuel)%nat ->
    while fuel bisect_cond (bisect_body calcul) s
    = Some (bisect_run calcul 20).
Proof.
  revert j s. induction d as [|d IH]; intros j s Hj Hrun fuel Hf.
  - assert (j = 20)%nat as -> by lia.
    destruct fuel as [|fuel]; [lia|]. rewrite while_S.
    rewrite (bisect_cond_spec 20) by now apply (bisect_run_inv calcul).
    rewrite decide_False by lia. now rewrite Hrun.
  - destruct fuel as [|fuel]; [lia|]. rewrite while_S.
    rewrite (bisect_cond_spec j) by now apply (bisect_run_inv calcul).
    rewrite decide_True by lia.
    assert (bisect_run calcul (S j) = bisect_body calcul s) as Hnext
      by (simpl; now rewrite Hrun, bind_Ok).
    destruct (bisect_body calcul s) as [s1|e] eqn:Hbody.
    + apply (IH (S j)); [lia | done | lia].
    + replace 20%nat with (S j + d)%nat by lia.
      now rewrite (bisect_run_raise calcul (S j) d e Hnext).
Qed.

(** ** Assembling the diagonals *)

Lemma tabulates_replicate (N : nat) (v : R) :
  tabulates (replicate N v) N (fun _ => v).
Proof.
  split; [apply length_replicate|]. intros j Hj.
  now apply lookup_total_replicate_2.
Qed.

Lemma tabulates_ext (l : list R) (N : nat) (f g0 : nat -> R) :
  tabulates l N f -> (forall j, (j < N)%nat -> f j = g0 j) -> tabulates l N g0.
Proof.
  intros [Hl Hf] Hfg. split; [done|]. intros j Hj. rewrite Hf by done. auto.
Qed.

Lemma tabulates_insert (l : list R) (N i : nat) (f : nat -> R) (v : R) :
  tabulates l N f -> (i < N)%nat ->
  tabulates (<[i := v]> l) N (fun j => if decide (j = i) then v else f j).
Proof.
  intros [Hl Hf] Hi. split; [now rewrite length_insert|].
  intros j Hj. case_decide as Hji.
  - subst j. apply list_lookup_total_insert_eq. lia.
  - rewrite list_lookup_total_insert_ne by done. auto.
Qed.

Lemma tabulates_eq (l : list R) (N : nat) (f : nat -> R) :
  tabulates l N f -> l = map f (seq 0 N).
Proof.
  intros [<- Hf]. symmetry. apply map_seq_lookup_total.
  intros i Hi. symmetry. auto.
Qed.

Lemma tabulates_map (N : nat) (f : nat -> R) : tabulates (map f (seq 0 N)) N f.
Proof.
  split; [now rewrite length_map, length_seq|].
  intros j Hj. apply list_lookup_total_correct.
  change (map f (seq 0 N)) with (f <$> seq 0 N).
  rewrite list_lookup_fmap, lookup_seq_lt by done. reflexivity.
Qed.

Lemma grid_x_pos (h : R) (i : Z) : 0 < h -> (0 <= i)%Z -> 1 <= grid_x h i.
Proof.
  intros Hh Hi. unfold grid_x. apply IZR_le in Hi.
  assert (0 <= IZR i * h) by (apply Rmult_le_pos; lra). lra.
Qed.

Lemma grid_x_0 (h : R) : grid_x h 0 = 1.
Proof. unfold grid_x. lra. Qed.

Lemma step_size_pos (n : Z) : (0 < n)%Z -> 0 < 10 / IZR n.
Proof.
  intros Hn. apply IZR_lt in Hn. apply Rdiv_lt_0_compat; lra.
Qed.

(** The three writes every assembler makes at an interior row. *)
Lemma grid_inv_step (h : R) (N : nat) (i : nat) (x b c : list R) :
  (1 <= i)%nat -> (S i < N)%nat ->
  grid_inv h N (Z.of_nat i) x b c ->
  grid_inv h N (Z.of_nat i + 1)
    (<[i := grid_x h (Z.of_nat i)]> x)
    (<[(i - 1)%nat := 1 - h / (2 * grid_x h (Z.of_nat i))]> b)
    (<[i := 1 + h / (2 * grid_x h (Z.of_nat i))]> c).
Proof.
  intros H1 HN (Hx & Hb & Hc). unfold grid_inv.
  replace (Z.to_nat (Z.of_nat i + 1)) with (S i) by lia.
  rewrite Nat2Z.id in Hx, Hb, Hc.
  repeat split.
  - rewrite length_insert. apply Hx.
  - intros j Hj. destruct (tabulates_insert x N i _ (grid_x h (Z.of_nat i)) Hx)
      as [_ Hins]; [lia|]. rewrite Hins by done.
    repeat case_decide; subst; try lia; done.
  - rewrite length_insert. apply Hb.
  - intros j Hj.
    destruct (tabulates_insert b (N - 1) (i - 1) _
                (1 - h / (2 * grid_x h (Z.of_nat i))) Hb) as [_ Hins];
      [lia|]. rewrite Hins by done.
    repeat case_decide; subst; try lia; try done.
    unfold coef_b. now replace (S (i - 1)) with i by lia.
  - rewrite length_insert. apply Hc.
  - intros j Hj.
    destruct (tabulates_insert c (N - 1) i _
                (1 + h / (2 * grid_x h (Z.of_nat i))) Hc) as [_ Hins];
      [lia|]. rewrite Hins by done.
    repeat case_decide; subst; try lia; try done.
    unfold coef_c. now rewrite decide_False by lia.
Qed.

Lemma grid_inv_init (h : R) (N : nat) :
  (2 <= N)%nat ->
  grid_inv h N 1 (replicate N 1) (replicate (N - 1) 0)
    (<[0%nat := 2]> (replicate (N - 1) 0)).
Proof.
  intros HN. repeat split.
  - apply length_replicate.
  - intros j Hj. rewrite lookup_total_replicate_2 by done.
    case_decide as Hj0; [|done].
    assert (j = 0)%nat as -> by lia. symmetry. apply grid_x_0.
  - apply length_replicate.
  - intros j Hj. rewrite lookup_total_replicate_2 by done.
    case_decide; [lia | done].
  - rewrite length_insert. apply length_replicate.
  - intros j Hj.
    destruct (tabulates_insert (replicate (N - 1) 0) (N - 1) 0 _ 2
                (tabulates_replicate (N - 1) 0)) as [_ Hins]; [lia|]. rewrite Hins by done.
    repeat case_decide; subst; try lia; done.
Qed.

(** The last row: [b[n-2]] and [x[n-1]]. *)
Lemma grid_inv_final (h : R) (N : nat) (x b c : list R) :
  (2 <= N)%nat ->
  grid_inv h N (Z.of_nat N - 1) x b c ->
  tabulates (<[(N - 1)%nat := grid_x h (Z.of_nat N - 1)]> x) N
    (fun j => grid_x h (Z.of_nat j)) /\
  tabulates (<[(N - 2)%nat := 1 - h / (2 * grid_x h (Z.of_nat N - 1))]> b)
    (N - 1) (coef_b h) /\
  tabulates c (N - 1) (coef_c h).
Proof.
  intros HN (Hx & Hb & Hc).
  replace (Z.to_nat (Z.of_nat N - 1)) with (N - 1)%nat in * by lia.
  replace (Z.of_nat N - 1)%Z with (Z.of_nat (N - 1)) in * by lia.
  split; [|split].
  - eapply tabulates_ext; [apply tabulates_insert; [exact Hx | lia]|].
    intros j Hj. simpl. repeat case_decide; subst; try lia; done.
  - eapply tabulates_ext; [apply tabulates_insert; [exact Hb | lia]|].
    intros j Hj. simpl. repeat case_decide; subst; try lia; try done.
    unfold coef_b. now replace (S (N - 2)) with (N - 1)%nat by lia.
  - eapply tabulates_ext; [exact Hc|].
    intros j Hj. simpl. case_decide; [done | lia].
Qed.

Lemma setitem_head {A} (l : list A) (x : A) :
  l <> [] -> setitem l 0 x = Ok (<[0%nat := x]> l).
Proof.
  intros H. apply (setitem_lt l 0). destruct l; simpl; [done | lia].
Qed.

Lemma setitem_pred {A} (l : list A) (k : nat) (x : A) :
  (1 <= k)%nat -> (k - 1 < length l)%nat ->
  setitem l (Z.of_nat k - 1) x = Ok (<[(k - 1)%nat := x]> l).
Proof.
  intros H1 H. replace (Z.of_nat k - 1)%Z with (Z.of_nat (k - 1)) by lia.
  now apply setitem_lt.
Qed.

Lemma debye_huckel_row_Ok (h : R) (N i : nat) (x b c : list R) :
  0 < h -> (1 <= i)%nat -> (S i < N)%nat ->
  grid_inv h N (Z.of_nat i) x b c ->
  exists s', debye_huckel_row h (Z.of_nat i) (x, b, c) = Ok s' /\
    let '(x', b', c') := s' in grid_inv h N (Z.of_nat i + 1) x' b' c'.
Proof.
  intros Hh H1 HN Hinv. pose proof Hinv as ([Hlx _] & [Hlb _] & [Hlc _]).
  unfold debye_huckel_row.
  assert (2 * grid_x h (Z.of_nat i) <> 0) as Hnz
    by (pose proof (grid_x_pos h (Z.of_nat i) Hh ltac:(lia)); lra).
  rewrite py_div_Ok, bind_Ok by done.
  rewrite setitem_pred, !bind_Ok by lia.
  rewrite (setitem_lt c), bind_Ok by lia.
  rewrite (setitem_lt x), bind_Ok by lia.
  eexists. split; [reflexivity|]. now apply grid_inv_step.
Qed.

(** What [assemble_debye_huckel] returns on [N >= 2] points. *)
Lemma assemble_debye_huckel_Ok (N : nat) (mu : R) :
  (2 <= N)%nat ->
  assemble_debye_huckel (Z.of_nat N) mu
  = Ok (dh_x N, dh_b N, dh_a N, dh_c N, dh_z N mu).
Proof.
  intros HN. unfold assemble_debye_huckel.
  pose proof (step_size_pos (Z.of_nat N) ltac:(lia)) as Hh.
  assert (IZR (Z.of_nat N) <> 0) as HnR by (apply not_0_IZR; lia).
  rewrite py_div_Ok, bind_Ok by done.
  fold (step_size N) in *. set (h := step_size N) in *.
  unfold py_replicate.
  replace (Z.to_nat (Z.of_nat N - 1)) with (N - 1)%nat by lia.
  rewrite Nat2Z.id.
  rewrite (setitem_head (replicate (N - 1) 0)), bind_Ok
    by (destruct N as [|[|?]]; simpl; [lia | lia | done]).
  rewrite setitem_head, bind_Ok by (destruct N; simpl; [lia | done]).
  destruct (for_range_ok
    (fun i s => let '(x, b, c) := s in grid_inv h N i x b c)
    (debye_huckel_row h) 1 (Z.of_nat N - 1)
    (replicate N 1, replicate (N - 1) 0, <[0%nat := 2]> (replicate (N - 1) 0)))
    as ([[x b] c] & -> & Hinv).
  - lia.
  - now apply grid_inv_init.
  - intros i [[x b] c] Hi Hinv.
    assert (i = Z.of_nat (Z.to_nat i)) as Ei by lia. rewrite Ei in Hinv |- *.
    apply (debye_huckel_row_Ok h N); try done; lia.
  - rewrite bind_Ok.
    pose proof Hinv as ([Hlx _] & [Hlb _] & [Hlc _]).
    apply grid_inv_final in Hinv as (Hx & Hb & Hc); [|done].
    assert (2 * grid_x h (Z.of_nat N - 1) <> 0) as Hnz
      by (pose proof (grid_x_pos h (Z.of_nat N - 1) Hh ltac:(lia)); lra).
    rewrite py_div_Ok, bind_Ok by done.
    replace (Z.of_nat N - 2)%Z with (Z.of_nat (N - 2)) by lia.
    rewrite (setitem_lt b), bind_Ok by lia.
    rewrite setitem_pred, bind_Ok by lia.
    unfold dh_x, dh_b, dh_a, dh_c, dh_z. fold h.
    now rewrite (tabulates_eq _ _ _ Hx), (tabulates_eq _ _ _ Hb),
      (tabulates_eq _ _ _ Hc).
Qed.

(** ** The linear system is strictly diagonally dominant *)

Lemma coef_b_bounds (h : R) (k : nat) : 0 < h -> 1 / 2 < coef_b h k < 1.
Proof.
  intros Hh. unfold coef_b.
  pose proof (grid_x_pos h (Z.of_nat (S k)) Hh ltac:(lia)) as Hx.
  assert (h <= IZR (Z.of_nat (S k)) * h) as Hkh.
  { assert (1 <= IZR (Z.of_nat (S k))) by (apply IZR_le; lia). nra. }
  unfold grid_x in *.
  set (d := 2 * (1 + IZR (Z.of_nat (S k)) * h)) in *.
  assert (0 < d) by (unfold d; lra).
  assert (0 < h / d) by (apply Rdiv_lt_0_compat; lra).
  assert (h / d < 1 / 2).
  { apply Rmult_lt_reg_r with d; [done|].
    unfold Rdiv at 1. rewrite Rmult_assoc, Rinv_l by lra. unfold d. lra. }
  lra.
Qed.

Lemma coef_c_bounds (h : R) (k : nat) : 0 < h -> 1 < coef_c h k <= 2.
Proof.
  intros Hh. unfold coef_c. case_decide as Hk; [lra|].
  pose proof (grid_x_pos h (Z.of_nat k) Hh ltac:(lia)) as Hx.
  assert (h <= IZR (Z.of_nat k) * h) as Hkh.
  { assert (1 <= IZR (Z.of_nat k)) by (apply IZR_le; lia). nra. }
  unfold grid_x in *.
  set (d := 2 * (1 + IZR (Z.of_nat k) * h)) in *.
  assert (0 < d) by (unfold d; lra).
  assert (0 < h / d) by (apply Rdiv_lt_0_compat; lra).
  assert (h / d < 1 / 2).
  { apply Rmult_lt_reg_r with d; [done|].
    unfold Rdiv at 1. rewrite Rmult_assoc, Rinv_l by lra. unfold d. lra. }
  lra.
Qed.

(** At an interior row the two off-diagonal coefficients add up to 2. *)
Lemma coef_row_sum (h : R) (k : nat) : coef_b h k + coef_c h (S k) = 2.
Proof. unfold coef_b, coef_c. rewrite decide_False by lia. lra. Qed.

Lemma pivot_step (a b c p : R) :
  0 < b -> 0 < c -> p < - c -> p <> 0 /\ a - b / p * c < a + b.
Proof.
  intros Hb Hc Hp. split; [lra|].
  assert (b / p * c * p = b * c) as Ht by (field; lra).
  set (t := b / p * c) in *. nra.
Qed.

Lemma dh_a_lookup (N k : nat) :
  (k < N)%nat -> dh_a N !!! k = - (2 + step_size N ^ 2).
Proof. intros Hk. now apply lookup_total_replicate_2. Qed.

Lemma dh_b_lookup (N k : nat) :
  (k < N - 1)%nat -> dh_b N !!! k = coef_b (step_size N) k.
Proof. intros Hk. now apply (tabulates_map (N - 1)). Qed.

Lemma dh_c_lookup (N k : nat) :
  (k < N - 1)%nat -> dh_c N !!! k = coef_c (step_size N) k.
Proof. intros Hk. now apply (tabulates_map (N - 1)). Qed.

Lemma dh_lengths (N : nat) (mu : R) :
  length (dh_x N) = N /\ length (dh_a N) = N /\
  length (dh_b N) = (N - 1)%nat /\ length (dh_c N) = (N - 1)%nat /\
  length (dh_z N mu) = N.
Proof.
  unfold dh_x, dh_a, dh_b, dh_c, dh_z.
  now rewrite length_insert, !length_map, !length_seq, !length_replicate.
Qed.

(** On [N >= 2] points the linear operator factors without a zero pivot,
    and the solver returns a solution of the tridiagonal system for
    every right-hand side of length [N]. *)
Lemma dh_solve (N : nat) (z : list R) :
  (2 <= N)%nat -> length z = N ->
  exists l v y u,
    lutri (dh_a N) (dh_b N) (dh_c N) = Ok (l, v) /\
    descente l z = Ok y /\ remontee v (dh_c N) y = Ok u /\
    length u = N /\
    forall i, (i < N)%nat -> tri_row (dh_b N) (dh_a N) (dh_c N) u i = z !!! i.
Proof.
  intros HN Hz.
  pose proof (step_size_pos (Z.of_nat N) ltac:(lia)) as Hh.
  fold (step_size N) in Hh. set (h := step_size N) in *.
  destruct (dh_lengths N 0) as (_ & Hla & Hlb & Hlc & _).
  destruct (lutri_pivots
    (fun k p => p < - (if decide (k < N - 1)%nat then coef_c h k else 0))
    (dh_a N) (dh_b N) (dh_c N)) as (l & v & Hlu & Hrel & Hpiv).
  - destruct N; simpl; [lia | done].
  - lia.
  - lia.
  - rewrite dh_a_lookup by lia. fold h.
    rewrite decide_True by lia.
    pose proof (coef_c_bounds h 0 Hh). nra.
  - intros k p Hk HP. rewrite Hla in Hk.
    rewrite decide_True in HP by lia.
    rewrite dh_a_lookup, dh_b_lookup, dh_c_lookup by lia. fold h.
    pose proof (coef_b_bounds h k Hh) as Hbk.
    pose proof (coef_c_bounds h k Hh) as Hck.
    destruct (pivot_step (- (2 + h ^ 2)) (coef_b h k) (coef_c h k) p)
      as [Hnz Hlt]; [lra | lra | lra |].
    split; [done|].
    case_decide.
    + pose proof (coef_row_sum h k). nra.
    + nra.
  - intros p HP. case_decide.
    + pose proof (coef_c_bounds h (length (dh_a N) - 1) Hh). lra.
    + lra.
  - pose proof Hrel as (Hlv & Hll & _).
    destruct (descente_Ok l z) as (y & Hy & Hfw).
    { destruct z; simpl in *; [lia | done]. }
    { lia. }
    pose proof Hfw as (Hly & _).
    destruct (remontee_Ok v (dh_c N) y) as (u & Hu & Hbw).
    { destruct y; simpl in *; [lia | done]. }
    { lia. } { lia. }
    { intros k Hk. apply Hpiv. lia. }
    pose proof Hbw as (Hlx & _).
    exists l, v, y, u. repeat split; try done; [lia|].
    intros i Hi.
    apply (thomas_row (dh_a N) (dh_b N) (dh_c N) z l v y u); try done; try lia.
    intros k Hk. now apply Hpiv.
Qed.

Lemma solve_debye_huckel_Ok (N : nat) (mu : R) :
  (2 <= N)%nat ->
  exists u,
    solve_debye_huckel (Z.of_nat N) mu
    = Ok (dh_x N, u, (dh_b N, dh_a N, dh_c N)) /\
    length u = N /\
    forall i, (i < N)%nat ->
      tri_row (dh_b N) (dh_a N) (dh_c N) u i = dh_z N mu !!! i.
Proof.
  intros HN. unfold solve_debye_huckel.
  rewrite assemble_debye_huckel_Ok, bind_Ok by done.
  destruct (dh_lengths N mu) as (_ & _ & _ & _ & Hlz).
  destruct (dh_solve N (dh_z N mu) HN Hlz) as (l & v & y & u & -> & Hy & Hu & Hlu & Hrows).
  rewrite bind_Ok. simpl. rewrite Hy, bind_Ok, Hu, bind_Ok.
  exists u. auto.
Qed.

(** What [assemble_poisson_boltzmann] returns on [N >= 2] points. *)
Lemma poisson_boltzmann_row_Ok (u : list R) (h : R) (N i : nat)
    (x b c z : list R) :
  0 < h -> (1 <= i)%nat -> (S i < N)%nat -> (i < length u)%nat ->
  grid_inv h N (Z.of_nat i) x b c -> length z = N ->
  exists x' b' c',
    poisson_boltzmann_row u h (Z.of_nat i) (x, b, c, z)
    = Ok (x', b', c', <[i := h ^ 2 * g (u !!! i)]> z) /\
    grid_inv h N (Z.of_nat i + 1) x' b' c'.
Proof.
  intros Hh H1 HN Hu Hinv Hlz.
  pose proof Hinv as ([Hlx _] & [Hlb _] & [Hlc _]).
  unfold poisson_boltzmann_row.
  assert (2 * grid_x h (Z.of_nat i) <> 0) as Hnz
    by (pose proof (grid_x_pos h (Z.of_nat i) Hh ltac:(lia)); lra).
  rewrite py_div_Ok, bind_Ok by done.
  rewrite setitem_pred, !bind_Ok by lia.
  rewrite (setitem_lt c), bind_Ok by lia.
  rewrite (getitem_lt u), bind_Ok by lia.
  rewrite (setitem_lt z), bind_Ok by lia.
  rewrite (setitem_lt x), bind_Ok by lia.
  do 3 eexists. split; [reflexivity|]. now apply grid_inv_step.
Qed.

Lemma assemble_poisson_boltzmann_Ok (N : nat) (mu : R) (u : list R) :
  (2 <= N)%nat -> (N <= length u)%nat ->
  assemble_poisson_boltzmann u (Z.of_nat N) mu
  = Ok (dh_x N, dh_b N, dh_a N, dh_c N, pb_z N mu u).
Proof.
  intros HN Hu. unfold assemble_poisson_boltzmann.
  pose proof (step_size_pos (Z.of_nat N) ltac:(lia)) as Hh.
  assert (IZR (Z.of_nat N) <> 0) as HnR by (apply not_0_IZR; lia).
  rewrite py_div_Ok, bind_Ok by done.
  fold (step_size N) in *. set (h := step_size N) in *.
  unfold py_replicate.
  replace (Z.to_nat (Z.of_nat N - 1)) with (N - 1)%nat by lia.
  rewrite Nat2Z.id.
  rewrite getitem_head, bind_Ok by (destruct u; simpl in *; [lia | done]).
  rewrite (setitem_head (replicate (N - 1) 0)), bind_Ok
    by (destruct N as [|[|?]]; simpl; [lia | lia | done]).
  rewrite setitem_head, bind_Ok by (destruct N; simpl; [lia | done]).
  set (zf := fun j : nat =>
         h ^ 2 * g (u !!! j)
         + (if decide (j = 0)%nat then mu * h * (h - 2) else 0)).
  destruct (for_range_ok
    (fun i s => let '(x, b, c, z) := s in
       grid_inv h N i x b c /\
       tabulates z N (fun j => if decide (j < Z.to_nat i)%nat then zf j else 0))
    (poisson_boltzmann_row u h) 1 (Z.of_nat N - 1)
    (replicate N 1, replicate (N - 1) 0, <[0%nat := 2]> (replicate (N - 1) 0),
     <[0%nat := h ^ 2 * g (u !!! 0%nat) + mu * h * (h - 2)]> (replicate N 0)))
    as ([[[x b] c] z] & -> & Hinv & Hz).
  - lia.
  - split; [now apply grid_inv_init|].
    eapply tabulates_ext;
      [apply tabulates_insert; [apply tabulates_replicate | lia]|].
    intros j Hj. simpl. unfold zf.
    repeat case_decide; subst; try lia; done.
  - intros i [[[x b] c] z] Hi [Hinv Hz].
    assert (i = Z.of_nat (Z.to_nat i)) as Ei by lia. rewrite Ei in Hinv |- *.
    destruct (poisson_boltzmann_row_Ok u h N (Z.to_nat i) x b c z)
      as (x' & b' & c' & -> & Hinv'); try done; try lia; [apply Hz|].
    eexists. split; [reflexivity|]. split; [done|].
    eapply tabulates_ext; [apply tabulates_insert; [exact Hz | lia]|].
    intros j Hj. simpl. unfold zf.
    repeat case_decide; subst; try lia; try done. lra.
  - rewrite bind_Ok.
    pose proof Hinv as ([Hlx _] & [Hlb _] & [Hlc _]). pose proof Hz as [Hlz _].
    apply grid_inv_final in Hinv as (Hx & Hb & Hc); [|done].
    assert (2 * grid_x h (Z.of_nat N - 1) <> 0) as Hnz
      by (pose proof (grid_x_pos h (Z.of_nat N - 1) Hh ltac:(lia)); lra).
    rewrite py_div_Ok, bind_Ok by done.
    replace (Z.of_nat N - 2)%Z with (Z.of_nat (N - 2)) by lia.
    rewrite (setitem_lt b), bind_Ok by lia.
    replace (Z.of_nat N - 1)%Z with (Z.of_nat (N - 1)) by lia.
    rewrite (getitem_lt u), bind_Ok by lia.
    rewrite (setitem_lt z), bind_Ok by lia.
    rewrite (setitem_lt x), bind_Ok by lia.
    replace (Z.of_nat (N - 1)) with (Z.of_nat N - 1)%Z by lia.
    assert (tabulates (<[(N - 1)%nat := h ^ 2 * g (u !!! (N - 1)%nat)]> z) N zf)
      as Hz'.
    { eapply tabulates_ext; [apply tabulates_insert; [exact Hz | lia]|].
      intros j Hj. simpl. unfold zf.
      repeat case_decide; subst; try lia; try done. lra. }
    unfold dh_x, dh_b, dh_a, dh_c, pb_z. fold h.
    now rewrite (tabulates_eq _ _ _ Hx), (tabulates_eq _ _ _ Hb),
      (tabulates_eq _ _ _ Hc), (tabulates_eq _ _ _ Hz').
Qed.

Lemma pb_z_length (N : nat) (mu : R) (u : list R) : length (pb_z N mu u) = N.
Proof. unfold pb_z. now rewrite length_map, length_seq. Qed.

Lemma solve_poisson_boltzmann_Ok (N : nat) (mu : R) (u : list R) :
  (2 <= N)%nat -> (N <= length u)%nat ->
  exists u',
    solve_poisson_boltzmann u (Z.of_nat N) mu = Ok (dh_x N, u', pb_z N mu u) /\
    length u' = N /\
    forall i, (i < N)%nat ->
      tri_row (dh_b N) (dh_a N) (dh_c N) u' i = pb_z N mu u !!! i.
Proof.
  intros HN Hu. unfold solve_poisson_boltzmann.
  rewrite assemble_poisson_boltzmann_Ok, bind_Ok by done.
  destruct (dh_solve N (pb_z N mu u) HN (pb_z_length N mu u))
    as (l & v & y & u' & -> & Hy & Hu' & Hlu & Hrows).
  rewrite bind_Ok. simpl. rewrite Hy, bind_Ok, Hu', bind_Ok.
  exists u'. auto.
Qed.

Lemma tabulates_lookup (l : list R) (N : nat) (f : nat -> R) (i : nat) :
  tabulates l N f -> (i < N)%nat -> l !! i = Some (f i).
Proof.
  intros [Hl Hf] Hi. rewrite <- Hf by done.
  apply list_lookup_lookup_total_lt. lia.
Qed.

Lemma dh_z_lookup (N : nat) (mu : R) (i : nat) :
  (i < N)%nat ->
  dh_z N mu !! i =
  Some (if decide (i = 0)%nat then mu * step_size N * (step_size N - 2) else 0).
Proof.
  intros Hi.
  assert (0 < N)%nat as H0 by lia.
  exact (tabulates_lookup _ N _ i
           (tabulates_insert _ N 0 _ _ (tabulates_replicate N 0) H0) Hi).
Qed.

Lemma dh_x_lookup (N i : nat) :
  (i < N)%nat -> dh_x N !! i = Some (grid_x (step_size N) (Z.of_nat i)).
Proof.
  intros Hi.
  exact (tabulates_lookup _ N _ i (tabulates_map N _) Hi).
Qed.

Lemma dh_b_lookup_Some (N i : nat) :
  (i < N - 1)%nat -> dh_b N !! i = Some (coef_b (step_size N) i).
Proof.
  intros Hi.
  exact (tabulates_lookup _ (N - 1) _ i (tabulates_map (N - 1) _) Hi).
Qed.

Lemma dh_c_lookup_Some (N i : nat) :
  (i < N - 1)%nat -> dh_c N !! i = Some (coef_c (step_size N) i).
Proof.
  intros Hi.
  exact (tabulates_lookup _ (N - 1) _ i (tabulates_map (N - 1) _) Hi).
Qed.

(** ** Loops that raise *)






Lemma getitem_nil {A} (i : Z) : getitem (@nil A) i = Raise IndexError.
Proof.
  unfold getitem, py_index. simpl.
  repeat case_decide; try lia; reflexivity.
Qed.



(** ** The nonlinearity [g(t) = sinh t - t] *)

Lemma exp_Ropp_mult (x : R) : exp x * exp (- x) = 1.
Proof. rewrite <- exp_plus, Rplus_opp_r. apply exp_0. Qed.

Lemma cosh_ge_1 (x : R) : 1 <= cosh x.
Proof.
  unfold cosh. pose proof (exp_pos x) as Hp. pose proof (exp_pos (- x)) as Hn.
  pose proof (exp_Ropp_mult x) as Hm.
  generalize dependent (exp (- x)). generalize dependent (exp x).
  intros p Hp q Hq Hm.
  pose proof (Rle_0_sqr (p - q)) as Hsq. unfold Rsqr in Hsq.
  assert ((p + q - 2) * (p + q + 2) = (p - q) * (p - q)) as Hfac by nra.
  destruct (Rle_dec 2 (p + q)) as [Hge|Hlt]; [lra|].
  exfalso. assert ((p + q - 2) * (p + q + 2) < 0) by nra. lra.
Qed.

Lemma sinh_ge (t : R) : 0 <= t -> t <= sinh t.
Proof.
  intros [Ht|<-]; [|rewrite sinh_0; lra].
  destruct (MVT_cor2 sinh cosh 0 t Ht) as (c & Hc & _).
  { intros x _. apply derivable_pt_lim_sinh. }
  rewrite sinh_0 in Hc. pose proof (cosh_ge_1 c). nra.
Qed.

Lemma g_nonneg (t : R) : 0 <= t -> 0 <= g t.
Proof. intros Ht. unfold g. pose proof (sinh_ge t Ht). lra. Qed.

Lemma g_odd (t : R) : g (- t) = - g t.
Proof. unfold g, sinh. rewrite Ropp_involutive. lra. Qed.

Lemma g_nonpos (t : R) : t <= 0 -> g t <= 0.
Proof.
  intros Ht. pose proof (g_nonneg (- t) ltac:(lra)) as H.
  rewrite g_odd in H. lra.
Qed.

(** A quadratic lower bound, from [exp t = exp (t/2) ^ 2 >= (1 + t/2) ^ 2]. *)
Lemma g_lower (t : R) : 0 <= t -> t ^ 2 / 8 - t / 2 <= g t.
Proof.
  intros Ht. unfold g, sinh.
  pose proof (exp_ineq1_le (t / 2)) as Hhalf.
  assert (exp t = exp (t / 2) * exp (t / 2)) as Hsq
    by (rewrite <- exp_plus; f_equal; lra).
  pose proof (exp_ineq1_le t) as H1.
  pose proof (exp_Ropp_mult t) as Hm. pose proof (exp_pos (- t)) as Hn.
  assert (exp (- t) <= 1) by nra.
  assert ((1 + t / 2) * (1 + t / 2) <= exp t) by (rewrite Hsq; nra).
  nra.
Qed.

(** Near zero [g] is at most quadratic. *)
Lemma g_upper_small (t : R) : 0 <= t <= 1 / 2 -> g t <= t ^ 2.
Proof.
  intros Ht. unfold g, sinh.
  pose proof (exp_ineq1_le (- t)) as Hlow.
  pose proof (exp_Ropp_mult t) as Hm.
  pose proof (exp_pos t) as Hp. pose proof (exp_pos (- t)) as Hn.
  generalize dependent (exp (- t)). generalize dependent (exp t).
  intros p q Hlow Hm Hp Hn.
  assert (p * (1 - t) <= 1) by nra.
  assert (p <= 1 + t + 2 * t * t) by nra.
  nra.
Qed.

Lemma g_abs_small (t : R) : Rabs t <= 1 / 2 -> Rabs (g t) <= t ^ 2.
Proof.
  intros Ht. destruct (Rle_dec 0 t) as [H0|H0].
  - rewrite Rabs_pos_eq in Ht by done.
    rewrite Rabs_pos_eq by now apply g_nonneg.
    apply g_upper_small. lra.
  - rewrite Rabs_left in Ht by lra.
    rewrite Rabs_left1 by (apply g_nonpos; lra).
    rewrite <- g_odd.
    replace (t ^ 2) with ((- t) ^ 2) by ring.
    apply g_upper_small. lra.
Qed.

(** ** Discrete maximum principle for the linear operator *)

Lemma Rabs_le_between (a b : R) : Rabs a <= b -> - b <= a <= b.
Proof. unfold Rabs. destruct (Rcase_abs a); lra. Qed.

Lemma tri_row_fun (N : nat) (u : list R) (i : nat) :
  length u = N -> (i < N)%nat ->
  tri_row (dh_b N) (dh_a N) (dh_c N) u i
  = tri_fun (step_size N) N (fun j => u !!! j) i.
Proof.
  intros Hu Hi. unfold tri_row, tri_fun. rewrite Hu.
  rewrite dh_a_lookup by done.
  assert (match i with O => 0 | S j => dh_b N !!! j * u !!! j end
          = match i with O => 0 | S j => coef_b (step_size N) j * u !!! j end)
    as ->.
  { destruct i as [|j]; [done|]. now rewrite dh_b_lookup by lia. }
  case_decide; [rewrite dh_c_lookup by lia|]; lra.
Qed.

Lemma fun_min_exists (N : nat) (U : nat -> R) :
  (0 < N)%nat -> exists m, (m < N)%nat /\ forall i, (i < N)%nat -> U m <= U i.
Proof.
  induction N as [|N IH]; [lia|]. intros _.
  destruct N as [|N].
  - exists 0%nat. split; [lia|]. intros i Hi. assert (i = 0)%nat as -> by lia. lra.
  - destruct IH as (m & Hm & Hmin); [lia|].
    destruct (Rle_dec (U m) (U (S N))) as [Hle|Hgt].
    + exists m. split; [lia|]. intros i Hi.
      destruct (decide (i = S N)) as [->|Hne]; [done | apply Hmin; lia].
    + exists (S N). split; [lia|]. intros i Hi.
      destruct (decide (i = S N)) as [->|Hne]; [lra|].
      specialize (Hmin i ltac:(lia)). lra.
Qed.

Lemma tri_fun_linear (h : R) (N : nat) (U V : nat -> R) (p q : R) (i : nat) :
  tri_fun h N (fun j => p * U j + q * V j) i
  = p * tri_fun h N U i + q * tri_fun h N V i.
Proof. unfold tri_fun. destruct i; case_decide; ring. Qed.

Lemma tri_fun_const (h : R) (N i : nat) :
  0 < h -> (2 <= N)%nat -> (i < N)%nat ->
  tri_fun h N (fun _ => 1) i <= - h ^ 2.
Proof.
  intros Hh HN Hi. unfold tri_fun.
  destruct i as [|j].
  - rewrite decide_True by lia. unfold coef_c. rewrite decide_True by done. lra.
  - pose proof (coef_b_bounds h j Hh). case_decide.
    + pose proof (coef_row_sum h j). lra.
    + nra.
Qed.

(** If every row of [A U] is nonpositive then [U] is nonnegative. *)
Lemma tri_min_principle (h : R) (N : nat) (U : nat -> R) :
  0 < h -> (2 <= N)%nat ->
  (forall i, (i < N)%nat -> tri_fun h N U i <= 0) ->
  forall i, (i < N)%nat -> 0 <= U i.
Proof.
  intros Hh HN Hrow.
  destruct (fun_min_exists N U) as (m & Hm & Hmin); [lia|].
  assert (0 <= U m) as Hpos; [|intros i Hi; specialize (Hmin i Hi); lra].
  destruct (Rle_dec 0 (U m)) as [|Hneg]; [done|]. exfalso.
  apply Rnot_le_lt in Hneg.
  specialize (Hrow m Hm). unfold tri_fun in Hrow.
  assert (0 < h ^ 2) as Hh2 by nra.
  destruct m as [|j].
  - rewrite decide_True in Hrow by lia.
    unfold coef_c in Hrow. rewrite decide_True in Hrow by done.
    specialize (Hmin 1%nat ltac:(lia)). nra.
  - pose proof (coef_b_bounds h j Hh) as Hb.
    pose proof (Hmin j ltac:(lia)) as Hj.
    case_decide.
    + pose proof (coef_c_bounds h (S j) Hh) as Hc.
      pose proof (coef_row_sum h j) as Hsum.
      pose proof (Hmin (S (S j)) ltac:(lia)) as Hs.
      assert (coef_b h j * U (S j) <= coef_b h j * U j) by nra.
      assert (coef_c h (S j) * U (S j) <= coef_c h (S j) * U (S (S j))) by nra.
      nra.
    + assert (coef_b h j * U (S j) <= coef_b h j * U j) by nra.
      nra.
Qed.

(** The operator is bounded below by [h^2] in the maximum norm. *)
Lemma tri_magnitude (h : R) (N : nat) (D : nat -> R) (W : R) :
  0 < h -> (2 <= N)%nat ->
  (forall i, (i < N)%nat -> Rabs (tri_fun h N D i) <= W) ->
  forall i, (i < N)%nat -> Rabs (D i) <= W / h ^ 2.
Proof.
  intros Hh HN Hrow.
  assert (0 < h ^ 2) as Hh2 by nra.
  assert (W / h ^ 2 * h ^ 2 = W) as Hk by (field; lra).
  set (K := W / h ^ 2) in *.
  assert (forall i, (i < N)%nat -> 0 <= K * 1 + (-1) * D i) as Hup.
  { apply (tri_min_principle h N); try done. intros i Hi.
    rewrite tri_fun_linear.
    pose proof (tri_fun_const h N i Hh HN Hi) as Hc.
    specialize (Hrow i Hi). apply Rabs_le_between in Hrow.
    assert (0 <= W) by lra. assert (0 <= K) by nra. nra. }
  assert (forall i, (i < N)%nat -> 0 <= K * 1 + 1 * D i) as Hdown.
  { apply (tri_min_principle h N); try done. intros i Hi.
    rewrite tri_fun_linear.
    pose proof (tri_fun_const h N i Hh HN Hi) as Hc.
    specialize (Hrow i Hi). apply Rabs_le_between in Hrow.
    assert (0 <= W) by lra. assert (0 <= K) by nra. nra. }
  intros i Hi. specialize (Hup i Hi). specialize (Hdown i Hi).
  apply Rabs_le. lra.
Qed.

(** Row 0 bounds the first component once the second has a sign. *)
Lemma tri_fun_first (h : R) (N : nat) (U : nat -> R) :
  (2 <= N)%nat -> tri_fun h N U 0 = - (2 + h ^ 2) * U 0%nat + 2 * U 1%nat.
Proof.
  intros HN. unfold tri_fun. rewrite decide_True by lia.
  unfold coef_c. rewrite decide_True by done. lra.
Qed.

(** ** The fixed-point loop *)

Lemma uk0_loop_eq (A : matrix) (n : Z) (mu : R) (s : uk0_state) (k : Z) :
  uk0_loop A n mu s k =
  if decide (k > 200)%Z then Ok (s, k)
  else match uk0_tolerance s with
       | Raise e => Raise e
       | Ok true => Ok (s, k)
       | Ok false =>
           match uk0_step A n mu s with
           | Raise e => Raise e
           | Ok s' => uk0_loop A n mu s' (k + 1)
           end
       end.
Proof.
  rewrite uk0_loop_equation_1.
  destruct (decide (k > 200)%Z) as [Hk|Hk]; simpl; [reflexivity|].
  destruct (uk0_tolerance s) as [[|]|e]; simpl; try reflexivity.
  destruct (uk0_step A n mu s) as [s'|e]; simpl; reflexivity.
Qed.

(** The loop returns, and what its invariant and its exit test give. *)
Lemma uk0_loop_run (P : uk0_state -> Z -> Prop) (A : matrix) (n : Z) (mu : R) :
  (forall s k, P s k -> (k <= 200)%Z ->
     exists t, uk0_tolerance s = Ok t /\
       (t = false -> exists s', uk0_step A n mu s = Ok s' /\ P s' (k + 1)%Z)) ->
  forall s k, P s k ->
  exists s' k', uk0_loop A n mu s k = Ok (s', k') /\ P s' k' /\ (k <= k')%Z /\
    ((k' > 200)%Z \/ uk0_tolerance s' = Ok true).
Proof.
  intros Hstep s k.
  remember (Z.to_nat (201 - k)) as d eqn:Hd. revert s k Hd.
  induction d as [d IH] using lt_wf_ind. intros s k Hd HP.
  rewrite uk0_loop_eq. case_decide as Hk.
  - exists s, k. repeat split; try done. now left.
  - destruct (Hstep s k HP ltac:(lia)) as (t & Ht & Hnext). rewrite Ht.
    destruct t.
    + exists s, k. repeat split; try done. now right.
    + destruct (Hnext eq_refl) as (s1 & -> & HP1).
      destruct (IH (Z.to_nat (201 - (k + 1))) ltac:(lia) s1 (k + 1)%Z eq_refl HP1)
        as (s' & k' & Hrun & HP' & Hle & Hexit).
      exists s', k'. repeat split; try done. lia.
Qed.

Lemma foldl_Rmax_spec (r : list R) (m0 : R) :
  let m := foldl (fun m q => Rmax m (Rabs q)) m0 r in
  m0 <= m /\ (forall i, (i < length r)%nat -> Rabs (r !!! i) <= m) /\
  (m = m0 \/ exists i, (i < length r)%nat /\ m = Rabs (r !!! i)).
Proof.
  revert m0. induction r as [|q r IH]; intros m0; simpl.
  - repeat split; try lra; intros; lia.
  - destruct (IH (Rmax m0 (Rabs q))) as (Hge & Hall & Hex).
    pose proof (Rmax_l m0 (Rabs q)). pose proof (Rmax_r m0 (Rabs q)).
    repeat split.
    + lra.
    + intros [|i] Hi; simpl; [lra | apply Hall; lia].
    + destruct Hex as [->|(i & Hi & ->)].
      * destruct (Rmax_case m0 (Rabs q) (fun t => t = m0 \/ t = Rabs q))
          as [->| ->]; auto.
        right. exists 0%nat. split; [lia | done].
      * right. exists (S i). split; [lia | done].
Qed.

Lemma norm_inf_Ok (v : list R) :
  v <> [] ->
  exists m, norm_inf v = Ok m /\
    (forall i, (i < length v)%nat -> Rabs (v !!! i) <= m) /\
    (exists i, (i < length v)%nat /\ m = Rabs (v !!! i)).
Proof.
  destruct v as [|p r]; [done|]. intros _. simpl.
  eexists. split; [reflexivity|].
  destruct (foldl_Rmax_spec r (Rabs p)) as (Hge & Hall & Hex). split.
  - intros [|i] Hi; simpl; [done | apply Hall; lia].
  - destruct Hex as [->|(i & Hi & ->)].
    + exists 0%nat. split; [lia | done].
    + exists (S i). split; [lia | done].
Qed.

Lemma uk0_tolerance_true (s : uk0_state) :
  uk0_tolerance s = Ok true ->
  exists n1 n2, norm_inf (uk_ecart1 s) = Ok n1 /\ n1 < mu1 /\
    norm_inf (uk_ecart2 s) = Ok n2 /\ n2 < mu2.
Proof.
  unfold uk0_tolerance. intros H.
  apply bind_Ok_inv in H as (n1 & Hn1 & H).
  destruct (Rlt_dec n1 mu1) as [H1|]; [|discriminate].
  apply bind_Ok_inv in H as (n2 & Hn2 & H).
  destruct (Rlt_dec n2 mu2) as [H2|]; [|discriminate].
  exists n1, n2. auto.
Qed.

Lemma uk0_tolerance_total (s : uk0_state) :
  uk_ecart1 s <> [] -> uk_ecart2 s <> [] ->
  exists t, uk0_tolerance s = Ok t.
Proof.
  intros H1 H2. unfold uk0_tolerance.
  destruct (norm_inf_Ok _ H1) as (n1 & -> & _).
  destruct (norm_inf_Ok _ H2) as (n2 & -> & _).
  rewrite bind_Ok. destruct (Rlt_dec n1 mu1); [|eauto].
  rewrite bind_Ok. eauto.
Qed.

(** A component of [ecart2] at or above [mu2] keeps the loop going. *)
Lemma uk0_tolerance_false (s : uk0_state) (i : nat) :
  uk_ecart1 s <> [] ->
  (i < length (uk_ecart2 s))%nat -> mu2 <= Rabs (uk_ecart2 s !!! i) ->
  uk0_tolerance s = Ok false.
Proof.
  intros H1 Hi Hbig. unfold uk0_tolerance.
  destruct (norm_inf_Ok _ H1) as (n1 & -> & _).
  destruct (norm_inf_Ok (uk_ecart2 s)) as (n2 & -> & Hall & _).
  { destruct (uk_ecart2 s); simpl in *; [lia | done]. }
  rewrite bind_Ok. destruct (Rlt_dec n1 mu1); [|done].
  rewrite bind_Ok. specialize (Hall i Hi).
  destruct (Rlt_dec n2 mu2); [lra | done].
Qed.

Lemma np_sub_Ok (u w : list R) :
  length u = length w -> np_sub u w = Ok (zip_with Rminus u w).
Proof. intros H. unfold np_sub. now rewrite decide_True. Qed.

Lemma zip_with_Rminus_lookup (u w : list R) (i : nat) :
  (i < length u)%nat -> (i < length w)%nat ->
  zip_with Rminus u w !!! i = u !!! i - w !!! i.
Proof.
  intros Hu Hw. apply list_lookup_total_correct.
  rewrite lookup_zip_with.
  rewrite (list_lookup_lookup_total_lt u i Hu).
  rewrite (list_lookup_lookup_total_lt w i Hw). reflexivity.
Qed.

Lemma zip_with_Rminus_length (u w : list R) :
  length u = length w -> length (zip_with Rminus u w) = length u.
Proof. intros H. rewrite length_zip_with. lia. Qed.

(** The reference operator applied to a solution gives back the
    right-hand side. *)
Lemma dh_dot (N : nat) (A : matrix) (u w : list R) :
  (2 <= N)%nat -> tridiag (dh_b N, dh_a N, dh_c N) = Ok A ->
  length u = N -> length w = N ->
  (forall i, (i < N)%nat ->
     tri_row (dh_b N) (dh_a N) (dh_c N) u i = w !!! i) ->
  np_dot A u = Ok w.
Proof.
  intros HN HA Hu Hw Hrows.
  destruct (dh_lengths N 0) as (_ & Hla & Hlb & Hlc & _).
  destruct (tridiag_dot (dh_b N) (dh_a N) (dh_c N) u) as (M & HM & Hdot);
    try lia.
  rewrite HA in HM. injection HM as <-. rewrite Hdot. f_equal.
  rewrite Hla.
  pose proof (map_seq_lookup_total
                (tri_row (dh_b N) (dh_a N) (dh_c N) u) w) as Heq.
  rewrite Hw in Heq. apply Heq. exact Hrows.
Qed.

Lemma dh_tridiag_Ok (N : nat) :
  (2 <= N)%nat -> exists A, tridiag (dh_b N, dh_a N, dh_c N) = Ok A.
Proof.
  intros HN. destruct (dh_lengths N 0) as (_ & Hla & Hlb & Hlc & _).
  eexists. apply tridiag_Ok; lia.
Qed.

(** One pass of the loop on [N] points. *)
Lemma uk0_step_Ok (N : nat) (mu : R) (A : matrix) (s : uk0_state) :
  (2 <= N)%nat -> tridiag (dh_b N, dh_a N, dh_c N) = Ok A ->
  length (uk_u s) = N ->
  exists u',
    let z := pb_z N mu (uk_u s) in
    solve_poisson_boltzmann (uk_u s) (Z.of_nat N) mu = Ok (dh_x N, u', z) /\
    length u' = N /\
    (forall i, (i < N)%nat ->
       tri_row (dh_b N) (dh_a N) (dh_c N) u' i = z !!! i) /\
    np_dot A u' = Ok z /\
    uk0_step A (Z.of_nat N) mu s
    = Ok (Uk0 (Some (dh_x N)) u' (zip_with Rminus z z)
            (zip_with Rminus u' (uk_u s))).
Proof.
  intros HN HA Hu.
  destruct (solve_poisson_boltzmann_Ok N mu (uk_u s) HN ltac:(lia))
    as (u' & Hsolve & Hlu & Hrows).
  pose proof (dh_dot N A u' _ HN HA Hlu (pb_z_length N mu (uk_u s)) Hrows)
    as Hdot.
  exists u'. simpl. split; [done|]. split; [done|]. split; [done|].
  split; [done|].
  unfold uk0_step. rewrite Hsolve, bind_Ok. simpl.
  rewrite Hdot, bind_Ok.
  rewrite (np_sub_Ok (pb_z N mu (uk_u s))), bind_Ok by done.
  rewrite np_sub_Ok, bind_Ok by lia. reflexivity.
Qed.

Lemma zip_with_Rminus_self (z : list R) (i : nat) :
  (i < length z)%nat -> zip_with Rminus z z !!! i = 0.
Proof. intros Hi. rewrite zip_with_Rminus_lookup by done. lra. Qed.

(** The invariant of the loop is kept by every pass. *)
Lemma uk0_inv_step (N : nat) (mu : R) (A : matrix) (s : uk0_state) (k : Z) :
  (2 <= N)%nat -> tridiag (dh_b N, dh_a N, dh_c N) = Ok A ->
  uk0_inv A N mu s k -> (k <= 200)%Z ->
  exists t, uk0_tolerance s = Ok t /\
    exists s', uk0_step A (Z.of_nat N) mu s = Ok s' /\
      uk0_inv A N mu s' (k + 1).
Proof.
  intros HN HA (Hk & Hu & He1 & He2 & _) Hk200.
  destruct (uk0_tolerance_total s) as (t & Ht).
  { destruct (uk_ecart1 s); simpl in *; [lia | done]. }
  { destruct (uk_ecart2 s); simpl in *; [lia | done]. }
  exists t. split; [done|].
  destruct (uk0_step_Ok N mu A s HN HA Hu)
    as (u' & Hsolve & Hlu & Hrows & Hdot & Hstep).
  eexists. split; [exact Hstep|].
  pose proof (pb_z_length N mu (uk_u s)) as Hlz.
  unfold uk0_inv. simpl. repeat split; try lia.
  - now rewrite zip_with_Rminus_length.
  - rewrite zip_with_Rminus_length; lia.
  - intros _. exists (uk_u s), (pb_z N mu (uk_u s)), (pb_z N mu (uk_u s)).
    repeat split; try done.
    + now apply np_sub_Ok.
    + apply np_sub_Ok. lia.
Qed.

(** [calcul_uk0] up to its loop; [N] stands for the 1000 points it
    hardcodes. *)
Lemma calcul_uk0_start (N : nat) (mu : R) :
  Z.of_nat N = 1000%Z -> (2 <= N)%nat ->
  exists u0 A,
    solve_debye_huckel (Z.of_nat N) mu
    = Ok (dh_x N, u0, (dh_b N, dh_a N, dh_c N)) /\
    length u0 = N /\
    (forall i, (i < N)%nat ->
       tri_row (dh_b N) (dh_a N) (dh_c N) u0 i = dh_z N mu !!! i) /\
    tridiag (dh_b N, dh_a N, dh_c N) = Ok A /\
    uk0_inv A N mu (Uk0 None u0 (dh_z N mu) u0) 0 /\
    calcul_uk0 mu =
    ('(s, k) ← uk0_loop A (Z.of_nat N) mu (Uk0 None u0 (dh_z N mu) u0) 0;
     match uk_x s with
     | Some x => Ok (x, uk_u s, k)
     | None => Raise UnboundLocalError
     end).
Proof.
  intros E HN.
  destruct (solve_debye_huckel_Ok N mu HN) as (u0 & Hsolve & Hlu & Hrows).
  destruct (dh_tridiag_Ok N HN) as (A & HA).
  destruct (dh_lengths N mu) as (_ & _ & _ & _ & Hlz).
  pose proof (dh_dot N A u0 _ HN HA Hlu Hlz Hrows) as Hdot.
  exists u0, A.
  split; [done|]. split; [done|]. split; [done|]. split; [done|].
  split.
  { unfold uk0_inv. simpl. repeat split; try done; try lia. }
  unfold calcul_uk0. cbv zeta. rewrite <- E.
  rewrite Hsolve, bind_Ok. cbv beta iota.
  rewrite HA, bind_Ok, Hdot, bind_Ok. reflexivity.
Qed.

Lemma mu1_value : mu1 = 1 / 10 ^ 11.
Proof. unfold mu1. field. Qed.

Lemma mu2_value : mu2 = 1 / 10 ^ 8.
Proof. unfold mu2. field. Qed.

(** The loop of [calcul_uk0] always returns; the state it returns
    satisfies the invariant, and either the cap was hit or the tolerance
    test holds. *)
Lemma calcul_uk0_loop (N : nat) (mu : R) (A : matrix) (u0 : list R) :
  (2 <= N)%nat ->
  tridiag (dh_b N, dh_a N, dh_c N) = Ok A ->
  uk0_inv A N mu (Uk0 None u0 (dh_z N mu) u0) 0 ->
  exists s k,
    uk0_loop A (Z.of_nat N) mu (Uk0 None u0 (dh_z N mu) u0) 0 = Ok (s, k) /\
    uk0_inv A N mu s k /\
    ((k > 200)%Z \/ uk0_tolerance s = Ok true).
Proof.
  intros HN HA Hinv.
  destruct (uk0_loop_run (uk0_inv A N mu) A (Z.of_nat N) mu) with
    (s := Uk0 None u0 (dh_z N mu) u0) (k := 0%Z)
    as (s & k & Hrun & Hinv' & _ & Hexit); try done.
  - intros s k Hs Hk.
    destruct (uk0_inv_step N mu A s k HN HA Hs Hk) as (t & Ht & Hstep).
    exists t. split; [done|]. intros _. exact Hstep.
  - exists s, k. auto.
Qed.

(** ** A run that hits the cap *)

Lemma g_sign (sigma t : R) :
  sigma = 1 \/ sigma = -1 -> sigma * g t = g (sigma * t).
Proof.
  intros [->| ->].
  - now rewrite !Rmult_1_l.
  - replace (-1 * t) with (- t) by lra. rewrite g_odd. lra.
Qed.

Lemma pb_z_lookup (N : nat) (mu : R) (u : list R) (i : nat) :
  (i < N)%nat ->
  pb_z N mu u !!! i
  = step_size N ^ 2 * g (u !!! i)
    + (if decide (i = 0)%nat
       then mu * step_size N * (step_size N - 2) else 0).
Proof. intros Hi. unfold pb_z. now apply (tabulates_map N). Qed.

Lemma dh_z_lookup_total (N : nat) (mu : R) (i : nat) :
  (i < N)%nat ->
  dh_z N mu !!! i
  = if decide (i = 0)%nat then mu * step_size N * (step_size N - 2) else 0.
Proof.
  intros Hi. apply list_lookup_total_correct. now apply dh_z_lookup.
Qed.

Section Divergence.
Variables (N : nat) (mu T : R).
Let h := step_size N.
Let c0 := mu * h * (2 - h).
Hypothesis HN : (2 <= N)%nat.
Hypothesis Hc0 : 0 <= c0.
Hypothesis HT : (2 + h ^ 2) * T <= c0.
Hypothesis HT2 : mu2 <= T.
Hypothesis Hbig : forall t, T <= t -> (2 + h ^ 2) * T + c0 <= h ^ 2 * g t.

Lemma step_size_pos' : 0 < h.
Proof using HN. apply (step_size_pos (Z.of_nat N)). lia. Qed.

(** The linear solution is nonnegative and large at the left end. *)
Lemma diverging_init (x : option (list R)) (u0 e1 : list R) :
  length u0 = N ->
  (forall i, (i < N)%nat ->
     tri_row (dh_b N) (dh_a N) (dh_c N) u0 i = dh_z N mu !!! i) ->
  diverging N T (Uk0 x u0 e1 u0).
Proof using HN Hc0 HT HT2.
  intros Hu Hrows. pose proof step_size_pos' as Hh.
  assert (0 < T) as HTpos by (unfold mu2 in HT2; simpl in HT2; lra).
  assert (forall i, (i < N)%nat -> 0 <= u0 !!! i) as Hpos.
  { apply (tri_min_principle h N (fun j => u0 !!! j) Hh HN).
    intros i Hi. fold h. unfold h. rewrite <- tri_row_fun by done.
    rewrite Hrows, dh_z_lookup_total by done. fold h.
    case_decide; [|lra]. unfold c0 in Hc0. lra. }
  assert (T <= u0 !!! 0%nat) as Hfirst.
  { pose proof (Hrows 0%nat ltac:(lia)) as H0.
    rewrite tri_row_fun, tri_fun_first, dh_z_lookup_total in H0 by (done || lia).
    rewrite decide_True in H0 by done. fold h in H0.
    pose proof (Hpos 1%nat ltac:(lia)). unfold c0 in HT. nra. }
  exists 1. simpl. repeat split.
  - now left.
  - intros i Hi. rewrite Rmult_1_l. now apply Hpos.
  - now rewrite Rmult_1_l.
  - rewrite Rabs_pos_eq by lra. lra.
Qed.

(** A pass flips the sign and keeps the size. *)
Lemma diverging_step (s : uk0_state) (x : option (list R)) (u' e1 : list R) :
  diverging N T s -> length (uk_u s) = N -> length u' = N ->
  (forall i, (i < N)%nat ->
     tri_row (dh_b N) (dh_a N) (dh_c N) u' i = pb_z N mu (uk_u s) !!! i) ->
  diverging N T (Uk0 x u' e1 (zip_with Rminus u' (uk_u s))).
Proof using HN Hc0 HT HT2 Hbig.
  intros (sigma & Hsig & Hpos & Hfirst & _) Hu Hu' Hrows.
  pose proof step_size_pos' as Hh.
  assert (0 < T) as HTpos by (unfold mu2 in HT2; simpl in HT2; lra).
  assert (0 < h ^ 2) as Hh2 by nra.
  set (u := uk_u s) in *.
  assert (forall i, (i < N)%nat ->
            tri_fun h N (fun j => - sigma * u' !!! j) i
            = - (h ^ 2 * g (sigma * u !!! i)
                 + if decide (i = 0)%nat then sigma * - c0 else 0)) as Hrow.
  { intros i Hi.
    replace (tri_fun h N (fun j => - sigma * u' !!! j) i)
      with (- sigma * tri_fun h N (fun j => u' !!! j) i + 0 * tri_fun h N (fun _ => 0) i).
    2:{ rewrite <- tri_fun_linear. unfold tri_fun.
        destruct i; case_decide; ring. }
    unfold h. rewrite <- tri_row_fun by done.
    rewrite Hrows, pb_z_lookup by done. fold h.
    rewrite <- g_sign by done. unfold c0. case_decide; ring. }
  assert (forall i, (i < N)%nat -> 0 <= - sigma * u' !!! i) as Hpos'.
  { apply (tri_min_principle h N (fun j => - sigma * u' !!! j) Hh HN).
    intros i Hi. rewrite Hrow by done.
    case_decide as Hi0.
    - subst i. pose proof (Hbig _ Hfirst).
      assert (sigma * - c0 >= - c0) by (destruct Hsig as [->| ->]; lra).
      nra.
    - pose proof (g_nonneg _ (Hpos i Hi)). nra. }
  assert (T <= - sigma * u' !!! 0%nat) as Hfirst'.
  { pose proof (Hrow 0%nat ltac:(lia)) as H0.
    rewrite tri_fun_first, decide_True in H0 by (done || lia).
    pose proof (Hbig _ Hfirst).
    pose proof (Hpos' 1%nat ltac:(lia)).
    assert (sigma * - c0 >= - c0) by (destruct Hsig as [->| ->]; lra).
    nra. }
  exists (- sigma). simpl. repeat split; try done.
  - destruct Hsig as [->| ->]; [right | left]; lra.
  - rewrite zip_with_Rminus_lookup by lia. fold u.
    destruct Hsig as [->| ->].
    + rewrite Rabs_left by lra. lra.
    + rewrite Rabs_pos_eq by lra. lra.
Qed.
End Divergence.

Lemma step_size_1000 (N : nat) : Z.of_nat N = 1000%Z -> step_size N = 1 / 100.
Proof. intros E. unfold step_size. rewrite E. lra. Qed.

Lemma diverging_tolerance (N : nat) (T : R) (s : uk0_state) :
  (0 < N)%nat -> length (uk_ecart1 s) = N -> length (uk_ecart2 s) = N ->
  diverging N T s -> uk0_tolerance s = Ok false.
Proof.
  intros HN H1 H2 (sigma & _ & _ & _ & Hbig).
  apply (uk0_tolerance_false s 0); [| lia | done].
  destruct (uk_ecart1 s); simpl in *; [lia | done].
Qed.

(** With mu = 10^8 the iterates alternate in sign with a first
    component of size at least 900000: the tolerance is never met and
    the loop runs until k = 201. *)
Lemma calcul_uk0_capped_run (N : nat) :
  Z.of_nat N = 1000%Z -> (2 <= N)%nat ->
  exists x u, calcul_uk0 100000000 = Ok (x, u, 201%Z).
Proof.
  intros E HN.
  set (mu := 100000000). set (T := 900000).
  pose proof (step_size_1000 N E) as Eh.
  assert (0 <= mu * step_size N * (2 - step_size N)) as Hc0
    by (rewrite Eh; unfold mu; lra).
  assert ((2 + step_size N ^ 2) * T
          <= mu * step_size N * (2 - step_size N)) as HT
    by (rewrite Eh; unfold mu, T; lra).
  assert (mu2 <= T) as HT2 by (unfold mu2, T; simpl; lra).
  assert (forall t, T <= t ->
            (2 + step_size N ^ 2) * T
            + mu * step_size N * (2 - step_size N)
            <= step_size N ^ 2 * g t) as Hbig.
  { intros t Ht. rewrite Eh. unfold mu, T in *.
    pose proof (g_lower t ltac:(lra)) as Hg.
    assert (900000 * t <= t * t) by nra. nra. }
  destruct (calcul_uk0_start N mu E HN)
    as (u0 & A & _ & Hlu0 & Hrows0 & HA & Hinv0 & ->).
  destruct (uk0_loop_run
    (fun s k => uk0_inv A N mu s k /\ diverging N T s) A (Z.of_nat N) mu)
    with (s := Uk0 None u0 (dh_z N mu) u0) (k := 0%Z)
    as (s & k & -> & [Hinv Hdiv] & _ & Hexit).
  - intros s k [Hinv Hdiv] Hk.
    pose proof Hinv as (_ & Hu & He1 & He2 & _).
    exists false. split.
    { apply (diverging_tolerance N T); try done; lia. }
    intros _.
    destruct (uk0_inv_step N mu A s k HN HA Hinv Hk)
      as (_ & _ & s' & Hstep & Hinv').
    destruct (uk0_step_Ok N mu A s HN HA Hu)
      as (u' & _ & Hlu' & Hrows & _ & Hstep').
    exists s'. split; [done|]. split; [done|].
    rewrite Hstep in Hstep'. injection Hstep' as ->.
    now apply (diverging_step N mu T HN Hc0 HT HT2 Hbig).
  - split; [done|].
    now apply (diverging_init N mu T HN Hc0 HT HT2).
  - rewrite bind_Ok. simpl.
    pose proof Hinv as (Hk & _ & He1 & He2 & _ & Hpos).
    destruct Hexit as [Hcap|Htol].
    + destruct Hpos as (u_prev & z & Au & _ & _ & -> & _); [lia|].
      exists (dh_x N), (uk_u s). do 2 f_equal. lia.
    + rewrite (diverging_tolerance N T s) in Htol; try done; lia.
Qed.

(** ** A run that converges *)

Lemma uk0_tolerance_false_ecart1 (s : uk0_state) (i : nat) :
  (i < length (uk_ecart1 s))%nat -> mu1 <= Rabs (uk_ecart1 s !!! i) ->
  uk0_tolerance s = Ok false.
Proof.
  intros Hi Hbig. unfold uk0_tolerance.
  destruct (norm_inf_Ok (uk_ecart1 s)) as (n1 & -> & Hall & _).
  { destruct (uk_ecart1 s); simpl in *; [lia | done]. }
  rewrite bind_Ok. specialize (Hall i Hi).
  destruct (Rlt_dec n1 mu1); [lra | done].
Qed.

Lemma uk0_tolerance_true_intro (s : uk0_state) :
  uk_ecart1 s <> [] -> uk_ecart2 s <> [] ->
  (forall i, (i < length (uk_ecart1 s))%nat -> Rabs (uk_ecart1 s !!! i) < mu1) ->
  (forall i, (i < length (uk_ecart2 s))%nat -> Rabs (uk_ecart2 s !!! i) < mu2) ->
  uk0_tolerance s = Ok true.
Proof.
  intros H1 H2 Hall1 Hall2. unfold uk0_tolerance.
  destruct (norm_inf_Ok _ H1) as (n1 & -> & _ & i1 & Hi1 & ->).
  destruct (norm_inf_Ok _ H2) as (n2 & -> & _ & i2 & Hi2 & ->).
  rewrite bind_Ok. specialize (Hall1 i1 Hi1). specialize (Hall2 i2 Hi2).
  destruct (Rlt_dec _ mu1); [|lra].
  rewrite bind_Ok. destruct (Rlt_dec _ mu2); [done | lra].
Qed.

(** With mu = 10^-9 the linear solution misses the first tolerance, and
    one fixed-point step moves it by less than 1e-8. *)
Lemma calcul_uk0_converged_run (N : nat) :
  Z.of_nat N = 1000%Z -> (2 <= N)%nat ->
  exists x u, calcul_uk0 (1 / 1000000000) = Ok (x, u, 1%Z).
Proof.
  intros E HN.
  set (mu := 1 / 1000000000).
  pose proof (step_size_1000 N E) as Eh.
  assert (0 < step_size N) as Hh by (rewrite Eh; lra).
  destruct (calcul_uk0_start N mu E HN)
    as (u0 & A & _ & Hlu0 & Hrows0 & HA & Hinv0 & ->).
  destruct (dh_lengths N mu) as (_ & _ & _ & _ & Hlz).
  set (s0 := Uk0 None u0 (dh_z N mu) u0).
  assert (uk0_tolerance s0 = Ok false) as Htol0.
  { apply (uk0_tolerance_false_ecart1 s0 0); simpl; [lia|].
    rewrite dh_z_lookup_total, decide_True by (done || lia).
    rewrite Eh. unfold mu, mu1. rewrite Rabs_left by lra. simpl. lra. }
  destruct (uk0_step_Ok N mu A s0 HN HA Hlu0)
    as (u1 & _ & Hlu1 & Hrows1 & _ & Hstep).
  simpl uk_u in *.
  set (s1 := Uk0 (Some (dh_x N)) u1
               (zip_with Rminus (pb_z N mu u0) (pb_z N mu u0))
               (zip_with Rminus u1 u0)) in *.
  assert (forall i, (i < N)%nat -> Rabs (u0 !!! i) <= 2 / 10000000) as Hu0.
  { intros i Hi.
    pose proof (tri_magnitude (step_size N) N (fun j => u0 !!! j)
                  (199 / 10000000000000) Hh HN) as Hmag.
    eapply Rle_trans; [apply Hmag; [|done] | rewrite Eh; lra].
    intros j Hj. rewrite <- tri_row_fun, Hrows0, dh_z_lookup_total by done.
    rewrite Eh. unfold mu. case_decide.
    - rewrite Rabs_left by lra. lra.
    - rewrite Rabs_R0. lra. }
  assert (forall i, (i < N)%nat ->
            Rabs (u1 !!! i - u0 !!! i) <= 4 / 100000000000000) as Hd.
  { intros i Hi.
    pose proof (tri_magnitude (step_size N) N
                  (fun j => 1 * u1 !!! j + (-1) * u0 !!! j)
                  (step_size N ^ 2 * (4 / 100000000000000)) Hh HN) as Hmag.
    replace (u1 !!! i - u0 !!! i) with (1 * u1 !!! i + -1 * u0 !!! i) by lra.
    eapply Rle_trans; [apply Hmag; [|done] | rewrite Eh; lra].
    intros j Hj. rewrite tri_fun_linear.
    rewrite <- !tri_row_fun, Hrows1, Hrows0 by done.
    rewrite pb_z_lookup, dh_z_lookup_total by done.
    replace (1 * (step_size N ^ 2 * g (u0 !!! j)
                  + (if decide (j = 0)%nat
                     then mu * step_size N * (step_size N - 2) else 0))
             + -1 * (if decide (j = 0)%nat
                     then mu * step_size N * (step_size N - 2) else 0))
      with (step_size N ^ 2 * g (u0 !!! j)) by (case_decide; lra).
    rewrite Rabs_mult, Rabs_pos_eq by (rewrite Eh; lra).
    apply Rmult_le_compat_l; [rewrite Eh; lra|].
    pose proof (Hu0 j Hj) as Hj0.
    assert (Rabs (u0 !!! j) <= 1 / 2) as Hhalf by lra.
    pose proof (g_abs_small (u0 !!! j) Hhalf) as Hg.
    apply Rabs_le_between in Hj0. nra. }
  assert (uk0_tolerance s1 = Ok true) as Htol1.
  { apply uk0_tolerance_true_intro; simpl.
    - pose proof (pb_z_length N mu u0) as Hl.
      destruct (pb_z N mu u0); simpl in *; [lia | done].
    - destruct u1, u0; simpl in *; try lia; done.
    - intros i Hi. rewrite length_zip_with in Hi.
      rewrite zip_with_Rminus_self by lia. rewrite Rabs_R0.
      unfold mu1. simpl. lra.
    - intros i Hi. rewrite length_zip_with in Hi.
      rewrite zip_with_Rminus_lookup by lia.
      eapply Rle_lt_trans; [apply Hd; lia|]. unfold mu2. simpl. lra. }
  exists (dh_x N), u1.
  rewrite uk0_loop_eq, decide_False by lia. fold s0.
  rewrite Htol0, Hstep.
  rewrite uk0_loop_eq, decide_False by lia.
  rewrite Htol1, bind_Ok. reflexivity.
Qed.

(** ** A run that makes no pass *)

(** With mu = 0 the linear solution is zero, both tolerances hold before
    the first pass, and the function reaches [return x, u, k] with [x]
    unbound. *)
Lemma calcul_uk0_no_pass (N : nat) :
  Z.of_nat N = 1000%Z -> (2 <= N)%nat ->
  calcul_uk0 0 = Raise UnboundLocalError.
Proof.
  intros E HN.
  assert (0 < step_size N) as Hh by (rewrite (step_size_1000 N E); lra).
  destruct (calcul_uk0_start N 0 E HN)
    as (u0 & A & _ & Hlu0 & Hrows0 & HA & Hinv0 & ->).
  destruct (dh_lengths N 0) as (_ & _ & _ & _ & Hlz).
  set (s0 := Uk0 None u0 (dh_z N 0) u0).
  assert (forall i, (i < N)%nat -> dh_z N 0 !!! i = 0) as Hz0.
  { intros i Hi. rewrite dh_z_lookup_total by done. case_decide; lra. }
  assert (forall i, (i < N)%nat -> Rabs (u0 !!! i) <= 0) as Hu0.
  { intros i Hi.
    pose proof (tri_magnitude (step_size N) N (fun j => u0 !!! j) 0 Hh HN)
      as Hmag.
    eapply Rle_trans; [apply Hmag; [|done] | lra].
    intros j Hj. rewrite <- tri_row_fun, Hrows0, Hz0 by done.
    rewrite Rabs_R0. lra. }
  assert (uk0_tolerance s0 = Ok true) as Htol.
  { apply uk0_tolerance_true_intro; simpl.
    - destruct (dh_z N 0); simpl in *; [lia | done].
    - destruct u0; simpl in *; [lia | done].
    - intros i Hi. rewrite Hz0 by lia. rewrite Rabs_R0. unfold mu1. simpl. lra.
    - intros i Hi. eapply Rle_lt_trans; [apply Hu0; lia|].
      unfold mu2. simpl. lra. }
  rewrite uk0_loop_eq, decide_False by lia. fold s0. rewrite Htol, bind_Ok.
  reflexivity.
Qed.

(** * Further properties of the code *)

(** ** Outcomes of loops *)

Lemma for_range_outcome {S} (Inv : Z -> S -> Prop) (E : PyError -> Prop)
    (body : Z -> S -> result S) (lo hi : Z) (s : S) :
  (lo <= hi)%Z -> Inv lo s ->
  (forall i s, (lo <= i < hi)%Z -> Inv i s ->
     outcome (body i s) (Inv (i + 1)%Z) E) ->
  outcome (for_each (range lo hi) body s) (Inv hi) E.
Proof.
  intros Hle H0 Hstep.
  remember (Z.to_nat (hi - lo)) as d eqn:Hd.
  revert lo s Hle H0 Hstep Hd. induction d as [|d IH]; intros lo s Hle H0 Hstep Hd.
  - assert (lo = hi) as -> by lia. rewrite range_nil by lia. exact H0.
  - rewrite range_cons by lia. rewrite for_each_cons.
    pose proof (Hstep lo s ltac:(lia) H0) as Hb.
    destruct (body lo s) as [s1|e]; [|exact Hb].
    rewrite bind_Ok. apply IH; [lia | done | | lia].
    intros i s2 Hi. apply Hstep. lia.
Qed.

(** ** [lutri] on inputs that meet the dimension contract *)

Lemma lutri_outcome (a b c : list R) :
  a <> [] ->
  (length a <= S (length b))%nat -> (length a <= S (length c))%nat ->
  outcome (lutri a b c) (fun lv => lu_rel a b c (fst lv) (snd lv))
    (fun e => e = ZeroDivisionError).
Proof.
  intros Ha Hb Hc. unfold lutri.
  rewrite getitem_head, bind_Ok by done.
  assert (0 < length a)%nat as Hn by (destruct a; simpl; [done | lia]).
  pose proof (for_range_outcome (lutri_inv a b c)
                (fun e => e = ZeroDivisionError) (lutri_body a b c)
                1 (Z.of_nat (length a)) ([], [a !!! 0%nat])) as Hloop.
  destruct (for_each _ _ _) as [[l v]|e]; simpl in *.
  - apply lutri_inv_final. apply Hloop; [lia | |].
    + exists 0%nat. repeat split; try done; lia.
    + intros i [l1 v1] Hi Hinv.
      pose proof Hinv as (k & -> & Hl & Hv & _).
      rewrite lutri_body_step by done. rewrite !decide_True by lia.
      destruct (Req_dec_T (v1 !!! k) 0); simpl; [done|].
      now apply lutri_inv_step.
  - apply Hloop; [lia | |].
    + exists 0%nat. repeat split; try done; lia.
    + intros i [l1 v1] Hi Hinv.
      pose proof Hinv as (k & -> & Hl & Hv & _).
      rewrite lutri_body_step by done. rewrite !decide_True by lia.
      destruct (Req_dec_T (v1 !!! k) 0); simpl; [done|].
      now apply lutri_inv_step.
Qed.


(** ** Which entries [lutri] reads *)

Lemma for_each_ext {S} (idx : list Z) (body1 body2 : Z -> S -> result S)
    (s : S) :
  (forall i, i ∈ idx -> forall s, body1 i s = body2 i s) ->
  for_each idx body1 s = for_each idx body2 s.
Proof.
  revert s. induction idx as [|i idx IH]; intros s Hext; [reflexivity|].
  simpl. rewrite (Hext i) by apply list_elem_of_here.
  destruct (body2 i s) as [s'|e]; [|reflexivity].
  rewrite !bind_Ok. apply IH. intros j Hj. apply Hext.
  now apply list_elem_of_further.
Qed.

Lemma lutri_body_agree (a b c b' c' : list R) (i : Z) (lv : list R * list R) :
  (1 <= i < Z.of_nat (length a))%Z ->
  take (length a - 1) b = take (length a - 1) b' ->
  take (length a - 1) c = take (length a - 1) c' ->
  lutri_body a b c i lv = lutri_body a b' c' i lv.
Proof.
  intros Hi Hb Hc. destruct lv as [l v]. unfold lutri_body.
  replace (i - 1)%Z with (Z.of_nat (Z.to_nat (i - 1))) by lia.
  rewrite !(getitem_nat b), !(getitem_nat b'), !(getitem_nat c), !(getitem_nat c').
  assert (forall (p q : list R), take (length a - 1) p = take (length a - 1) q ->
            p !! Z.to_nat (i - 1) = q !! Z.to_nat (i - 1)) as Hlook.
  { intros p q Hpq.
    rewrite <- (lookup_take_lt p (length a - 1)) by lia.
    rewrite <- (lookup_take_lt q (length a - 1)) by lia.
    now rewrite Hpq. }
  now rewrite (Hlook b b' Hb), (Hlook c c' Hc).
Qed.


(** ** The linear problem *)

Lemma list_eq_total (l1 l2 : list R) :
  length l1 = length l2 ->
  (forall i, (i < length l1)%nat -> l1 !!! i = l2 !!! i) ->
  l1 = l2.
Proof.
  intros Hlen Heq. apply list_eq. intros i.
  destruct (decide (i < length l1)%nat) as [Hi|Hi].
  - rewrite (list_lookup_lookup_total_lt l1 i Hi).
    rewrite (list_lookup_lookup_total_lt l2 i) by lia.
    now rewrite Heq.
  - rewrite !lookup_ge_None_2 by lia. reflexivity.
Qed.

(** Two vectors with the same image under the linear operator are equal. *)
Lemma dh_unique (N : nat) (u1 u2 : list R) :
  (2 <= N)%nat -> length u1 = N -> length u2 = N ->
  (forall i, (i < N)%nat ->
     tri_row (dh_b N) (dh_a N) (dh_c N) u1 i
     = tri_row (dh_b N) (dh_a N) (dh_c N) u2 i) ->
  u1 = u2.
Proof.
  intros HN H1 H2 Hrows.
  pose proof (step_size_pos (Z.of_nat N) ltac:(lia)) as Hh.
  fold (step_size N) in Hh.
  apply list_eq_total; [lia|]. rewrite H1. intros i Hi.
  pose proof (tri_magnitude (step_size N) N
                (fun j => 1 * u1 !!! j + (-1) * u2 !!! j) 0 Hh HN) as Hmag.
  assert (Rabs (1 * u1 !!! i + -1 * u2 !!! i) <= 0 / step_size N ^ 2) as Hle.
  { apply Hmag; [|done]. intros j Hj. rewrite tri_fun_linear.
    rewrite <- !tri_row_fun by done. rewrite (Hrows j Hj).
    replace (1 * _ + -1 * _) with 0 by lra. rewrite Rabs_R0. lra. }
  unfold Rdiv in Hle. rewrite Rmult_0_l in Hle.
  apply Rabs_le_between in Hle. lra.
Qed.

(** The solver returns the only solution of the system on [N] points. *)
Lemma dh_solve_unique (N : nat) (z l v y u w : list R) :
  (2 <= N)%nat -> length z = N ->
  lutri (dh_a N) (dh_b N) (dh_c N) = Ok (l, v) ->
  descente l z = Ok y -> remontee v (dh_c N) y = Ok u ->
  length w = N ->
  (forall i, (i < N)%nat ->
     tri_row (dh_b N) (dh_a N) (dh_c N) w i = z !!! i) ->
  u = w.
Proof.
  intros HN Hz Hl Hy Hu Hw Hrows.
  destruct (dh_solve N z HN Hz) as (l' & v' & y' & u' & Hl' & Hy' & Hu' & Hlen & Hr).
  rewrite Hl in Hl'. injection Hl' as <- <-.
  rewrite Hy in Hy'. injection Hy' as <-.
  rewrite Hu in Hu'. injection Hu' as <-.
  apply (dh_unique N); try done.
  intros i Hi. now rewrite Hr, Hrows.
Qed.

(** [solve_debye_huckel] below two points. *)
Lemma solve_debye_huckel_small (n : Z) (mu : R) :
  (n <= 1)%Z ->
  solve_debye_huckel n mu
  = Raise (if decide (n = 0)%Z then ZeroDivisionError else IndexError).
Proof.
  intros Hn. unfold solve_debye_huckel, assemble_debye_huckel.
  case_decide as H0.
  - subst n. now rewrite py_div_zero.
  - rewrite py_div_Ok, bind_Ok by (apply not_0_IZR; lia).
    unfold py_replicate.
    replace (Z.to_nat (n - 1)) with 0%nat by lia. reflexivity.
Qed.

Lemma solve_poisson_boltzmann_small (u : list R) (n : Z) (mu : R) :
  (n <= 1)%Z ->
  solve_poisson_boltzmann u n mu
  = Raise (if decide (n = 0)%Z then ZeroDivisionError else IndexError).
Proof.
  intros Hn. unfold solve_poisson_boltzmann, assemble_poisson_boltzmann.
  case_decide as H0.
  - subst n. now rewrite py_div_zero.
  - rewrite py_div_Ok, bind_Ok by (apply not_0_IZR; lia).
    destruct u as [|u0 u']; [now rewrite getitem_nil|].
    rewrite getitem_head, bind_Ok by done.
    unfold py_replicate.
    replace (Z.to_nat (n - 1)) with 0%nat by lia. reflexivity.
Qed.

(** The rows of the linear solution, as a grid function. *)
Lemma dh_rows_fun (N : nat) (mu : R) (u : list R) (i : nat) :
  length u = N -> (i < N)%nat ->
  tri_row (dh_b N) (dh_a N) (dh_c N) u i = dh_z N mu !!! i ->
  tri_fun (step_size N) N (fun j => u !!! j) i
  = if decide (i = 0)%nat
    then mu * step_size N * (step_size N - 2) else 0.
Proof.
  intros Hu Hi Hrow. rewrite <- tri_row_fun by done.
  now rewrite Hrow, dh_z_lookup_total.
Qed.

(** Pivots and multipliers of the linear operator. *)
Lemma dh_pivots (N : nat) :
  (2 <= N)%nat ->
  exists l v, lutri (dh_a N) (dh_b N) (dh_c N) = Ok (l, v) /\
    length v = N /\ length l = (N - 1)%nat /\
    (forall k, (k < N)%nat ->
       - (2 + step_size N ^ 2) <= v !!! k < 0 /\
       ((k < N - 1)%nat -> v !!! k < -1)) /\
    (forall k, (k < N - 1)%nat -> -1 < l !!! k < 0).
Proof.
  intros HN.
  pose proof (step_size_pos (Z.of_nat N) ltac:(lia)) as Hh.
  fold (step_size N) in Hh. set (h := step_size N) in *.
  destruct (dh_lengths N 0) as (_ & Hla & Hlb & Hlc & _).
  destruct (lutri_pivots
    (fun k p => - (2 + h ^ 2) <= p /\
                p < - (if decide (k < N - 1)%nat then coef_c h k else 0))
    (dh_a N) (dh_b N) (dh_c N)) as (l & v & Hlu & Hrel & Hpiv).
  - destruct N; simpl; [lia | done].
  - lia.
  - lia.
  - rewrite dh_a_lookup by lia. fold h. rewrite decide_True by lia.
    pose proof (coef_c_bounds h 0 Hh). split; [lra | nra].
  - intros k p Hk [Hlow HP]. rewrite Hla in Hk.
    rewrite decide_True in HP by lia.
    rewrite dh_a_lookup, dh_b_lookup, dh_c_lookup by lia. fold h.
    pose proof (coef_b_bounds h k Hh) as Hbk.
    pose proof (coef_c_bounds h k Hh) as Hck.
    destruct (pivot_step (- (2 + h ^ 2)) (coef_b h k) (coef_c h k) p)
      as [Hnz Hlt]; [lra | lra | lra |].
    split; [done|]. split.
    + assert (coef_b h k / p * coef_c h k * p = coef_b h k * coef_c h k)
        as Ht by (field; lra).
      set (t := coef_b h k / p * coef_c h k) in *.
      assert (t <= 0) by nra. lra.
    + case_decide.
      * pose proof (coef_row_sum h k). nra.
      * nra.
  - intros p [_ HP]. case_decide.
    + pose proof (coef_c_bounds h (length (dh_a N) - 1) Hh). lra.
    + lra.
  - pose proof Hrel as (Hlv & Hll & _ & Hfac).
    exists l, v. split; [done|]. split; [lia|]. split; [lia|]. split.
    + intros k Hk. destruct (Hpiv k) as (_ & Hlow & Hup); [lia|].
      split.
      * split; [done|]. case_decide; [|lra].
        pose proof (coef_c_bounds h k Hh). lra.
      * intros Hk1. rewrite decide_True in Hup by done.
        pose proof (coef_c_bounds h k Hh). lra.
    + intros k Hk. destruct (Hfac k) as (Hnz & Hlk & _); [lia|].
      destruct (Hpiv k) as (_ & _ & Hup); [lia|].
      rewrite decide_True in Hup by done.
      rewrite Hlk, dh_b_lookup by done. fold h.
      pose proof (coef_b_bounds h k Hh) as Hbk.
      pose proof (coef_c_bounds h k Hh) as Hck.
      assert (coef_b h k / v !!! k * v !!! k = coef_b h k) as Ht
        by (field; lra).
      set (t := coef_b h k / v !!! k) in *.
      split; nra.
Qed.

Lemma tri_fun_ext (h : R) (N : nat) (U V : nat -> R) (i : nat) :
  (i < N)%nat -> (forall j, (j < N)%nat -> U j = V j) ->
  tri_fun h N U i = tri_fun h N V i.
Proof.
  intros Hi Heq. unfold tri_fun.
  rewrite (Heq i Hi).
  destruct i as [|j].
  - case_decide; [rewrite (Heq 1%nat) by lia|]; reflexivity.
  - rewrite (Heq j) by lia.
    case_decide; [rewrite (Heq (S (S j))) by lia|]; reflexivity.
Qed.

Lemma step_size_le_2 (N : nat) : (5 <= N)%nat -> step_size N <= 2.
Proof.
  intros HN. unfold step_size.
  assert (5 <= IZR (Z.of_nat N)) as H5 by (apply IZR_le; lia).
  apply Rmult_le_reg_r with (IZR (Z.of_nat N)); [lra|].
  unfold Rdiv. rewrite Rmult_assoc, Rinv_l by lra. lra.
Qed.

(** Sign and size of the linear solution for a nonpositive first
    right-hand side entry. *)
Lemma dh_solution_bounds (N : nat) (mu : R) (u : list R) :
  (2 <= N)%nat -> length u = N ->
  (forall i, (i < N)%nat ->
     tri_row (dh_b N) (dh_a N) (dh_c N) u i = dh_z N mu !!! i) ->
  0 <= mu * step_size N * (2 - step_size N) ->
  (forall i, (i < N)%nat ->
     0 <= u !!! i <= mu * step_size N * (2 - step_size N) / step_size N ^ 2) /\
  mu * step_size N * (2 - step_size N)
  <= (2 + step_size N ^ 2) * u !!! 0%nat.
Proof.
  intros HN Hu Hrows Hc0.
  pose proof (step_size_pos (Z.of_nat N) ltac:(lia)) as Hh.
  fold (step_size N) in Hh. set (h := step_size N) in *.
  assert (forall i, (i < N)%nat -> 0 <= u !!! i) as Hpos.
  { apply (tri_min_principle h N (fun j => u !!! j) Hh HN).
    intros i Hi. unfold h. rewrite (dh_rows_fun N mu) by auto. fold h.
    case_decide; lra. }
  split.
  - intros i Hi. split; [now apply Hpos|].
    pose proof (tri_magnitude h N (fun j => u !!! j)
                  (mu * h * (2 - h)) Hh HN) as Hmag.
    assert (Rabs (u !!! i) <= mu * h * (2 - h) / h ^ 2) as Hle.
    { apply Hmag; [|done]. intros j Hj.
      unfold h. rewrite (dh_rows_fun N mu) by auto. fold h.
      case_decide; [rewrite Rabs_left1 by lra | rewrite Rabs_R0]; lra. }
    apply Rabs_le_between in Hle. lra.
  - pose proof (dh_rows_fun N mu u 0 Hu ltac:(lia) (Hrows 0%nat ltac:(lia)))
      as H0.
    rewrite tri_fun_first, decide_True in H0 by (done || lia). fold h in H0.
    pose proof (Hpos 1%nat ltac:(lia)). lra.
Qed.

(** The linear solution scales with [mu]. *)
Lemma dh_solution_scales (N : nat) (mu : R) (u1 u : list R) :
  (2 <= N)%nat -> length u1 = N -> length u = N ->
  (forall i, (i < N)%nat ->
     tri_row (dh_b N) (dh_a N) (dh_c N) u1 i = dh_z N 1 !!! i) ->
  (forall i, (i < N)%nat ->
     tri_row (dh_b N) (dh_a N) (dh_c N) u i = dh_z N mu !!! i) ->
  u = map (Rmult mu) u1.
Proof.
  intros HN H1 Hu Hrows1 Hrows.
  apply (dh_unique N); try done; [now rewrite length_map|].
  intros i Hi. rewrite Hrows by done.
  rewrite tri_row_fun by (done || now rewrite length_map).
  rewrite (tri_fun_ext _ N _ (fun j => mu * u1 !!! j + 0 * 0) i Hi).
  2:{ intros j Hj. change (map (Rmult mu) u1) with (Rmult mu <$> u1).
      rewrite (list_lookup_total_fmap (Rmult mu) u1 j) by lia. lra. }
  rewrite tri_fun_linear.
  rewrite (dh_rows_fun N 1 u1 i H1 Hi (Hrows1 i Hi)).
  rewrite dh_z_lookup_total by done. case_decide; lra.
Qed.

(** ** Dense matrices and the fixed-point step *)

(** Two square matrices of different sides, neither 1x1, do not add. *)
Lemma np_add_mismatch (M N : matrix) :
  (2 <= length M)%nat -> (2 <= length N)%nat -> length M <> length N ->
  np_add M N = Raise ValueError.
Proof.
  intros HM HN Hne. unfold np_add. rewrite decide_False by done.
  destruct M as [|r [|r' M]]; simpl in HM; try lia.
  destruct N as [|q [|q' N]]; simpl in HN; try lia.
  destruct r as [|? [|? ?]]; destruct q as [|? [|? ?]]; reflexivity.
Qed.

Lemma np_add_same_length (M N : matrix) :
  length M = length N ->
  np_add M N = Ok (zip_with (zip_with Rplus) M N).
Proof. intros H. unfold np_add. now rewrite decide_True. Qed.

Lemma tridiag_entry_cases (b a c : list R) (i j : nat) :
  tridiag_entry b a c i j =
  if decide (i = S j) then b !!! j
  else if decide (j = i) then a !!! i
  else if decide (j = S i) then c !!! i else 0.
Proof.
  unfold tridiag_entry.
  repeat case_decide; try lia; subst;
    rewrite ?Nat.min_id; try (rewrite Nat.min_l by lia);
    try (rewrite Nat.min_r by lia); lra.
Qed.

Lemma pb_z_ext (N : nat) (mu : R) (u1 u2 : list R) :
  (forall j, (j < N)%nat -> u1 !!! j = u2 !!! j) ->
  pb_z N mu u1 = pb_z N mu u2.
Proof.
  intros H. unfold pb_z. apply map_ext_in. intros j Hj.
  apply in_seq in Hj. rewrite H by lia. reflexivity.
Qed.

Lemma zip_with_Rminus_self_replicate (z : list R) :
  zip_with Rminus z z = replicate (length z) 0.
Proof.
  apply list_eq_total.
  - now rewrite zip_with_Rminus_length, length_replicate by done.
  - rewrite zip_with_Rminus_length by done. intros i Hi.
    rewrite zip_with_Rminus_self by done.
    now rewrite lookup_total_replicate_2.
Qed.

Lemma norm_inf_zeros (n : nat) : (1 <= n)%nat -> norm_inf (replicate n 0) = Ok 0.
Proof.
  intros Hn. destruct (norm_inf_Ok (replicate n 0)) as (m & Hm & _ & i & Hi & E).
  { destruct n; [lia | done]. }
  rewrite Hm. f_equal. rewrite E.
  rewrite length_replicate in Hi.
  rewrite lookup_total_replicate_2 by done. apply Rabs_R0.
Qed.

Lemma lookup_map_seq {A} (f : nat -> A) (n i : nat) (e : A) :
  map f (seq 0 n) !! i = Some e -> (i < n)%nat /\ e = f i.
Proof.
  intros H. change (map f (seq 0 n)) with (f <$> seq 0 n) in H.
  rewrite list_lookup_fmap in H.
  destruct (seq 0 n !! i) as [k|] eqn:Ek; [|done].
  apply lookup_seq in Ek as [-> Hlt]. simpl in H. injection H as <-. done.
Qed.

(** ** The iteration at small and at sizeable mu *)

(** Both tolerances hold on the linear solution when mu is tiny. *)
Lemma initial_tolerance_tiny (N : nat) (mu : R) (u0 : list R) :
  Z.of_nat N = 1000%Z -> (2 <= N)%nat -> Rabs mu <= 5 / 10 ^ 11 ->
  length u0 = N ->
  (forall i, (i < N)%nat ->
     tri_row (dh_b N) (dh_a N) (dh_c N) u0 i = dh_z N mu !!! i) ->
  uk0_tolerance (Uk0 None u0 (dh_z N mu) u0) = Ok true.
Proof.
  intros E HN Hmu Hlu0 Hrows0.
  pose proof (step_size_1000 N E) as Eh.
  assert (0 < step_size N) as Hh by (rewrite Eh; lra).
  apply Rabs_le_between in Hmu.
  assert (10 ^ 11 = 100000000000) as E11 by (simpl; lra).
  rewrite E11 in Hmu.
  destruct (dh_lengths N mu) as (_ & _ & _ & _ & Hlz).
  assert (forall i, (i < N)%nat ->
            Rabs (dh_z N mu !!! i) <= 199 / 10000 * (5 / 100000000000))
    as Hz0.
  { intros i Hi. rewrite dh_z_lookup_total by done. rewrite Eh. case_decide.
    - apply Rabs_le. lra.
    - rewrite Rabs_R0. lra. }
  assert (forall i, (i < N)%nat -> Rabs (u0 !!! i) <= 199 * (5 / 100000000000))
    as Hu0.
  { intros i Hi.
    pose proof (tri_magnitude (step_size N) N (fun j => u0 !!! j)
                  (199 / 10000 * (5 / 100000000000)) Hh HN) as Hmag.
    eapply Rle_trans; [apply Hmag; [|done] | rewrite Eh; lra].
    intros j Hj. rewrite <- tri_row_fun, Hrows0 by done. now apply Hz0. }
  apply uk0_tolerance_true_intro; simpl.
  - destruct (dh_z N mu); simpl in *; [lia | done].
  - destruct u0; simpl in *; [lia | done].
  - intros i Hi. eapply Rle_lt_trans; [apply Hz0; lia|].
    unfold mu1. simpl. lra.
  - intros i Hi. eapply Rle_lt_trans; [apply Hu0; lia|].
    unfold mu2. simpl. lra.
Qed.

(** The first tolerance fails on the linear solution when mu is
    sizeable. *)
Lemma initial_tolerance_sizeable (N : nat) (mu : R) (u0 : list R) :
  Z.of_nat N = 1000%Z -> (2 <= N)%nat -> 6 / 10 ^ 10 <= Rabs mu ->
  uk0_tolerance (Uk0 None u0 (dh_z N mu) u0) = Ok false.
Proof.
  intros E HN Hmu.
  pose proof (step_size_1000 N E) as Eh.
  destruct (dh_lengths N mu) as (_ & _ & _ & _ & Hlz).
  apply (uk0_tolerance_false_ecart1 _ 0); simpl; [lia|].
  rewrite dh_z_lookup_total, decide_True by (done || lia). rewrite Eh.
  replace (mu * (1 / 100) * (1 / 100 - 2)) with (mu * (-199 / 10000))
    by lra.
  rewrite Rabs_mult, (Rabs_left (-199 / 10000)) by lra.
  assert (10 ^ 10 = 10000000000) as E10 by (simpl; lra).
  rewrite E10 in Hmu. unfold mu1. simpl. lra.
Qed.

(** No pass is made when mu is tiny. *)
Lemma calcul_uk0_tiny (N : nat) (mu : R) :
  Z.of_nat N = 1000%Z -> (2 <= N)%nat -> Rabs mu <= 5 / 10 ^ 11 ->
  calcul_uk0 mu = Raise UnboundLocalError.
Proof.
  intros E HN Hmu.
  destruct (calcul_uk0_start N mu E HN)
    as (u0 & A & _ & Hlu0 & Hrows0 & HA & Hinv0 & ->).
  rewrite uk0_loop_eq, decide_False by lia.
  rewrite (initial_tolerance_tiny N mu u0 E HN Hmu Hlu0 Hrows0), bind_Ok.
  reflexivity.
Qed.

(** At least one pass is made when mu is sizeable, and the function
    then returns. *)
Lemma calcul_uk0_passes (N : nat) (mu : R) :
  Z.of_nat N = 1000%Z -> (2 <= N)%nat -> 6 / 10 ^ 10 <= Rabs mu ->
  exists A s k,
    tridiag (dh_b N, dh_a N, dh_c N) = Ok A /\
    calcul_uk0 mu = Ok (dh_x N, uk_u s, k) /\ (1 <= k)%Z /\
    uk0_inv A N mu s k /\ ((k > 200)%Z \/ uk0_tolerance s = Ok true).
Proof.
  intros E HN Hmu.
  destruct (calcul_uk0_start N mu E HN)
    as (u0 & A & _ & Hlu0 & Hrows0 & HA & Hinv0 & ->).
  set (s0 := Uk0 None u0 (dh_z N mu) u0) in *.
  pose proof (initial_tolerance_sizeable N mu u0 E HN Hmu) as Htol0.
  fold s0 in Htol0.
  destruct (uk0_inv_step N mu A s0 0 HN HA Hinv0 ltac:(lia))
    as (_ & _ & s1 & Hstep & Hinv1).
  destruct (uk0_loop_run (fun s k => uk0_inv A N mu s k /\ (1 <= k)%Z)
              A (Z.of_nat N) mu) with (s := s1) (k := 1%Z)
    as (s & k & Hrun & [Hinv Hk1] & _ & Hexit).
  - intros s k [Hs Hk1] Hk.
    destruct (uk0_inv_step N mu A s k HN HA Hs Hk)
      as (t' & Ht' & s' & Hstep' & Hinv').
    exists t'. split; [done|]. intros _. exists s'.
    split; [done|]. split; [done | lia].
  - split; [done | lia].
  - exists A, s, k. split; [done|].
    rewrite uk0_loop_eq, decide_False by lia. rewrite Htol0, Hstep.
    change (0 + 1)%Z with 1%Z. rewrite Hrun, bind_Ok.
    pose proof Hinv as (_ & _ & _ & _ & _ & Hpos).
    destruct (Hpos Hk1) as (u_prev & z & Au & _ & _ & Hx & _).
    simpl. rewrite Hx. split; [done|]. split; [done|]. split; done.
Qed.

(** ** The bisection under an oracle that always answers *)

Lemma bisect_while_total (calcul : R -> result (list R * list R * Z))
    (Q : nat -> bisect_state -> Prop) :
  (forall j s, (j < 20)%nat -> bisect_inv j s -> Q j s ->
     exists s', bisect_body calcul s = Ok s' /\ Q (S j) s') ->
  forall d j s, (j + d = 20)%nat -> bisect_run calcul j = Ok s -> Q j s ->
  exists s', bisect_run calcul 20 = Ok s' /\ Q 20%nat s' /\
    forall fuel, (d < fuel)%nat ->
      while fuel bisect_cond (bisect_body calcul) s = Some (Ok s').
Proof.
  intros Hstep. induction d as [|d IH]; intros j s Hj Hrun HQ.
  - assert (j = 20)%nat as -> by lia.
    exists s. split; [done|]. split; [done|].
    intros [|fuel] Hf; [lia|]. rewrite while_S.
    rewrite (bisect_cond_spec 20) by now apply (bisect_run_inv calcul).
    now rewrite decide_False by lia.
  - pose proof (bisect_run_inv calcul j s Hrun) as Hinv.
    destruct (Hstep j s ltac:(lia) Hinv HQ) as (s1 & Hbody & HQ1).
    destruct (IH (S j) s1) as (s' & Hrun' & HQ' & Hw); [lia | | done |].
    { simpl. now rewrite Hrun, bind_Ok. }
    exists s'. split; [done|]. split; [done|].
    intros [|fuel] Hf; [lia|]. rewrite while_S.
    rewrite (bisect_cond_spec j) by done.
    rewrite decide_True by lia. rewrite Hbody. apply Hw. lia.
Qed.

Lemma find_convergence_mu_with_total
    (calcul : R -> result (list R * list R * Z))
    (Q : nat -> bisect_state -> Prop) :
  Q 0%nat (Bisect 0 7 (7 - 0) None) ->
  (forall j s, (j < 20)%nat -> bisect_inv j s -> Q j s ->
     exists s', bisect_body calcul s = Ok s' /\ Q (S j) s') ->
  exists s m, bisect_run calcul 20 = Ok s /\ bisect_inv 20 s /\
    Q 20%nat s /\ bm s = Some m /\
    forall fuel, (20 < fuel)%nat ->
      while fuel bisect_cond (bisect_body calcul) (Bisect 0 7 (7 - 0) None)
      = Some (Ok s) /\
      find_convergence_mu_with calcul fuel = Some (Ok m).
Proof.
  intros H0 Hstep.
  destruct (bisect_while_total calcul Q Hstep 20 0
              (Bisect 0 7 (7 - 0) None)) as (s & Hrun & HQ & Hw);
    [lia | done | done |].
  pose proof (bisect_run_inv calcul 20 s Hrun) as Hinv.
  pose proof Hinv as (_ & _ & _ & _ & _ & Hm).
  destruct Hm as (m & Hm & _); [lia|].
  exists s, m. split; [done|]. split; [done|]. split; [done|].
  split; [done|].
  intros fuel Hf. split; [now apply Hw|].
  unfold find_convergence_mu_with.
  rewrite (Hw fuel Hf). now rewrite Hm.
Qed.

Lemma bisect_body_Ok (calcul : R -> result (list R * list R * Z))
    (s : bisect_state) (x u : list R) (k : Z) :
  calcul ((debut s + fin s) / 2) = Ok (x, u, k) ->
  bisect_body calcul s =
  Ok (if decide (k > 200)%Z
      then Bisect (debut s) ((debut s + fin s) / 2)
             ((debut s + fin s) / 2 - debut s) (Some ((debut s + fin s) / 2))
      else Bisect ((debut s + fin s) / 2) (fin s)
             (fin s - (debut s + fin s) / 2) (Some ((debut s + fin s) / 2))).
Proof.
  intros H. unfold bisect_body. cbv zeta. rewrite H, bind_Ok.
  cbv beta iota. now case_decide.
Qed.

Lemma bisect_width_20 (j : nat) : (j <= 20)%nat -> 7 / 2 ^ 20 <= 7 / 2 ^ j.
Proof.
  intros Hj.
  assert (2 ^ j <= 2 ^ 20) as Hle by (apply Rle_pow; [lra | lia]).
  pose proof (pow2_pos j) as Hpos. pose proof (pow2_pos 20) as Hpos20.
  unfold Rdiv. apply Rmult_le_compat_l; [lra|].
  now apply Rinv_le_contravar.
Qed.

(** The midpoint of the bracket left by [j < 20] passes is away from
    both ends of [0, 7], and [calcul_uk0] answers there. *)
Lemma bisect_midpoint_answered (N j : nat) (s : bisect_state) :
  Z.of_nat N = 1000%Z -> (2 <= N)%nat -> (j < 20)%nat -> bisect_inv j s ->
  7 / 2 ^ S j <= (debut s + fin s) / 2 <= 7 - 7 / 2 ^ S j /\
  7 / 2 ^ 20 <= (debut s + fin s) / 2 /\
  exists x u k,
    calcul_uk0 ((debut s + fin s) / 2) = Ok (x, u, k) /\ (1 <= k <= 201)%Z.
Proof.
  intros E HN Hj (H0 & Hle & H7 & He & Hw & _).
  set (m := (debut s + fin s) / 2).
  pose proof (pow2_pos j) as Hpos.
  assert (7 / 2 ^ S j = 7 / 2 ^ j / 2) as Hhalf by (simpl; field; lra).
  assert (7 / 2 ^ S j <= m <= 7 - 7 / 2 ^ S j) as Hm.
  { rewrite Hhalf, <- Hw, He. unfold m. lra. }
  pose proof (bisect_width_20 (S j) ltac:(lia)) as H20.
  split; [done|]. split; [lra|].
  assert (2 ^ 20 = 1048576) as E20 by (simpl; lra).
  rewrite E20 in H20.
  destruct (calcul_uk0_passes N m E HN)
    as (A & s1 & k & _ & Hcal & Hk1 & (Hk & _) & _).
  { rewrite Rabs_pos_eq by lra.
    assert (10 ^ 10 = 10000000000) as E10 by (simpl; lra).
    rewrite E10. lra. }
  exists (dh_x N), (uk_u s1), k. split; [done | lia].
Qed.

(** * The claims *)

(** C1.  For a tridiagonal matrix given by its diagonal [a] (length n),
    sub-diagonal [b] and super-diagonal [c] (length n-1), whose
    factorisation [lutri a b c] returns factors [(l, v)] with every pivot
    [v[i]] nonzero, and for every right-hand side [z] of length n,
    [descente] then [remontee] return a vector [x], and the dense matrix
    [tridiag (b, a, c)] times [x] is exactly [z]. *)
Theorem lu_solve_correct (a b c z l v : list R) :
  length a = S (length b) -> length a = S (length c) ->
  length z = length a ->
  lutri a b c = Ok (l, v) ->
  Forall (fun p => p <> 0) v ->
  exists y x A,
    descente l z = Ok y /\ remontee v c y = Ok x /\
    tridiag (b, a, c) = Ok A /\ np_dot A x = Ok z.
Proof.
  intros Hb Hc Hz Hlu Hnz.
  apply lutri_Ok_rel in Hlu.
  pose proof Hlu as (Hlv & Hll & _).
  assert (forall k, (k < length a)%nat -> v !!! k <> 0) as Hpiv.
  { intros k Hk. rewrite <- Hlv in Hk.
    eapply Forall_lookup_total_1 in Hnz; [exact Hnz | exact Hk]. }
  assert (z <> []) as Hz0 by (destruct z; simpl in *; [lia | done]).
  destruct (descente_Ok l z) as (y & Hy & Hfw); [done | lia |].
  pose proof Hfw as (Hly & _).
  destruct (remontee_Ok v c y) as (x & Hx & Hbw).
  { destruct y; simpl in *; [lia | done]. }
  { lia. } { lia. }
  { intros k Hk. apply Hpiv. lia. }
  pose proof Hbw as (Hlx & _).
  destruct (tridiag_dot b a c x) as (A & HA & Hdot); [done | done | lia |].
  exists y, x, A. repeat split; try done.
  rewrite Hdot. f_equal. rewrite <- Hz.
  apply map_seq_lookup_total. intros i Hi.
  apply (thomas_row a b c z l v y x); try done. lia.
Qed.

(** C1 at the fixture of [main] with right-hand side [1, 2, 3, 4, 5]. *)
Lemma lu_solve_correct_witness :
  exists y x A,
    descente [2; -1; -2; 1] [1; 2; 3; 4; 5] = Ok y /\
    remontee [-2; 3; 1; 2; -3] [1; 2; -1; 1] y = Ok x /\
    tridiag ([-4; -3; -2; 2], [-2; 5; -1; 4; -2], [1; 2; -1; 1]) = Ok A /\
    np_dot A x = Ok [1; 2; 3; 4; 5].
Proof.
  apply (lu_solve_correct [-2; 5; -1; 4; -2] [-4; -3; -2; 2] [1; 2; -1; 1]).
  - reflexivity.
  - reflexivity.
  - reflexivity.
  - exact lutri_fixture_eval.
  - repeat constructor; lra.
Defined.

(** C8.  On the fixture sub = [-4, -3, -2, 2], diag = [-2, 5, -1, 4, -2],
    sup = [1, 2, -1, 1], [lutri] returns exactly l = [2, -1, -2, 1] and
    v = [-2, 3, 1, 2, -3]. *)
Theorem lutri_reference_fixture :
  lutri [-2; 5; -1; 4; -2] [-4; -3; -2; 2] [1; 2; -1; 1]
  = Ok ([2; -1; -2; 1], [-2; 3; 1; 2; -3]).
Proof. exact lutri_fixture_eval. Qed.

(** C7.  [find_convergence_mu] terminates whatever its oracle answers.
    From the bracket [0, 7], after [j] passes of the loop body the
    bracket satisfies 0 <= debut <= fin <= 7 and its width is 7 / 2^j;
    each pass moves either the upper or the lower bound to the midpoint;
    the loop test holds exactly while fewer than 20 passes are done, that
    is while the width exceeds 10e-6.  The loop of the function makes
    exactly these passes: with more than 20 units of fuel its [while]
    ends in the state after 20 passes (or in the exception of the pass
    whose oracle call raised), and the function returns the midpoint of
    the twentieth pass.  So the function returns, either a value in
    [0, 7], which is the midpoint of the bracket left by 19 passes, or
    an exception that the oracle raised. *)
Theorem find_convergence_mu_terminates
    (calcul : R -> result (list R * list R * Z)) :
  (forall j s, bisect_run calcul j = Ok s ->
     0 <= debut s /\ debut s <= fin s /\ fin s <= 7 /\
     ecart s = fin s - debut s /\ ecart s = 7 / 2 ^ j /\
     bisect_cond s = Ok (if decide (j < 20)%nat then true else false) /\
     (bisect_cond s = Ok true <-> ecart s > 10 / 10 ^ 6)) /\
  (forall j s s', bisect_run calcul j = Ok s ->
     bisect_body calcul s = Ok s' ->
     ecart s' = ecart s / 2 /\
     ((debut s' = debut s /\ fin s' = (debut s + fin s) / 2) \/
      (debut s' = (debut s + fin s) / 2 /\ fin s' = fin s))) /\
  (forall fuel, (20 < fuel)%nat ->
     while fuel bisect_cond (bisect_body calcul) (Bisect 0 7 (7 - 0) None)
     = Some (bisect_run calcul 20) /\
     find_convergence_mu_with calcul fuel
     = Some (s ← bisect_run calcul 20;
             match bm s with
             | Some m => Ok m
             | None => Raise UnboundLocalError
             end)) /\
  exists r,
    (forall fuel, (20 < fuel)%nat ->
       find_convergence_mu_with calcul fuel = Some r) /\
    match r with
    | Ok m =>
        0 <= m <= 7 /\
        exists s19 s20,
          bisect_run calcul 19 = Ok s19 /\
          bisect_body calcul s19 = Ok s20 /\
          bisect_run calcul 20 = Ok s20 /\
          m = (debut s19 + fin s19) / 2 /\
          ecart s19 > 10 / 10 ^ 6 /\ ~ ecart s20 > 10 / 10 ^ 6
    | Raise e => exists mu, calcul mu = Raise e
    end.
Proof.
  split; [|split; [|split]].
  - intros j s Hrun. pose proof (bisect_run_inv _ _ _ Hrun) as Hinv.
    pose proof Hinv as (H0 & Hle & H7 & He & Hw & _).
    repeat split; try done.
    + now apply bisect_cond_spec.
    + unfold bisect_cond. destruct (Rgt_dec _ _); [done | discriminate].
    + unfold bisect_cond. destruct (Rgt_dec _ _); [done | contradiction].
  - intros j s s' Hrun Hbody.
    pose proof (bisect_run_inv _ _ _ Hrun) as (_ & _ & _ & He & _).
    apply bisect_body_Ok_inv in Hbody as (_ & He' & Hcase).
    split; [|done]. rewrite He', He.
    destruct Hcase as [[-> ->]|[-> ->]]; lra.
  - intros fuel Hf.
    pose proof (bisect_while_exact calcul 20 0 (Bisect 0 7 (7 - 0) None)
                  ltac:(lia) eq_refl fuel Hf) as Hw.
    split; [exact Hw|].
    unfold find_convergence_mu_with. rewrite Hw.
    destruct (bisect_run calcul 20) as [s|e]; [|reflexivity].
    rewrite bind_Ok. now destruct (bm s).
  - destruct (bisect_while calcul 20 0 (Bisect 0 7 (7 - 0) None))
      as (r & Hr & Hgood); [lia | done |].
    destruct r as [s|e].
    + pose proof Hgood as Hrun20.
      apply bisect_run_inv in Hgood as (_ & _ & _ & _ & Hw20 & Hm).
      destruct Hm as (m & Hm & Hrange); [lia|].
      exists (Ok m). split.
      { intros fuel Hf. unfold find_convergence_mu_with.
        now rewrite Hr, Hm by done. }
      split; [done|].
      pose proof Hrun20 as Hrun20'.
      rewrite (bisect_run_S calcul 19) in Hrun20'.
      apply bind_Ok_inv in Hrun20' as (s19 & Hrun19 & Hbody).
      exists s19, s. split; [done|]. split; [done|]. split; [done|].
      pose proof (bisect_run_inv _ _ _ Hrun19) as (_ & _ & _ & _ & Hw19 & _).
      pose proof (bisect_body_Ok_inv _ _ _ Hbody) as (Hm' & _).
      rewrite Hm in Hm'. injection Hm' as ->.
      split; [done|]. rewrite Hw19, Hw20. split.
      * apply bisect_width_large. lia.
      * apply bisect_width_small. lia.
    + exists (Raise e). split.
      * intros fuel Hf. unfold find_convergence_mu_with. now rewrite Hr by done.
      * destruct Hgood as (j & s & _ & _ & Hbody).
        exists ((debut s + fin s) / 2).
        unfold bisect_body in Hbody.
        destruct (calcul _) as [[[xs us] k]|e']; [|now injection Hbody as ->].
        rewrite bind_Ok in Hbody. case_decide; discriminate.
Qed.

(** C2.  For every integer n >= 2 and every real mu, with h = 10/n and
    x_i = 1 + i h, [solve_debye_huckel] assembles: main diagonal
    a[i] = -(2 + h^2) for all i; interior rows i = 1..n-2 with
    b[i-1] = 1 - h/(2 x_i), c[i] = 1 + h/(2 x_i), z[i] = 0; row 0 with
    c[0] = 2 and z[0] = mu h (h - 2); row n-1 with
    b[n-2] = 1 - h/(2 x_(n-1)) and z[n-1] = 0; and it returns the
    coordinate vector x of length n with x[i] = 1 + i h. *)
Theorem debye_huckel_assembly (n : Z) (mu : R) :
  (2 <= n)%Z ->
  let h := 10 / IZR n in
  let N := Z.to_nat n in
  exists x b a c z u,
    assemble_debye_huckel n mu = Ok (x, b, a, c, z) /\
    solve_debye_huckel n mu = Ok (x, u, (b, a, c)) /\
    length x = N /\
    (forall i, (i < N)%nat -> x !! i = Some (1 + IZR (Z.of_nat i) * h)) /\
    a = replicate N (- (2 + h ^ 2)) /\
    (forall i, (1 <= i <= N - 2)%nat ->
       b !! (i - 1)%nat = Some (1 - h / (2 * (1 + IZR (Z.of_nat i) * h))) /\
       c !! i = Some (1 + h / (2 * (1 + IZR (Z.of_nat i) * h))) /\
       z !! i = Some 0) /\
    c !! 0%nat = Some 2 /\
    z !! 0%nat = Some (mu * h * (h - 2)) /\
    b !! (N - 2)%nat = Some (1 - h / (2 * (1 + IZR (n - 1) * h))) /\
    z !! (N - 1)%nat = Some 0.
Proof.
  intros Hn h N.
  assert (n = Z.of_nat N) as En by (unfold N; lia).
  assert (2 <= N)%nat as HN by lia.
  assert (h = step_size N) as Eh by (unfold h, step_size; now rewrite <- En).
  destruct (solve_debye_huckel_Ok N mu HN) as (u & Hsolve & _).
  exists (dh_x N), (dh_b N), (dh_a N), (dh_c N), (dh_z N mu), u.
  rewrite En, Eh.
  split; [now apply assemble_debye_huckel_Ok|].
  split; [done|].
  split; [apply dh_lengths; exact mu|].
  split.
  { intros i Hi. now rewrite dh_x_lookup by done. }
  split; [done|].
  split.
  { intros i Hi. repeat split.
    - rewrite dh_b_lookup_Some by lia.
      unfold coef_b, grid_x. now replace (S (i - 1)) with i by lia.
    - rewrite dh_c_lookup_Some by lia.
      unfold coef_c, grid_x. now rewrite decide_False by lia.
    - rewrite dh_z_lookup by lia. now rewrite decide_False by lia. }
  split.
  { now rewrite dh_c_lookup_Some by lia. }
  split.
  { now rewrite dh_z_lookup by lia. }
  split.
  { rewrite dh_b_lookup_Some by lia.
    unfold coef_b, grid_x.
    now replace (Z.of_nat (S (N - 2))) with (Z.of_nat N - 1)%Z by lia. }
  rewrite dh_z_lookup by lia. now rewrite decide_False by lia.
Qed.

(** C2 at n = 3, mu = 1. *)
Lemma debye_huckel_assembly_witness :
  let h := 10 / IZR 3 in
  let N := Z.to_nat 3 in
  exists x b a c z u,
    assemble_debye_huckel 3 1 = Ok (x, b, a, c, z) /\
    solve_debye_huckel 3 1 = Ok (x, u, (b, a, c)) /\
    length x = N /\
    (forall i, (i < N)%nat -> x !! i = Some (1 + IZR (Z.of_nat i) * h)) /\
    a = replicate N (- (2 + h ^ 2)) /\
    (forall i, (1 <= i <= N - 2)%nat ->
       b !! (i - 1)%nat = Some (1 - h / (2 * (1 + IZR (Z.of_nat i) * h))) /\
       c !! i = Some (1 + h / (2 * (1 + IZR (Z.of_nat i) * h))) /\
       z !! i = Some 0) /\
    c !! 0%nat = Some 2 /\
    z !! 0%nat = Some (1 * h * (h - 2)) /\
    b !! (N - 2)%nat = Some (1 - h / (2 * (1 + IZR (3 - 1) * h))) /\
    z !! (N - 1)%nat = Some 0.
Proof. apply (debye_huckel_assembly 3 1). lia. Defined.

(** C4.  For every iterate u of length n >= 2 and every real mu, the
    tridiagonal matrix (b, a, c) assembled by [solve_poisson_boltzmann]
    is the one assembled by [solve_debye_huckel] for the same n, whatever
    u and mu are; only the right-hand side differs, with
    z[i] = h^2 (sinh(u[i]) - u[i]) at every row plus mu h (h - 2) at
    row 0. *)
Theorem poisson_boltzmann_same_matrix (n : Z) (mu : R) (u : list R) :
  (2 <= n)%Z -> length u = Z.to_nat n ->
  let h := 10 / IZR n in
  exists x b a c z u',
    assemble_poisson_boltzmann u n mu = Ok (x, b, a, c, z) /\
    solve_poisson_boltzmann u n mu = Ok (x, u', z) /\
    (forall mu', exists z',
       assemble_debye_huckel n mu' = Ok (x, b, a, c, z')) /\
    (forall u2 mu2, length u2 = Z.to_nat n -> exists z2,
       assemble_poisson_boltzmann u2 n mu2 = Ok (x, b, a, c, z2)) /\
    length z = Z.to_nat n /\
    forall i ui, u !! i = Some ui ->
      z !! i = Some (h ^ 2 * (sinh ui - ui)
                     + (if decide (i = 0)%nat then mu * h * (h - 2) else 0)).
Proof.
  intros Hn Hu h. set (N := Z.to_nat n) in *.
  assert (n = Z.of_nat N) as En by (unfold N; lia).
  assert (2 <= N)%nat as HN by lia.
  assert (h = step_size N) as Eh by (unfold h, step_size; now rewrite <- En).
  destruct (solve_poisson_boltzmann_Ok N mu u HN ltac:(lia)) as (u' & Hsolve & _).
  exists (dh_x N), (dh_b N), (dh_a N), (dh_c N), (pb_z N mu u), u'.
  rewrite En, Eh.
  split; [apply assemble_poisson_boltzmann_Ok; [done | lia]|].
  split; [done|].
  split.
  { intros mu'. exists (dh_z N mu'). now apply assemble_debye_huckel_Ok. }
  split.
  { intros u2 mu2 Hu2. exists (pb_z N mu2 u2).
    apply assemble_poisson_boltzmann_Ok; [done | lia]. }
  split; [apply pb_z_length|].
  intros i ui Hi.
  assert (i < N)%nat as HiN by (apply lookup_lt_Some in Hi; lia).
  unfold pb_z.
  rewrite (tabulates_lookup _ N _ i (tabulates_map N _) HiN).
  rewrite (list_lookup_total_correct _ _ _ Hi). reflexivity.
Qed.

(** C4 at n = 2, mu = 1, u = [1, 2]. *)
Lemma poisson_boltzmann_same_matrix_witness :
  let h := 10 / IZR 2 in
  exists x b a c z u',
    assemble_poisson_boltzmann [1; 2] 2 1 = Ok (x, b, a, c, z) /\
    solve_poisson_boltzmann [1; 2] 2 1 = Ok (x, u', z) /\
    (forall mu', exists z',
       assemble_debye_huckel 2 mu' = Ok (x, b, a, c, z')) /\
    (forall u2 mu2, length u2 = Z.to_nat 2 -> exists z2,
       assemble_poisson_boltzmann u2 2 mu2 = Ok (x, b, a, c, z2)) /\
    length z = Z.to_nat 2 /\
    forall i ui, [1; 2] !! i = Some ui ->
      z !! i = Some (h ^ 2 * (sinh ui - ui)
                     + (if decide (i = 0)%nat then 1 * h * (h - 2) else 0)).
Proof. apply (poisson_boltzmann_same_matrix 2 1 [1; 2]); [lia | reflexivity]. Defined.

(** C10, counterexample.  With n = 1 the super-diagonal is the empty
    list and the assignment [c[0] = 2] raises. *)
Lemma solve_debye_huckel_one_point : solve_debye_huckel 1 0 = Raise IndexError.
Proof.
  unfold solve_debye_huckel, assemble_debye_huckel.
  rewrite py_div_Ok, bind_Ok by lra. reflexivity.
Qed.

(** C10, amended.  For every integer n >= 2 and every real mu,
    [solve_debye_huckel] completes without error and returns a coordinate
    vector x of length n, a solution vector u of length n, and diagonals
    (sub, diag, sup) of lengths n-1, n, n-1. *)
Theorem solve_debye_huckel_total (n : Z) (mu : R) :
  (2 <= n)%Z ->
  exists x u sub diag sup,
    solve_debye_huckel n mu = Ok (x, u, (sub, diag, sup)) /\
    length x = Z.to_nat n /\ length u = Z.to_nat n /\
    length sub = Z.to_nat (n - 1) /\ length diag = Z.to_nat n /\
    length sup = Z.to_nat (n - 1).
Proof.
  intros Hn. set (N := Z.to_nat n).
  assert (n = Z.of_nat N) as En by (unfold N; lia).
  assert (2 <= N)%nat as HN by lia.
  destruct (solve_debye_huckel_Ok N mu HN) as (u & Hsolve & Hlu & _).
  destruct (dh_lengths N mu) as (Hx & Ha & Hb & Hc & _).
  exists (dh_x N), u, (dh_b N), (dh_a N), (dh_c N).
  rewrite En. repeat split; try done; lia.
Qed.

(** C10, amended, at n = 2, mu = 1. *)
Lemma solve_debye_huckel_total_witness :
  exists x u sub diag sup,
    solve_debye_huckel 2 1 = Ok (x, u, (sub, diag, sup)) /\
    length x = Z.to_nat 2 /\ length u = Z.to_nat 2 /\
    length sub = Z.to_nat (2 - 1) /\ length diag = Z.to_nat 2 /\
    length sup = Z.to_nat (2 - 1).
Proof. apply (solve_debye_huckel_total 2 1). lia. Defined.




(** C5, counterexample.  With mu = 10^8 the fixed-point iterates never
    meet the tolerance and [calcul_uk0] returns k = 201, above 200. *)
Lemma calcul_uk0_returns_201 :
  exists x u, calcul_uk0 100000000 = Ok (x, u, 201%Z).
Proof. apply (calcul_uk0_capped_run 1000); [reflexivity | lia]. Qed.

(** C5, amended.  For every real mu, [calcul_uk0] terminates: either it
    returns an iteration count k with 1 <= k <= 201 (the loop stops on
    k > 200, so a capped run returns 201), together with vectors x and u
    of length 1000, or no pass of the loop was made and the unbound
    local [x] raises UnboundLocalError. *)
Theorem calcul_uk0_terminates (mu : R) :
  (exists x u k, calcul_uk0 mu = Ok (x, u, k) /\ (1 <= k <= 201)%Z /\
     length x = 1000%nat /\ length u = 1000%nat) \/
  calcul_uk0 mu = Raise UnboundLocalError.
Proof.
  remember 1000%nat as N eqn:EN.
  assert (Z.of_nat N = 1000%Z) as E by (subst N; reflexivity).
  assert (2 <= N)%nat as HN by (subst N; lia). clear EN.
  destruct (calcul_uk0_start N mu E HN)
    as (u0 & A & _ & _ & _ & HA & Hinv0 & ->).
  destruct (calcul_uk0_loop N mu A u0 HN HA Hinv0) as (s & k & -> & Hinv & _).
  rewrite bind_Ok. simpl.
  destruct Hinv as (Hk & Hu & _ & _ & Hzero & Hpos).
  destruct (decide (k = 0)%Z) as [Hk0|Hk0].
  - right. now rewrite (Hzero Hk0).
  - left. destruct Hpos as (u_prev & z & Au & _ & _ & -> & _); [lia|].
    exists (dh_x N), (uk_u s), k. repeat split; try done; try lia.
    apply (dh_lengths N 0).
Qed.

(** The second outcome does occur: with mu = 0 no pass is made. *)
Lemma calcul_uk0_zero_unbound : calcul_uk0 0 = Raise UnboundLocalError.
Proof. apply (calcul_uk0_no_pass 1000); [reflexivity | lia]. Qed.

(** C6.  Whenever [calcul_uk0] returns without hitting the iteration cap
    (k <= 200), the returned iterate u is the result of a fixed-point
    step from some previous iterate u_prev with right-hand side z, and it
    meets both tolerances with the values 1e-11 and 1e-8:
    ||A u - z|| < 1e-11 and ||u - u_prev|| < 1e-8 in the maximum norm,
    where A is the matrix of the linear problem built at initialisation. *)
Theorem calcul_uk0_converged_tolerance (mu : R) (x u : list R) (k : Z) :
  calcul_uk0 mu = Ok (x, u, k) -> (k <= 200)%Z ->
  exists x0 u0 diags A u_prev z Au ecart1 ecart2 n1 n2,
    solve_debye_huckel 1000 mu = Ok (x0, u0, diags) /\
    tridiag diags = Ok A /\
    solve_poisson_boltzmann u_prev 1000 mu = Ok (x, u, z) /\
    np_dot A u = Ok Au /\ np_sub Au z = Ok ecart1 /\
    norm_inf ecart1 = Ok n1 /\ n1 < 1 / 10 ^ 11 /\
    np_sub u u_prev = Ok ecart2 /\
    norm_inf ecart2 = Ok n2 /\ n2 < 1 / 10 ^ 8.
Proof.
  intros Hret Hk.
  assert (exists N, Z.of_nat N = 1000%Z /\ (2 <= N)%nat) as (N & E & HN)
    by (exists 1000%nat; split; [reflexivity | lia]).
  rewrite <- E.
  destruct (calcul_uk0_start N mu E HN)
    as (u0 & A & Hdh & _ & _ & HA & Hinv0 & Hcalc).
  destruct (calcul_uk0_loop N mu A u0 HN HA Hinv0)
    as (s & k' & Hloop & Hinv & Hexit).
  rewrite Hcalc, Hloop, bind_Ok in Hret. simpl in Hret.
  destruct Hinv as (Hk' & _ & _ & _ & Hzero & Hpos).
  destruct (decide (k' = 0)%Z) as [Hk0|Hk0].
  { rewrite (Hzero Hk0) in Hret. discriminate. }
  destruct Hpos as (u_prev & z & Au & _ & Hsolve & Hx & Hdot & He1 & He2); [lia|].
  rewrite Hx in Hret. injection Hret as <- <- <-.
  destruct Hexit as [Hcap|Htol]; [lia|].
  apply uk0_tolerance_true in Htol as (n1 & n2 & Hn1 & H1 & Hn2 & H2).
  rewrite mu1_value in H1. rewrite mu2_value in H2.
  exists (dh_x N), u0, (dh_b N, dh_a N, dh_c N), A, u_prev, z, Au,
    (uk_ecart1 s), (uk_ecart2 s), n1, n2.
  repeat split; done.
Qed.

(** C6 at mu = 10^-9, where the run converges after one pass. *)
Lemma calcul_uk0_converged_tolerance_witness :
  exists x u,
    calcul_uk0 (1 / 1000000000) = Ok (x, u, 1%Z) /\
    exists x0 u0 diags A u_prev z Au ecart1 ecart2 n1 n2,
      solve_debye_huckel 1000 (1 / 1000000000) = Ok (x0, u0, diags) /\
      tridiag diags = Ok A /\
      solve_poisson_boltzmann u_prev 1000 (1 / 1000000000) = Ok (x, u, z) /\
      np_dot A u = Ok Au /\ np_sub Au z = Ok ecart1 /\
      norm_inf ecart1 = Ok n1 /\ n1 < 1 / 10 ^ 11 /\
      np_sub u u_prev = Ok ecart2 /\
      norm_inf ecart2 = Ok n2 /\ n2 < 1 / 10 ^ 8.
Proof.
  destruct (calcul_uk0_converged_run 1000 eq_refl ltac:(lia)) as (x & u & Hrun).
  exists x, u. split; [exact Hrun|].
  apply (calcul_uk0_converged_tolerance (1 / 1000000000) x u 1 Hrun). lia.
Defined.

(** ** The Newton assembler *)

Lemma newton_row_Ok (h : R) (N i : nat) (mu : R) (u : list R)
    (s : list R * list R * list R * list R) :
  0 < h -> (1 <= i)%nat -> (S i < N)%nat -> (N <= length u)%nat ->
  newton_inv h N mu u (Z.of_nat i) s ->
  exists s', newton_row u h (Z.of_nat i) s = Ok s' /\
    newton_inv h N mu u (Z.of_nat i + 1) s'.
Proof.
  intros Hh H1 HN Hu. destruct s as [[[x b] c] F]. intros (Hg & Hc0 & HF).
  pose proof Hg as ([Hlx _] & [Hlb _] & [Hlc _]).
  rewrite length_insert in Hlc. pose proof HF as [HlF _].
  unfold newton_row.
  assert (2 * grid_x h (Z.of_nat i) <> 0) as Hnz
    by (pose proof (grid_x_pos h (Z.of_nat i) Hh ltac:(lia)); lra).
  rewrite py_div_Ok, !bind_Ok by done.
  rewrite setitem_pred, bind_Ok by lia.
  rewrite (setitem_lt c), bind_Ok by lia.
  replace (Z.of_nat i - 1)%Z with (Z.of_nat (i - 1)) by lia.
  rewrite (getitem_lt u (i - 1)), bind_Ok by lia.
  rewrite (getitem_lt u i), !bind_Ok by lia.
  replace (Z.of_nat i + 1)%Z with (Z.of_nat (S i)) by lia.
  rewrite (getitem_lt u (S i)), bind_Ok by lia.
  rewrite (setitem_lt F), bind_Ok by lia.
  rewrite (setitem_lt x), bind_Ok by lia.
  eexists. split; [reflexivity|].
  replace (Z.of_nat (S i)) with (Z.of_nat i + 1)%Z by lia.
  split; [|split].
  - rewrite (list_insert_insert_ne c 0 i) by lia. now apply grid_inv_step.
  - now rewrite list_lookup_total_insert_ne by lia.
  - eapply tabulates_ext; [apply tabulates_insert; [exact HF | lia]|].
    intros j Hj. simpl.
    replace (Z.to_nat (Z.of_nat i + 1)) with (S i) by lia.
    rewrite Nat2Z.id.
    repeat case_decide; subst; try lia; try done.
    destruct i as [|k]; [lia|]. unfold newton_F_entry.
    rewrite decide_True by lia. unfold coef_b, coef_c.
    rewrite decide_False by lia.
    replace (S k - 1)%nat with k by lia. reflexivity.
Qed.

(** What [assemble_newton] returns on [N >= 2] points. *)
Lemma assemble_newton_Ok (N : nat) (mu : R) (u : list R) :
  (2 <= N)%nat -> (N <= length u)%nat ->
  assemble_newton u (Z.of_nat N) mu
  = Ok (dh_x N, dh_b N, newton_a N u, newton_c N, newton_F N mu u).
Proof.
  intros HN Hu. unfold assemble_newton.
  pose proof (step_size_pos (Z.of_nat N) ltac:(lia)) as Hh.
  assert (IZR (Z.of_nat N) <> 0) as HnR by (apply not_0_IZR; lia).
  rewrite py_div_Ok, bind_Ok by done.
  fold (step_size N) in *. set (h := step_size N) in *.
  unfold py_replicate.
  replace (Z.to_nat (Z.of_nat N - 1)) with (N - 1)%nat by lia.
  rewrite Nat2Z.id.
  rewrite getitem_head, !bind_Ok by (destruct u; simpl in *; [lia | done]).
  change (getitem u 1) with (getitem u (Z.of_nat 1)).
  rewrite (getitem_lt u 1), bind_Ok by lia.
  rewrite setitem_head, bind_Ok by (destruct N; simpl; [lia | done]).
  destruct (for_range_ok (newton_inv h N mu u) (newton_row u h)
    1 (Z.of_nat N - 1)
    (replicate N 1, replicate (N - 1) 0, replicate (N - 1) 0,
     <[0%nat := - 2 * u !!! 0%nat - h ^ 2 * sinh (u !!! 0%nat)
                + 2 * u !!! 1%nat + mu * h * (2 - h)]> (replicate N 0)))
    as ([[[x b] c] F] & -> & Hinv & Hc0 & HF).
  - lia.
  - split; [now apply grid_inv_init|]. split.
    + apply lookup_total_replicate_2. lia.
    + eapply tabulates_ext;
        [apply tabulates_insert; [apply tabulates_replicate | lia]|].
      intros j Hj. simpl.
      repeat case_decide; subst; try lia; done.
  - intros i s Hi Hinv.
    assert (i = Z.of_nat (Z.to_nat i)) as Ei by lia. rewrite Ei in Hinv |- *.
    apply (newton_row_Ok h N); try done; lia.
  - rewrite bind_Ok.
    pose proof Hinv as ([Hlx _] & [Hlb _] & [Hlc _]).
    rewrite length_insert in Hlc. pose proof HF as [HlF _].
    apply grid_inv_final in Hinv as (Hx & Hb & Hc); [|done].
    assert (2 * grid_x h (Z.of_nat N - 1) <> 0) as Hnz
      by (pose proof (grid_x_pos h (Z.of_nat N - 1) Hh ltac:(lia)); lra).
    rewrite py_div_Ok, bind_Ok by done.
    replace (Z.of_nat N - 2)%Z with (Z.of_nat (N - 2)) by lia.
    rewrite (setitem_lt b), bind_Ok by lia.
    rewrite (getitem_lt u (N - 2)), bind_Ok by lia.
    replace (Z.of_nat N - 1)%Z with (Z.of_nat (N - 1)) by lia.
    rewrite (getitem_lt u (N - 1)), !bind_Ok by lia.
    rewrite (setitem_lt F), bind_Ok by lia.
    rewrite (setitem_lt x), bind_Ok by lia.
    replace (Z.of_nat (N - 1)) with (Z.of_nat N - 1)%Z in * by lia.
    assert (tabulates c (N - 1)
              (fun j => if decide (j = 0)%nat then 0 else coef_c h j)) as Hc'.
    { split; [done|]. intros j Hj. case_decide as Hj0; [now subst|].
      destruct Hc as [_ Hc]. rewrite <- Hc by done.
      now rewrite list_lookup_total_insert_ne by lia. }
    assert (tabulates
              (<[(N - 1)%nat :=
                   (1 - h / (2 * grid_x h (Z.of_nat N - 1))) * u !!! (N - 2)%nat
                   - 2 * u !!! (N - 1)%nat
                   - h ^ 2 * sinh (u !!! (N - 1)%nat)]> F) N
              (newton_F_entry h N mu u)) as HF'.
    { eapply tabulates_ext; [apply tabulates_insert; [exact HF | lia]|].
      intros j Hj. simpl.
      replace (Z.to_nat (Z.of_nat N - 1)) with (N - 1)%nat by lia.
      repeat case_decide; try subst j; try lia; try done.
      destruct N as [|[|M]]; try lia. simpl.
      replace (M - 0)%nat with M by lia.
      rewrite decide_False by lia. unfold coef_b.
      replace (Z.of_nat (S (S M)) - 1)%Z with (Z.of_nat (S M)) by lia. lra. }
    unfold dh_x, dh_b, newton_a, newton_c, newton_F. fold h.
    now rewrite (tabulates_eq _ _ _ Hx), (tabulates_eq _ _ _ Hb),
      (tabulates_eq _ _ _ Hc'), (tabulates_eq _ _ _ HF').
Qed.

Lemma newton_F_lookup (N : nat) (mu : R) (u : list R) (i : nat) :
  (i < N)%nat ->
  newton_F N mu u !!! i = newton_F_entry (step_size N) N mu u i.
Proof. intros Hi. unfold newton_F. now apply (tabulates_map N). Qed.

Lemma newton_lengths (N : nat) (mu : R) (u : list R) :
  length (newton_a N u) = length u /\ length (newton_c N) = (N - 1)%nat /\
  length (newton_F N mu u) = N.
Proof.
  unfold newton_a, newton_c, newton_F.
  now rewrite !length_map, !length_seq.
Qed.

(** [F] is the residual of the fixed-point equation at [u]. *)
Lemma newton_F_residual (N : nat) (mu : R) (u : list R) (i : nat) :
  (2 <= N)%nat -> length u = N -> (i < N)%nat ->
  newton_F N mu u !!! i
  = tri_row (dh_b N) (dh_a N) (dh_c N) u i - pb_z N mu u !!! i.
Proof.
  intros HN Hu Hi.
  rewrite newton_F_lookup, pb_z_lookup by done.
  unfold tri_row, newton_F_entry, g. rewrite Hu, dh_a_lookup by done.
  destruct i as [|k].
  - rewrite !decide_True by (done || lia).
    rewrite dh_c_lookup by lia. unfold coef_c. rewrite decide_True by done.
    lra.
  - rewrite dh_b_lookup by lia.
    repeat case_decide; try lia; rewrite ?dh_c_lookup by lia; lra.
Qed.

Lemma newton_c_insert (N : nat) :
  (2 <= N)%nat -> newton_c N = <[0%nat := 0]> (dh_c N).
Proof.
  intros HN. destruct (dh_lengths N 0) as (_ & _ & _ & Hlc & _).
  destruct (newton_lengths N 0 []) as (_ & Hlc' & _).
  apply list_eq_total; [now rewrite length_insert, Hlc, Hlc'|].
  rewrite Hlc'. intros i Hi.
  unfold newton_c at 1. rewrite (proj2 (tabulates_map (N - 1) _)) by done.
  case_decide as Hi0.
  - subst i. now rewrite list_lookup_total_insert_eq by lia.
  - rewrite list_lookup_total_insert_ne by lia. now rewrite dh_c_lookup.
Qed.

(** ** Strict diagonal dominance *)

Lemma fun_max_exists (N : nat) (U : nat -> R) :
  (0 < N)%nat -> exists m, (m < N)%nat /\ forall i, (i < N)%nat -> U i <= U m.
Proof.
  intros HN. destruct (fun_min_exists N (fun i => - U i) HN) as (m & Hm & Hmin).
  exists m. split; [done|]. intros i Hi. specialize (Hmin i Hi). simpl in Hmin.
  lra.
Qed.

(** A strictly diagonally dominant tridiagonal matrix has a trivial
    kernel. *)
Lemma tri_dominant_injective (b a c w : list R) (d : R) :
  0 < d -> length w = length a ->
  (forall i, (i < length a)%nat -> row_dominant b a c d i) ->
  (forall i, (i < length a)%nat -> tri_row b a c w i = 0) ->
  forall i, (i < length a)%nat -> w !!! i = 0.
Proof.
  intros Hd Hw Hdom Hrows i Hi.
  destruct (fun_max_exists (length a) (fun j => Rabs (w !!! j)))
    as (m & Hm & Hmax); [lia|]. simpl in Hmax.
  pose proof (Hdom m Hm) as Hdm. pose proof (Hrows m Hm) as Hrm.
  unfold row_dominant in Hdm. unfold tri_row in Hrm. rewrite Hw in Hrm.
  set (W := Rabs (w !!! m)) in *.
  assert (0 <= W) as HW by apply Rabs_pos.
  set (B := match m with O => 0 | S j => b !!! j * w !!! j end) in *.
  set (C := if decide (S m < length a)%nat
            then c !!! m * w !!! S m else 0) in *.
  set (PB := match m with O => 0 | S j => Rabs (b !!! j) end) in *.
  set (PC := if decide (S m < length a)%nat then Rabs (c !!! m) else 0) in *.
  assert (Rabs B <= PB * W) as HB.
  { unfold B, PB. destruct m as [|j].
    - rewrite Rabs_R0. lra.
    - rewrite Rabs_mult. apply Rmult_le_compat_l; [apply Rabs_pos|].
      apply Hmax. lia. }
  assert (Rabs C <= PC * W) as HC.
  { unfold C, PC. case_decide.
    - rewrite Rabs_mult. apply Rmult_le_compat_l; [apply Rabs_pos|].
      apply Hmax. lia.
    - rewrite Rabs_R0. lra. }
  assert (Rabs (a !!! m) * W = Rabs (B + C)) as Ha.
  { unfold W. rewrite <- Rabs_mult.
    replace (a !!! m * w !!! m) with (- (B + C)) by lra.
    apply Rabs_Ropp. }
  pose proof (Rabs_triang B C) as Htri.
  assert (W <= 0) as HW0.
  { destruct (Rle_dec W 0) as [|Hn]; [done|].
    assert (0 < W) as HWp by lra.
    assert ((PB + PC + d) * W <= Rabs (a !!! m) * W) as Hmul
      by (apply Rmult_le_compat_r; lra).
    assert (0 < d * W) by (apply Rmult_lt_0_compat; lra).
    lra. }
  specialize (Hmax i Hi).
  assert (Rabs (w !!! i) <= 0) as Hz by lra.
  apply Rabs_le_between in Hz. lra.
Qed.

(** Every row of the Newton matrix is dominated with margin [h^2]. *)
Lemma newton_dominant (N : nat) (u : list R) (i : nat) :
  (2 <= N)%nat -> length u = N -> (i < N)%nat ->
  row_dominant (dh_b N) (newton_a N u) (newton_c N) (step_size N ^ 2) i.
Proof.
  intros HN Hu Hi.
  pose proof (step_size_pos (Z.of_nat N) ltac:(lia)) as Hh.
  fold (step_size N) in Hh. set (h := step_size N) in *.
  unfold row_dominant.
  destruct (newton_lengths N 0 u) as (Hla & _). rewrite Hla, Hu.
  assert (newton_a N u !!! i = -2 - h ^ 2 * cosh (u !!! i)) as Ea.
  { unfold newton_a. fold h.
    change (map (fun t => -2 - h ^ 2 * cosh t) u)
      with ((fun t => -2 - h ^ 2 * cosh t) <$> u).
    now rewrite (list_lookup_total_fmap (fun t => -2 - h ^ 2 * cosh t) u i)
      by lia. }
  rewrite Ea.
  pose proof (cosh_ge_1 (u !!! i)) as Hcosh.
  assert (0 < h ^ 2) as Hh2 by nra.
  assert (h ^ 2 <= h ^ 2 * cosh (u !!! i)) as Hprod by nra.
  rewrite (Rabs_left (-2 - h ^ 2 * cosh (u !!! i))) by lra.
  assert (forall j, (j < N - 1)%nat ->
            newton_c N !!! j
            = if decide (j = 0)%nat then 0 else coef_c h j) as Ec.
  { intros j Hj. unfold newton_c. fold h.
    now rewrite (proj2 (tabulates_map (N - 1) _)) by done. }
  destruct i as [|k].
  - case_decide; [|lra]. rewrite Ec, decide_True by (done || lia).
    rewrite Rabs_R0. lra.
  - rewrite dh_b_lookup by lia. fold h.
    pose proof (coef_b_bounds h k Hh) as Hb.
    rewrite Rabs_pos_eq by lra.
    case_decide.
    + rewrite Ec, decide_False by lia.
      pose proof (coef_c_bounds h (S k) Hh) as Hc.
      pose proof (coef_row_sum h k) as Hsum.
      rewrite Rabs_pos_eq by lra. lra.
    + lra.
Qed.

(** ** The Newton loop *)

Lemma newton_loop_eq (inv : matrix -> result matrix) (n : Z) (mu : R)
    (s : uk0_state) (k : Z) :
  newton_loop inv n mu s k =
  if decide (k > 50)%Z then Ok (s, k)
  else match uk0_tolerance s with
       | Raise e => Raise e
       | Ok true => Ok (s, k)
       | Ok false =>
           match newton_step inv n mu s with
           | Raise e => Raise e
           | Ok s' => newton_loop inv n mu s' (k + 1)
           end
       end.
Proof.
  rewrite newton_loop_equation_1.
  destruct (decide (k > 50)%Z) as [Hk|Hk]; simpl; [reflexivity|].
  destruct (uk0_tolerance s) as [[|]|e]; simpl; try reflexivity.
  destruct (newton_step inv n mu s) as [s'|e]; simpl; reflexivity.
Qed.

(** What an invariant of the passes gives when the loop returns. *)
Lemma newton_loop_returns (P : uk0_state -> Z -> Prop)
    (inv : matrix -> result matrix) (n : Z) (mu : R) :
  (forall s k s', P s k -> (k <= 50)%Z ->
     newton_step inv n mu s = Ok s' -> P s' (k + 1)%Z) ->
  forall s k s' k', P s k -> newton_loop inv n mu s k = Ok (s', k') ->
    P s' k' /\ (k <= k')%Z /\
    ((k' > 50)%Z \/ uk0_tolerance s' = Ok true).
Proof.
  intros Hstep s k.
  remember (Z.to_nat (51 - k)) as d eqn:Hd. revert s k Hd.
  induction d as [d IH] using lt_wf_ind. intros s k Hd s' k' HP Hrun.
  rewrite newton_loop_eq in Hrun. case_decide as Hk.
  - injection Hrun as <- <-. split; [done|]. split; [lia | now left].
  - destruct (uk0_tolerance s) as [[|]|e] eqn:Htol; try discriminate.
    + injection Hrun as <- <-. split; [done|]. split; [lia | now right].
    + destruct (newton_step inv n mu s) as [s1|e] eqn:Hs; [|discriminate].
      destruct (IH (Z.to_nat (51 - (k + 1))) ltac:(lia) s1 (k + 1)%Z eq_refl
                  s' k') as (HP' & Hle & Hexit); try done.
      * apply (Hstep s k s1); try done; lia.
      * split; [done|]. split; [lia | done].
Qed.

Lemma np_sub_length (u d r : list R) :
  np_sub u d = Ok r -> (2 <= length u)%nat -> length r = length u.
Proof.
  unfold np_sub. intros H Hu. case_decide as Hl.
  - injection H as <-. rewrite length_zip_with. lia.
  - destruct u as [|p [|p' u]]; simpl in Hu; try lia.
    destruct d as [|q [|q' d]]; try discriminate.
    injection H as <-. simpl. now rewrite length_map.
Qed.

(** What one pass of the Newton loop leaves when it does not raise. *)
Lemma newton_step_Ok_inv (inv : matrix -> result matrix) (N : nat) (mu : R)
    (s s' : uk0_state) :
  (2 <= N)%nat -> length (uk_u s) = N ->
  newton_step inv (Z.of_nat N) mu s = Ok s' ->
  uk_x s' = Some (dh_x N) /\ length (uk_u s') = N /\
  uk_ecart1 s' = newton_F N mu (uk_u s) /\
  solve_poisson_boltzmann_newton inv (uk_u s) (Z.of_nat N) mu
  = Ok (dh_x N, uk_u s', uk_ecart1 s') /\
  np_sub (uk_u s') (uk_u s) = Ok (uk_ecart2 s').
Proof.
  intros HN Hu H. unfold newton_step in H.
  apply bind_Ok_inv in H as ([[x u'] F] & Hsolve & H).
  cbv beta iota zeta in H.
  apply bind_Ok_inv in H as (e2 & He2 & H).
  apply bind_Ok_inv in H as (n1 & _ & H).
  apply bind_Ok_inv in H as (n2 & _ & H).
  injection H as <-. cbn [uk_x uk_u uk_ecart1 uk_ecart2].
  pose proof Hsolve as Hs. unfold solve_poisson_boltzmann_newton in Hs.
  rewrite assemble_newton_Ok, bind_Ok in Hs by lia.
  cbv beta iota zeta in Hs.
  apply bind_Ok_inv in Hs as (J & HJ & Hs).
  apply bind_Ok_inv in Hs as (M & HM & Hs).
  apply bind_Ok_inv in Hs as (d & Hd & Hs).
  apply bind_Ok_inv in Hs as (r & Hr & Hs).
  injection Hs as <- <- <-.
  apply np_sub_length in Hr; [|lia].
  repeat split; try done. lia.
Qed.

Lemma newton_state_inv_step (inv : matrix -> result matrix) (N : nat)
    (mu : R) (s s' : uk0_state) (k : Z) :
  (2 <= N)%nat -> newton_state_inv inv N mu s k -> (k <= 50)%Z ->
  newton_step inv (Z.of_nat N) mu s = Ok s' ->
  newton_state_inv inv N mu s' (k + 1).
Proof.
  intros HN (Hk & Hu & _) Hk50 Hstep.
  destruct (newton_step_Ok_inv inv N mu s s' HN Hu Hstep)
    as (Hx & Hlu & _ & Hsolve & Hsub).
  split; [lia|]. split; [done|]. split; [lia|].
  intros _. exists (uk_u s). auto.
Qed.

(** [calcul_uk0_newton] up to its loop; [N] stands for the 1000 points
    it hardcodes. *)
Lemma calcul_uk0_newton_start (inv : matrix -> result matrix) (N : nat)
    (mu : R) :
  Z.of_nat N = 1000%Z -> (2 <= N)%nat ->
  exists u0,
    length u0 = N /\
    (forall i, (i < N)%nat ->
       tri_row (dh_b N) (dh_a N) (dh_c N) u0 i = dh_z N mu !!! i) /\
    newton_state_inv inv N mu (Uk0 None u0 (dh_z N mu) u0) 0 /\
    calcul_uk0_newton inv mu =
    ('(s, k) ← newton_loop inv (Z.of_nat N) mu (Uk0 None u0 (dh_z N mu) u0) 0;
     match uk_x s with
     | Some x => Ok (x, uk_u s, k)
     | None => Raise UnboundLocalError
     end).
Proof.
  intros E HN.
  destruct (solve_debye_huckel_Ok N mu HN) as (u0 & Hsolve & Hlu & Hrows).
  destruct (dh_tridiag_Ok N HN) as (A & HA).
  destruct (dh_lengths N mu) as (_ & _ & _ & _ & Hlz).
  pose proof (dh_dot N A u0 _ HN HA Hlu Hlz Hrows) as Hdot.
  exists u0. split; [done|]. split; [done|]. split.
  { unfold newton_state_inv. simpl. repeat split; try done; lia. }
  unfold calcul_uk0_newton. cbv zeta. rewrite <- E.
  rewrite Hsolve, bind_Ok. cbv beta iota.
  rewrite HA, bind_Ok, Hdot, bind_Ok. reflexivity.
Qed.

Lemma calcul_uk0_newton_tiny (inv : matrix -> result matrix) (N : nat)
    (mu : R) :
  Z.of_nat N = 1000%Z -> (2 <= N)%nat -> Rabs mu <= 5 / 10 ^ 11 ->
  calcul_uk0_newton inv mu = Raise UnboundLocalError.
Proof.
  intros E HN Hmu.
  destruct (calcul_uk0_newton_start inv N mu E HN)
    as (u0 & Hlu0 & Hrows0 & _ & ->).
  rewrite newton_loop_eq, decide_False by lia.
  rewrite (initial_tolerance_tiny N mu u0 E HN Hmu Hlu0 Hrows0), bind_Ok.
  reflexivity.
Qed.

(** What [calcul_uk0_newton] returns, when it returns. *)
Lemma calcul_uk0_newton_Ok_inv (inv : matrix -> result matrix) (N : nat)
    (mu : R) (x u : list R) (k : Z) :
  Z.of_nat N = 1000%Z -> (2 <= N)%nat ->
  calcul_uk0_newton inv mu = Ok (x, u, k) ->
  exists s, x = dh_x N /\ u = uk_u s /\ (1 <= k)%Z /\
    newton_state_inv inv N mu s k /\
    ((k > 50)%Z \/ uk0_tolerance s = Ok true).
Proof.
  intros E HN Hret.
  destruct (calcul_uk0_newton_start inv N mu E HN)
    as (u0 & _ & _ & Hinv0 & Hcalc).
  rewrite Hcalc in Hret.
  apply bind_Ok_inv in Hret as ([s k'] & Hloop & Hret).
  cbv beta iota in Hret.
  destruct (newton_loop_returns (newton_state_inv inv N mu) inv
              (Z.of_nat N) mu) with (s := Uk0 None u0 (dh_z N mu) u0)
    (k := 0%Z) (s' := s) (k' := k') as (Hinv & _ & Hexit); try done.
  { intros s1 k1 s2 H1 Hk1 Hstep.
    now apply (newton_state_inv_step inv N mu s1 s2 k1). }
  pose proof Hinv as (Hk & Hu & Hzero & Hpos).
  destruct (decide (k' = 0)%Z) as [Hk0|Hk0].
  { rewrite (Hzero Hk0) in Hret. discriminate. }
  destruct Hpos as (u_prev & _ & Hx & _); [lia|].
  rewrite Hx in Hret. injection Hret as <- <- <-.
  exists s. split; [done|]. split; [done|]. split; [lia|]. split; done.
Qed.

(** ** A run of the Newton loop *)

Lemma row_dot_zero_row (r x : list R) : row_dot (map (fun _ => 0) r) x = 0.
Proof.
  unfold row_dot. revert x.
  induction r as [|a r IH]; intros [|b x]; simpl; try reflexivity.
  rewrite IH. lra.
Qed.

Lemma np_dot_zero_like (J : matrix) (F : list R) :
  Forall (fun r => length r = length F) J ->
  np_dot (map (map (fun _ => 0)) J) F = Ok (replicate (length J) 0).
Proof.
  intros HJ. unfold np_dot. rewrite decide_True.
  - f_equal. induction HJ as [|r J Hr HJ IH]; simpl; [done|].
    now rewrite row_dot_zero_row, IH.
  - induction HJ as [|r J Hr HJ IH]; simpl; constructor;
      [now rewrite length_map | done].
Qed.

(** One pass with the zero stand-in leaves the iterate where it is. *)
Lemma newton_step_zero_like (N : nat) (mu : R) (s : uk0_state) :
  (2 <= N)%nat -> length (uk_u s) = N ->
  newton_step zero_matrix_like (Z.of_nat N) mu s
  = Ok (Uk0 (Some (dh_x N))
          (zip_with Rminus (uk_u s) (replicate N 0))
          (newton_F N mu (uk_u s))
          (zip_with Rminus (zip_with Rminus (uk_u s) (replicate N 0))
             (uk_u s))).
Proof.
  intros HN Hu. unfold newton_step, solve_poisson_boltzmann_newton.
  rewrite assemble_newton_Ok, bind_Ok by lia. cbv beta iota.
  destruct (newton_lengths N mu (uk_u s)) as (Hla & Hlc & HlF).
  destruct (dh_lengths N mu) as (_ & _ & Hlb & _).
  rewrite tridiag_Ok, bind_Ok by lia.
  unfold zero_matrix_like. rewrite bind_Ok.
  rewrite np_dot_zero_like, bind_Ok.
  2:{ apply Forall_forall. intros r Hr.
      apply in_map_iff in Hr as (i & <- & _).
      now rewrite length_map, length_seq, HlF, Hla. }
  rewrite length_map, length_seq, Hla, Hu.
  rewrite np_sub_Ok, !bind_Ok by now rewrite length_replicate.
  cbv beta iota zeta.
  rewrite np_sub_Ok, bind_Ok
    by (rewrite length_zip_with, length_replicate; lia).
  destruct (norm_inf_Ok (newton_F N mu (uk_u s))) as (n1 & -> & _).
  { destruct (newton_F N mu (uk_u s)); simpl in *; [lia | done]. }
  rewrite bind_Ok.
  destruct (norm_inf_Ok
              (zip_with Rminus (zip_with Rminus (uk_u s) (replicate N 0))
                 (uk_u s))) as (n2 & -> & _).
  { intros Hnil. apply (f_equal length) in Hnil.
    rewrite !length_zip_with, length_replicate in Hnil. simpl in Hnil. lia. }
  now rewrite bind_Ok.
Qed.

(** With mu = 10^-9 and the zero stand-in the loop stops after one
    pass. *)
Lemma calcul_uk0_newton_converged_run (N : nat) :
  Z.of_nat N = 1000%Z -> (2 <= N)%nat ->
  exists x u,
    calcul_uk0_newton zero_matrix_like (1 / 1000000000) = Ok (x, u, 1%Z).
Proof.
  intros E HN. set (mu := 1 / 1000000000).
  pose proof (step_size_1000 N E) as Eh.
  assert (0 < step_size N) as Hh by (rewrite Eh; lra).
  destruct (calcul_uk0_newton_start zero_matrix_like N mu E HN)
    as (u0 & Hlu0 & Hrows0 & _ & ->).
  set (s0 := Uk0 None u0 (dh_z N mu) u0).
  assert (uk0_tolerance s0 = Ok false) as Htol0.
  { apply (initial_tolerance_sizeable N mu u0 E HN).
    unfold mu. rewrite Rabs_pos_eq by lra.
    assert (10 ^ 10 = 10000000000) as E10 by (simpl; lra).
    rewrite E10. lra. }
  pose proof (newton_step_zero_like N mu s0 HN Hlu0) as Hstep.
  simpl uk_u in Hstep.
  set (s1 := Uk0 (Some (dh_x N)) (zip_with Rminus u0 (replicate N 0))
               (newton_F N mu u0)
               (zip_with Rminus (zip_with Rminus u0 (replicate N 0)) u0))
    in *.
  assert (forall i, (i < N)%nat -> Rabs (u0 !!! i) <= 2 / 10000000) as Hu0.
  { intros i Hi.
    pose proof (tri_magnitude (step_size N) N (fun j => u0 !!! j)
                  (199 / 10000000000000) Hh HN) as Hmag.
    eapply Rle_trans; [apply Hmag; [|done] | rewrite Eh; lra].
    intros j Hj. rewrite <- tri_row_fun, Hrows0, dh_z_lookup_total by done.
    rewrite Eh. unfold mu. case_decide.
    - rewrite Rabs_left by lra. lra.
    - rewrite Rabs_R0. lra. }
  destruct (newton_lengths N mu u0) as (_ & _ & HlF).
  assert (uk0_tolerance s1 = Ok true) as Htol1.
  { apply uk0_tolerance_true_intro; simpl.
    - destruct (newton_F N mu u0); simpl in *; [lia | done].
    - intros Hnil. apply (f_equal length) in Hnil.
      rewrite !length_zip_with, length_replicate in Hnil. simpl in Hnil. lia.
    - intros i Hi. rewrite HlF in Hi.
      rewrite newton_F_residual, Hrows0, dh_z_lookup_total, pb_z_lookup
        by done.
      replace ((if decide (i = 0)%nat
                then mu * step_size N * (step_size N - 2) else 0)
               - (step_size N ^ 2 * g (u0 !!! i)
                  + (if decide (i = 0)%nat
                     then mu * step_size N * (step_size N - 2) else 0)))
        with (- (step_size N ^ 2 * g (u0 !!! i))) by (case_decide; lra).
      rewrite Rabs_Ropp, Rabs_mult, Rabs_pos_eq by (rewrite Eh; lra).
      pose proof (Hu0 i Hi) as Hi0.
      assert (Rabs (u0 !!! i) <= 1 / 2) as Hhalf by lra.
      pose proof (g_abs_small (u0 !!! i) Hhalf) as Hg.
      apply Rabs_le_between in Hi0.
      assert (u0 !!! i ^ 2 <= 4 / 100000000000000) as Hsq by nra.
      rewrite Eh. unfold mu1. simpl. lra.
    - intros i Hi. rewrite !length_zip_with, length_replicate in Hi.
      rewrite !zip_with_Rminus_lookup
        by (rewrite ?length_zip_with, ?length_replicate; lia).
      rewrite lookup_total_replicate_2 by lia.
      replace (u0 !!! i - 0 - u0 !!! i) with 0 by lra.
      rewrite Rabs_R0. unfold mu2. simpl. lra. }
  exists (dh_x N), (uk_u s1).
  rewrite newton_loop_eq, decide_False by lia. fold s0.
  rewrite Htol0, Hstep.
  rewrite newton_loop_eq, decide_False by lia.
  rewrite Htol1, bind_Ok. reflexivity.
Qed.

(** * The Newton step against its Jacobian *)

Lemma list2_eq (p q p' q' : R) : p = p' -> q = q' -> [p; q] = [p'; q'].
Proof. now intros -> ->. Qed.

Lemma tridiag_2x2 (b0 a0 a1 c0 : R) :
  tridiag ([b0], [a0; a1], [c0]) = Ok [[a0; c0]; [b0; a1]].
Proof.
  rewrite tridiag_Ok by reflexivity. simpl.
  rewrite !tridiag_entry_cases. simpl. reflexivity.
Qed.

Lemma np_dot_2x2 (p q r s w0 w1 : R) :
  np_dot [[p; q]; [r; s]] [w0; w1] = Ok [p * w0 + q * w1; r * w0 + s * w1].
Proof.
  unfold np_dot. rewrite decide_True by (repeat constructor).
  f_equal. unfold row_dot. simpl. apply list2_eq; ring.
Qed.

Lemma step_size_2 : step_size 2 = 5.
Proof. unfold step_size. change (Z.of_nat 2) with 2%Z. lra. Qed.

(** C3, evaluated at u = [0, 0], n = 2, mu = 1, where h = 5.  The
    assembler of the Newton step leaves c = [0], so the step inverts
    [[-27, 0], [7/12, -27]] and, with the exact inverse, returns
    u_next = [-5/9, -35/2916] for the residual F = [-15, 0].  The
    Jacobian of the claim has the diagonal -2 - h^2 cosh(u[i]) = -27 and
    the off-diagonals b = [7/12], c = [2] of the linear assembler; it is
    nonsingular, and its product with u - u_next is [-21835/1458, 0],
    which is not F. *)
Theorem newton_step_breaks_claimed_equation :
  assemble_newton [0; 0] 2 1
  = Ok ([1; 6], [7 / 12], [-27; -27], [0], [-15; 0]) /\
  solve_poisson_boltzmann_newton np_linalg_inv_2x2 [0; 0] 2 1
  = Ok ([1; 6], [- (5 / 9); - (35 / 2916)], [-15; 0]) /\
  assemble_debye_huckel 2 1
  = Ok ([1; 6], [7 / 12], [-27; -27], [2], [15; 0]) /\
  tridiag ([7 / 12], map (fun t => -2 - (10 / 2) ^ 2 * cosh t) [0; 0], [2])
  = Ok [[-27; 2]; [7 / 12; -27]] /\
  (exists Jinv, np_linalg_inv_2x2 [[-27; 2]; [7 / 12; -27]] = Ok Jinv) /\
  np_sub [0; 0] [- (5 / 9); - (35 / 2916)] = Ok [5 / 9; 35 / 2916] /\
  np_dot [[-27; 2]; [7 / 12; -27]] [5 / 9; 35 / 2916]
  = Ok [- (21835 / 1458); 0] /\
  - (21835 / 1458) <> -15.
Proof.
  assert (assemble_newton [0; 0] 2 1
          = Ok ([1; 6], [7 / 12], [-27; -27], [0], [-15; 0])) as Hasm.
  { change (assemble_newton [0; 0] 2 1)
      with (assemble_newton [0; 0] (Z.of_nat 2) 1).
    rewrite (assemble_newton_Ok 2 1 [0; 0]) by (simpl; lia).
    unfold dh_x, dh_b, newton_a, newton_c, newton_F.
    rewrite step_size_2. simpl.
    unfold grid_x, coef_b, grid_x. simpl. rewrite cosh_0, sinh_0.
    change (Z.of_nat 0) with 0%Z. change (Z.of_nat 1) with 1%Z.
    replace (1 + 0 * 5) with 1 by lra.
    replace (1 + 1 * 5) with 6 by lra.
    replace (1 - 5 / (2 * 6)) with (7 / 12) by lra.
    replace (-2 - 5 * (5 * 1) * 1) with (-27) by lra.
    replace (-2 * 0 - 5 * (5 * 1) * 0 + 2 * 0 + 1 * 5 * (2 - 5)) with (-15)
      by lra.
    replace (7 / 12 * 0 - 2 * 0 - 5 * (5 * 1) * 0 + 0) with 0 by lra.
    reflexivity. }
  split; [exact Hasm|]. split; [|split; [|split; [|split; [|split; [|split]]]]].
  - unfold solve_poisson_boltzmann_newton.
    rewrite Hasm, bind_Ok. cbv beta iota.
    rewrite tridiag_2x2, bind_Ok. unfold np_linalg_inv_2x2.
    destruct (Req_dec_T (-27 * -27 - 0 * (7 / 12)) 0) as [Hd|_]; [lra|].
    rewrite bind_Ok, np_dot_2x2, bind_Ok.
    rewrite np_sub_Ok by reflexivity. rewrite bind_Ok. simpl.
    do 3 f_equal. apply list2_eq; lra.
  - change (assemble_debye_huckel 2 1)
      with (assemble_debye_huckel (Z.of_nat 2) 1).
    rewrite (assemble_debye_huckel_Ok 2 1) by lia.
    unfold dh_x, dh_b, dh_a, dh_c, dh_z. rewrite step_size_2. simpl.
    unfold grid_x, coef_b, coef_c, grid_x. simpl.
    change (Z.of_nat 0) with 0%Z. change (Z.of_nat 1) with 1%Z.
    replace (1 + 0 * 5) with 1 by lra.
    replace (1 + 1 * 5) with 6 by lra.
    replace (1 - 5 / (2 * 6)) with (7 / 12) by lra.
    replace (- (2 + 5 * (5 * 1))) with (-27) by lra.
    replace (1 * 5 * (5 - 2)) with 15 by lra.
    reflexivity.
  - simpl map. rewrite cosh_0.
    replace (-2 - 10 / 2 * (10 / 2 * 1) * 1) with (-27) by lra.
    apply tridiag_2x2.
  - unfold np_linalg_inv_2x2.
    destruct (Req_dec_T (-27 * -27 - 2 * (7 / 12)) 0) as [Hd|_]; [lra|].
    eexists. reflexivity.
  - rewrite np_sub_Ok by reflexivity. simpl. f_equal. apply list2_eq; lra.
  - rewrite np_dot_2x2. f_equal. apply list2_eq; lra.
  - lra.
Qed.

(** * Further properties *)

(** X1.  When [lutri] returns [(l, v)], these are the factors of the
    matrix: [v] has the length of [a], [l] is one shorter, and the
    product of the unit lower bidiagonal matrix with sub-diagonal [l] by
    the upper bidiagonal matrix with diagonal [v] and super-diagonal [c]
    gives back [b] and [a], entry by entry. *)
Theorem lutri_product (a b c l v : list R) :
  lutri a b c = Ok (l, v) ->
  length v = length a /\ S (length l) = length a /\
  v !!! 0%nat = a !!! 0%nat /\
  forall k, (S k < length a)%nat ->
    l !!! k * v !!! k = b !!! k /\
    l !!! k * c !!! k + v !!! S k = a !!! S k.
Proof.
  intros H. apply lutri_Ok_rel in H as (Hv & Hl & H0 & Hrel).
  repeat split; try done.
  - destruct (Hrel k) as (Hnz & Hlk & _); [done|]. rewrite Hlk. now field.
  - destruct (Hrel k) as (_ & _ & Hvk); [done|]. rewrite Hvk. ring.
Qed.

Lemma lutri_product_witness :
  let a : list R := [-2; 5; -1; 4; -2] in
  let b : list R := [-4; -3; -2; 2] in
  let c : list R := [1; 2; -1; 1] in
  let l : list R := [2; -1; -2; 1] in
  let v : list R := [-2; 3; 1; 2; -3] in
  length v = length a /\ S (length l) = length a /\
  v !!! 0%nat = a !!! 0%nat /\
  forall k, (S k < length a)%nat ->
    l !!! k * v !!! k = b !!! k /\
    l !!! k * c !!! k + v !!! S k = a !!! S k.
Proof.
  intros a b c l v. apply (lutri_product a b c l v).
  exact lutri_fixture_eval.
Defined.

(** X2.  On inputs that meet the dimension contract (a nonempty, b and
    c with at least len(a) - 1 entries) [lutri] never raises IndexError:
    it returns factors, or raises ZeroDivisionError at a zero pivot. *)
Theorem lutri_contract_outcome (a b c : list R) :
  a <> [] ->
  (length a <= S (length b))%nat -> (length a <= S (length c))%nat ->
  (exists l v, lutri a b c = Ok (l, v) /\
     length v = length a /\ S (length l) = length a /\
     forall k, (S k < length a)%nat -> v !!! k <> 0) \/
  lutri a b c = Raise ZeroDivisionError.
Proof.
  intros Ha Hb Hc. pose proof (lutri_outcome a b c Ha Hb Hc) as H.
  destruct (lutri a b c) as [[l v]|e]; simpl in H.
  - left. exists l, v. destruct H as (Hv & Hl & _ & Hrel).
    repeat split; try done. intros k Hk. now destruct (Hrel k Hk).
  - right. now rewrite H.
Qed.

Lemma lutri_contract_outcome_witness :
  let a : list R := [0; 1] in
  (exists l v, lutri a [1] [1] = Ok (l, v) /\
     length v = length a /\ S (length l) = length a /\
     forall k, (S k < length a)%nat -> v !!! k <> 0) \/
  lutri a [1] [1] = Raise ZeroDivisionError.
Proof.
  intros a.
  apply (lutri_contract_outcome a [1] [1]); [done | simpl; lia | simpl; lia].
Defined.

(** X3.  [lutri] does not pivot: with n >= 2 and a nonempty
    sub-diagonal, a zero first diagonal entry raises ZeroDivisionError,
    whatever the other entries are (so also for a nonsingular matrix
    such as [[0, 1], [1, 1]]). *)
Theorem lutri_zero_first_entry (a b c : list R) :
  (2 <= length a)%nat -> b <> [] -> a !!! 0%nat = 0 ->
  lutri a b c = Raise ZeroDivisionError.
Proof.
  intros Ha Hb H0. unfold lutri.
  rewrite getitem_head, bind_Ok by (destruct a; simpl in *; [lia | done]).
  rewrite range_cons by lia. rewrite for_each_cons.
  change 1%Z with (Z.of_nat 1).
  rewrite lutri_body_step by reflexivity.
  rewrite decide_True by (destruct b; simpl; [done | lia]).
  simpl (_ !!! _). rewrite H0.
  destruct (Req_dec_T 0 0); [reflexivity | contradiction].
Qed.

Lemma lutri_zero_first_entry_witness :
  lutri [0; 1] [1] [1] = Raise ZeroDivisionError.
Proof.
  apply (lutri_zero_first_entry [0; 1] [1] [1]); [simpl; lia | done | reflexivity].
Defined.

(** X4.  [lutri] reads only the first len(a) - 1 entries of b and c:
    two calls whose sub- and super-diagonals agree on these entries give
    the same result, exceptions included. *)
Theorem lutri_reads_prefix (a b c b' c' : list R) :
  take (length a - 1) b = take (length a - 1) b' ->
  take (length a - 1) c = take (length a - 1) c' ->
  lutri a b c = lutri a b' c'.
Proof.
  intros Hb Hc. unfold lutri.
  destruct (getitem a 0) as [a0|e]; [|reflexivity].
  rewrite !bind_Ok. apply for_each_ext.
  intros i Hi s. apply lutri_body_agree; try done.
  unfold range in Hi. apply elem_of_seqZ in Hi. lia.
Qed.

Lemma lutri_reads_prefix_witness :
  lutri [1; 2] [3; 4; 5] [6] = lutri [1; 2] [3] [6; 7].
Proof. apply (lutri_reads_prefix [1; 2]); reflexivity. Defined.

(** X5.  On a nonempty right-hand side z and at least len(z) - 1
    multipliers, [descente] always returns: y has the length of z,
    y[0] = z[0] and l[k] y[k] + y[k+1] = z[k+1], that is L y = z. *)
Theorem descente_solves (l z : list R) :
  z <> [] -> (length z <= S (length l))%nat ->
  exists y, descente l z = Ok y /\ length y = length z /\
    y !!! 0%nat = z !!! 0%nat /\
    forall k, (S k < length z)%nat ->
      l !!! k * y !!! k + y !!! S k = z !!! S k.
Proof.
  intros Hz Hl. destruct (descente_Ok l z Hz Hl) as (y & Hy & Hlen & H0 & Hrel).
  exists y. repeat split; try done.
  intros k Hk. rewrite (Hrel k Hk). ring.
Qed.

Lemma descente_solves_witness :
  let l : list R := [2; -1] in
  let z : list R := [1; 2; 3] in
  exists y, descente l z = Ok y /\ length y = length z /\
    y !!! 0%nat = z !!! 0%nat /\
    forall k, (S k < length z)%nat ->
      l !!! k * y !!! k + y !!! S k = z !!! S k.
Proof. intros l z. apply (descente_solves l z); [done | simpl; lia]. Defined.

(** X6.  On a nonempty y, with at least len(y) pivots in v, at least
    len(y) - 1 entries in c and no zero among the pivots v[0..n-1],
    [remontee] returns x of the length of y with U x = y:
    v[k] x[k] + c[k] x[k+1] = y[k], without the last term in the last
    row. *)
Theorem remontee_solves (v c y : list R) :
  y <> [] -> (length y <= length v)%nat -> (length y <= S (length c))%nat ->
  (forall k, (k < length y)%nat -> v !!! k <> 0) ->
  exists x, remontee v c y = Ok x /\ length x = length y /\
    forall k, (k < length y)%nat ->
      v !!! k * x !!! k
      + (if decide (S k < length y)%nat then c !!! k * x !!! S k else 0)
      = y !!! k.
Proof.
  intros Hy Hv Hc Hnz.
  destruct (remontee_Ok v c y Hy Hv Hc Hnz) as (x & Hx & Hlen & Hrel).
  exists x. split; [done|]. split; [done|].
  intros k Hk. rewrite (Hrel k Hk). specialize (Hnz k Hk).
  case_decide; field; done.
Qed.

Lemma remontee_solves_witness :
  let v : list R := [2; 3] in
  let c : list R := [1] in
  let y : list R := [4; 6] in
  exists x, remontee v c y = Ok x /\ length x = length y /\
    forall k, (k < length y)%nat ->
      v !!! k * x !!! k
      + (if decide (S k < length y)%nat then c !!! k * x !!! S k else 0)
      = y !!! k.
Proof.
  intros v c y.
  apply (remontee_solves v c y); [done | simpl; lia | simpl; lia |].
  intros [|[|k]] Hk; simpl in *; [lra | lra | lia].
Defined.

(** X7.  For every n >= 2 the vector u returned by [solve_debye_huckel]
    solves the assembled system exactly: the dense matrix built by
    [tridiag] from the returned diagonals, times u, is the right-hand
    side [mu h (h - 2), 0, ..., 0]. *)
Theorem solve_debye_huckel_solves (n : Z) (mu : R) :
  (2 <= n)%Z ->
  let h := 10 / IZR n in
  exists x u diags A,
    solve_debye_huckel n mu = Ok (x, u, diags) /\
    length u = Z.to_nat n /\
    tridiag diags = Ok A /\
    np_dot A u = Ok (<[0%nat := mu * h * (h - 2)]> (replicate (Z.to_nat n) 0)).
Proof.
  intros Hn h. set (N := Z.to_nat n).
  assert (n = Z.of_nat N) as En by (unfold N; lia).
  assert (2 <= N)%nat as HN by lia.
  assert (h = step_size N) as Eh by (unfold h, step_size; now rewrite <- En).
  destruct (solve_debye_huckel_Ok N mu HN) as (u & Hsolve & Hlu & Hrows).
  destruct (dh_tridiag_Ok N HN) as (A & HA).
  destruct (dh_lengths N mu) as (_ & _ & _ & _ & Hlz).
  exists (dh_x N), u, (dh_b N, dh_a N, dh_c N), A.
  rewrite En, Eh. repeat split; try done.
  now apply (dh_dot N A u (dh_z N mu)).
Qed.

Lemma solve_debye_huckel_solves_witness :
  let h := 10 / IZR 4 in
  exists x u diags A,
    solve_debye_huckel 4 1 = Ok (x, u, diags) /\
    length u = Z.to_nat 4 /\
    tridiag diags = Ok A /\
    np_dot A u = Ok (<[0%nat := 1 * h * (h - 2)]> (replicate (Z.to_nat 4) 0)).
Proof. apply (solve_debye_huckel_solves 4 1). lia. Defined.

(** X8.  For n >= 5 (so that h <= 2) and mu >= 0 the solution of the
    linear problem is nonnegative and bounded: every component lies in
    [0, mu (2 - h) h / h^2], and the first one is at least
    mu h (2 - h) / (2 + h^2). *)
Theorem solve_debye_huckel_nonnegative (n : Z) (mu : R) :
  (5 <= n)%Z -> 0 <= mu ->
  let h := 10 / IZR n in
  exists x u diags,
    solve_debye_huckel n mu = Ok (x, u, diags) /\
    (forall i ui, u !! i = Some ui ->
       0 <= ui <= mu * h * (2 - h) / h ^ 2) /\
    (forall u0, u !! 0%nat = Some u0 ->
       mu * h * (2 - h) / (2 + h ^ 2) <= u0).
Proof.
  intros Hn Hmu h. set (N := Z.to_nat n).
  assert (n = Z.of_nat N) as En by (unfold N; lia).
  assert (2 <= N)%nat as HN by lia.
  assert (h = step_size N) as Eh by (unfold h, step_size; now rewrite <- En).
  pose proof (step_size_pos (Z.of_nat N) ltac:(lia)) as Hh.
  pose proof (step_size_le_2 N ltac:(lia)) as Hh2.
  fold (step_size N) in Hh.
  destruct (solve_debye_huckel_Ok N mu HN) as (u & Hsolve & Hlu & Hrows).
  assert (0 <= mu * step_size N * (2 - step_size N)) as Hc0.
  { apply Rmult_le_pos; [apply Rmult_le_pos|]; lra. }
  destruct (dh_solution_bounds N mu u HN Hlu Hrows Hc0) as [Hall Hfirst].
  exists (dh_x N), u, (dh_b N, dh_a N, dh_c N).
  rewrite En, Eh. split; [done|]. split.
  - intros i ui Hi.
    assert (i < N)%nat as HiN by (apply lookup_lt_Some in Hi; lia).
    rewrite <- (list_lookup_total_correct _ _ _ Hi). now apply Hall.
  - intros u0 H0. rewrite (list_lookup_total_correct _ _ _ H0) in Hfirst.
    apply Rmult_le_reg_r with (2 + step_size N ^ 2); [nra|].
    unfold Rdiv. rewrite Rmult_assoc, Rinv_l by nra. lra.
Qed.

Lemma solve_debye_huckel_nonnegative_witness :
  let h := 10 / IZR 10 in
  exists x u diags,
    solve_debye_huckel 10 3 = Ok (x, u, diags) /\
    (forall i ui, u !! i = Some ui ->
       0 <= ui <= 3 * h * (2 - h) / h ^ 2) /\
    (forall u0, u !! 0%nat = Some u0 ->
       3 * h * (2 - h) / (2 + h ^ 2) <= u0).
Proof. apply (solve_debye_huckel_nonnegative 10 3); [lia | lra]. Defined.

(** X9.  The linear solution is proportional to mu: for n >= 2 the
    vector returned for mu is mu times the vector returned for mu = 1,
    on the same grid and diagonals (so mu = 0 returns the zero vector). *)
Theorem solve_debye_huckel_linear_in_mu (n : Z) (mu : R) :
  (2 <= n)%Z ->
  exists x u1 diags,
    solve_debye_huckel n 1 = Ok (x, u1, diags) /\
    solve_debye_huckel n mu = Ok (x, map (Rmult mu) u1, diags).
Proof.
  intros Hn. set (N := Z.to_nat n).
  assert (n = Z.of_nat N) as En by (unfold N; lia).
  assert (2 <= N)%nat as HN by lia.
  destruct (solve_debye_huckel_Ok N 1 HN) as (u1 & Hsolve1 & Hlu1 & Hrows1).
  destruct (solve_debye_huckel_Ok N mu HN) as (u & Hsolve & Hlu & Hrows).
  exists (dh_x N), u1, (dh_b N, dh_a N, dh_c N).
  rewrite En. split; [done|].
  now rewrite <- (dh_solution_scales N mu u1 u).
Qed.

Lemma solve_debye_huckel_linear_in_mu_witness :
  exists x u1 diags,
    solve_debye_huckel 2 1 = Ok (x, u1, diags) /\
    solve_debye_huckel 2 7 = Ok (x, map (Rmult 7) u1, diags).
Proof. apply (solve_debye_huckel_linear_in_mu 2 7). lia. Defined.

(** X10.  Below two grid points both assemblers fail before any solve:
    n = 0 raises ZeroDivisionError at h = 10 / n, and n = 1 or n < 0
    raises IndexError at the first indexed access (u[0] or c[0]). *)
Theorem solvers_below_two_points (n : Z) (mu : R) (u : list R) :
  (n <= 1)%Z ->
  solve_debye_huckel n mu
  = Raise (if decide (n = 0)%Z then ZeroDivisionError else IndexError) /\
  solve_poisson_boltzmann u n mu
  = Raise (if decide (n = 0)%Z then ZeroDivisionError else IndexError).
Proof.
  intros Hn. split.
  - now apply solve_debye_huckel_small.
  - now apply solve_poisson_boltzmann_small.
Qed.

Lemma solvers_below_two_points_witness :
  solve_debye_huckel (-3) 1
  = Raise (if decide (-3 = 0)%Z then ZeroDivisionError else IndexError) /\
  solve_poisson_boltzmann [1; 2] (-3) 1
  = Raise (if decide (-3 = 0)%Z then ZeroDivisionError else IndexError).
Proof. apply (solvers_below_two_points (-3) 1 [1; 2]). lia. Defined.

(** X11.  Elimination on the linear operator is well conditioned: for
    n >= 2, [lutri] on the assembled diagonals returns pivots v[k] in
    [-(2 + h^2), 0), below -1 on every row but the last, and multipliers
    l[k] in (-1, 0). *)
Theorem debye_huckel_pivots (n : Z) (mu : R) :
  (2 <= n)%Z ->
  let h := 10 / IZR n in
  exists x b a c z l v,
    assemble_debye_huckel n mu = Ok (x, b, a, c, z) /\
    lutri a b c = Ok (l, v) /\
    (forall k vk, v !! k = Some vk ->
       - (2 + h ^ 2) <= vk < 0 /\ ((Z.of_nat k < n - 1)%Z -> vk < -1)) /\
    (forall k lk, l !! k = Some lk -> -1 < lk < 0).
Proof.
  intros Hn h. set (N := Z.to_nat n).
  assert (n = Z.of_nat N) as En by (unfold N; lia).
  assert (2 <= N)%nat as HN by lia.
  assert (h = step_size N) as Eh by (unfold h, step_size; now rewrite <- En).
  destruct (dh_pivots N HN) as (l & v & Hlu & Hlv & Hll & Hv & Hl).
  exists (dh_x N), (dh_b N), (dh_a N), (dh_c N), (dh_z N mu), l, v.
  rewrite En, Eh. split; [now apply assemble_debye_huckel_Ok|].
  split; [done|]. split.
  - intros k vk Hk.
    assert (k < N)%nat as HkN by (apply lookup_lt_Some in Hk; lia).
    rewrite <- (list_lookup_total_correct _ _ _ Hk).
    destruct (Hv k HkN) as [Hrange Hlow]. split; [done|].
    intros Hk1. apply Hlow. lia.
  - intros k lk Hk.
    assert (k < N - 1)%nat as HkN by (apply lookup_lt_Some in Hk; lia).
    rewrite <- (list_lookup_total_correct _ _ _ Hk). now apply Hl.
Qed.

Lemma debye_huckel_pivots_witness :
  let h := 10 / IZR 3 in
  exists x b a c z l v,
    assemble_debye_huckel 3 1 = Ok (x, b, a, c, z) /\
    lutri a b c = Ok (l, v) /\
    (forall k vk, v !! k = Some vk ->
       - (2 + h ^ 2) <= vk < 0 /\ ((Z.of_nat k < 3 - 1)%Z -> vk < -1)) /\
    (forall k lk, l !! k = Some lk -> -1 < lk < 0).
Proof. apply (debye_huckel_pivots 3 1). lia. Defined.

(** X12.  For diagonals of matching sizes (b and c one shorter than a)
    [tridiag] returns the square matrix with a on the diagonal, b just
    below, c just above and zeros elsewhere, and its product with a
    vector x is, row by row, b[i-1] x[i-1] + a[i] x[i] + c[i] x[i+1]. *)
Theorem tridiag_builds_matrix (b a c x : list R) :
  length a = S (length b) -> length a = S (length c) ->
  length x = length a ->
  exists M y,
    tridiag (b, a, c) = Ok M /\ length M = length a /\
    (forall i r, M !! i = Some r ->
       length r = length a /\
       forall j e, r !! j = Some e ->
         e = if decide (i = S j) then b !!! j
             else if decide (j = i) then a !!! i
             else if decide (j = S i) then c !!! i else 0) /\
    np_dot M x = Ok y /\ length y = length a /\
    forall i yi, y !! i = Some yi ->
      yi = match i with O => 0 | S j => b !!! j * x !!! j end
           + a !!! i * x !!! i
           + (if decide (S i < length x)%nat then c !!! i * x !!! S i else 0).
Proof.
  intros Hb Hc Hx.
  destruct (tridiag_dot b a c x Hb Hc Hx) as (M & HM & Hdot).
  pose proof (tridiag_Ok b a c Hb Hc) as HM'.
  rewrite HM in HM'. injection HM' as ->.
  eexists _, _. split; [exact HM|].
  split; [now rewrite length_map, length_seq|]. split.
  - intros i r Hi. apply lookup_map_seq in Hi as [Hlt ->].
    split; [now rewrite length_map, length_seq|].
    intros j e Hj. apply lookup_map_seq in Hj as [_ ->].
    apply tridiag_entry_cases.
  - split; [exact Hdot|]. split; [now rewrite length_map, length_seq|].
    intros i yi Hi. now apply lookup_map_seq in Hi as [_ ->].
Qed.

Lemma tridiag_builds_matrix_witness :
  let b : list R := [7; 8] in
  let a : list R := [1; 2; 3] in
  let c : list R := [5; 6] in
  let x : list R := [1; 0; 1] in
  exists M y,
    tridiag (b, a, c) = Ok M /\ length M = length a /\
    (forall i r, M !! i = Some r ->
       length r = length a /\
       forall j e, r !! j = Some e ->
         e = if decide (i = S j) then b !!! j
             else if decide (j = i) then a !!! i
             else if decide (j = S i) then c !!! i else 0) /\
    np_dot M x = Ok y /\ length y = length a /\
    forall i yi, y !! i = Some yi ->
      yi = match i with O => 0 | S j => b !!! j * x !!! j end
           + a !!! i * x !!! i
           + (if decide (S i < length x)%nat then c !!! i * x !!! S i else 0).
Proof.
  intros b a c x. apply (tridiag_builds_matrix b a c x); reflexivity.
Defined.

(** X13.  [tridiag] does not check sizes itself; numpy's addition does.
    With a of length at least 2, a nonempty b whose length is not
    len(a) - 1 raises ValueError, and so does, for a fitting b, a
    nonempty c whose length is not len(a) - 1. *)
Theorem tridiag_size_mismatch (b a c : list R) :
  (2 <= length a)%nat ->
  (b <> [] /\ S (length b) <> length a) \/
  (S (length b) = length a /\ c <> [] /\ S (length c) <> length a) ->
  tridiag (b, a, c) = Raise ValueError.
Proof.
  intros Ha [[Hb Hne]|(Hb & Hc & Hne)]; unfold tridiag.
  - rewrite np_add_mismatch; [done| | |];
      rewrite ?np_diag_rows; simpl Z.abs_nat; try lia.
    destruct b; [done | simpl; lia].
  - rewrite np_add_same_length by (rewrite !np_diag_rows; simpl; lia).
    rewrite bind_Ok.
    apply np_add_mismatch;
      rewrite ?length_zip_with, ?np_diag_rows; simpl Z.abs_nat; try lia.
    destruct c; [done | simpl; lia].
Qed.

Lemma tridiag_size_mismatch_witness :
  tridiag ([1], [1; 2; 3], [1; 2]) = Raise ValueError.
Proof.
  apply (tridiag_size_mismatch [1] [1; 2; 3] [1; 2]); [simpl; lia|].
  left. split; [done | simpl; lia].
Defined.

(** X14.  For n >= 2 and an iterate u with at least n entries, the
    vector returned by [solve_poisson_boltzmann] solves the linear
    problem's system with the returned right-hand side: with A the
    dense matrix of the diagonals assembled by [solve_debye_huckel],
    A u_suivant = z; the returned grid is that of the linear problem. *)
Theorem solve_poisson_boltzmann_solves (n : Z) (mu : R) (u : list R) :
  (2 <= n)%Z -> (Z.to_nat n <= length u)%nat ->
  exists x u' z u0 diags A,
    solve_poisson_boltzmann u n mu = Ok (x, u', z) /\
    solve_debye_huckel n mu = Ok (x, u0, diags) /\
    tridiag diags = Ok A /\
    length u' = Z.to_nat n /\ length z = Z.to_nat n /\
    np_dot A u' = Ok z.
Proof.
  intros Hn Hu. set (N := Z.to_nat n) in *.
  assert (n = Z.of_nat N) as En by (unfold N; lia).
  assert (2 <= N)%nat as HN by lia.
  destruct (solve_poisson_boltzmann_Ok N mu u HN Hu) as (u' & Hs & Hlu & Hrows).
  destruct (solve_debye_huckel_Ok N mu HN) as (u0 & Hs0 & _).
  destruct (dh_tridiag_Ok N HN) as (A & HA).
  exists (dh_x N), u', (pb_z N mu u), u0, (dh_b N, dh_a N, dh_c N), A.
  rewrite En. repeat split; try done.
  - apply pb_z_length.
  - apply (dh_dot N A u' (pb_z N mu u)); try done. apply pb_z_length.
Qed.

Lemma solve_poisson_boltzmann_solves_witness :
  let u : list R := [1; 2; 3] in
  exists x u' z u0 diags A,
    solve_poisson_boltzmann u 3 1 = Ok (x, u', z) /\
    solve_debye_huckel 3 1 = Ok (x, u0, diags) /\
    tridiag diags = Ok A /\
    length u' = Z.to_nat 3 /\ length z = Z.to_nat 3 /\
    np_dot A u' = Ok z.
Proof.
  intros u. apply (solve_poisson_boltzmann_solves 3 1 u); [lia | simpl; lia].
Defined.

(** X15.  [solve_poisson_boltzmann] reads only the first n entries of
    the iterate: for n >= 2, two iterates with at least n entries that
    agree on their first n entries give the same result. *)
Theorem solve_poisson_boltzmann_reads_prefix (n : Z) (mu : R) (u u2 : list R) :
  (2 <= n)%Z -> (Z.to_nat n <= length u)%nat ->
  take (Z.to_nat n) u2 = take (Z.to_nat n) u ->
  solve_poisson_boltzmann u2 n mu = solve_poisson_boltzmann u n mu.
Proof.
  intros Hn Hu Htake. set (N := Z.to_nat n) in *.
  assert (n = Z.of_nat N) as En by (unfold N; lia).
  assert (2 <= N)%nat as HN by lia.
  assert (N <= length u2)%nat as Hu2.
  { apply (f_equal length) in Htake. rewrite !length_take in Htake. lia. }
  rewrite En. unfold solve_poisson_boltzmann.
  rewrite !assemble_poisson_boltzmann_Ok by done.
  rewrite (pb_z_ext N mu u2 u); [done|].
  intros j Hj. rewrite <- (lookup_total_take_lt u2 N j Hj).
  rewrite <- (lookup_total_take_lt u N j Hj). now rewrite Htake.
Qed.

Lemma solve_poisson_boltzmann_reads_prefix_witness :
  solve_poisson_boltzmann [1; 2; 3; 4] 2 1
  = solve_poisson_boltzmann [1; 2] 2 1.
Proof.
  apply (solve_poisson_boltzmann_reads_prefix 2 1 [1; 2] [1; 2; 3; 4]);
    [lia | simpl; lia | reflexivity].
Defined.

(** X16.  Over the reals one pass of the loop body of [calcul_uk0]
    (lines 185-188) leaves a residual ecart1 = A u_suivant - z that is
    the zero vector, of norm 0, because u_suivant solves A u = z
    exactly; x is bound to the grid and ecart2 is u_suivant - u. *)
Theorem fixed_point_pass_residual (n : Z) (mu : R) (s : uk0_state) :
  (2 <= n)%Z -> length (uk_u s) = Z.to_nat n ->
  exists x0 u0 diags A s',
    solve_debye_huckel n mu = Ok (x0, u0, diags) /\
    tridiag diags = Ok A /\
    uk0_step A n mu s = Ok s' /\
    uk_x s' = Some x0 /\
    uk_ecart1 s' = replicate (Z.to_nat n) 0 /\
    norm_inf (uk_ecart1 s') = Ok 0 /\
    np_sub (uk_u s') (uk_u s) = Ok (uk_ecart2 s').
Proof.
  intros Hn Hu. set (N := Z.to_nat n) in *.
  assert (n = Z.of_nat N) as En by (unfold N; lia).
  assert (2 <= N)%nat as HN by lia.
  destruct (solve_debye_huckel_Ok N mu HN) as (u0 & Hs0 & _).
  destruct (dh_tridiag_Ok N HN) as (A & HA).
  destruct (uk0_step_Ok N mu A s HN HA Hu)
    as (u' & _ & Hlu & _ & _ & Hstep).
  eexists (dh_x N), u0, (dh_b N, dh_a N, dh_c N), A, _.
  rewrite En. split; [done|]. split; [done|]. split; [exact Hstep|].
  cbn [uk_x uk_u uk_ecart1 uk_ecart2].
  rewrite zip_with_Rminus_self_replicate, pb_z_length.
  repeat split; try done.
  - apply norm_inf_zeros. lia.
  - apply np_sub_Ok. lia.
Qed.

Lemma fixed_point_pass_residual_witness :
  let s := Uk0 None [1; 2] [0; 0] [0; 0] in
  exists x0 u0 diags A s',
    solve_debye_huckel 2 1 = Ok (x0, u0, diags) /\
    tridiag diags = Ok A /\
    uk0_step A 2 1 s = Ok s' /\
    uk_x s' = Some x0 /\
    uk_ecart1 s' = replicate (Z.to_nat 2) 0 /\
    norm_inf (uk_ecart1 s') = Ok 0 /\
    np_sub (uk_u s') (uk_u s) = Ok (uk_ecart2 s').
Proof.
  intros s. apply (fixed_point_pass_residual 2 1 s); [lia | reflexivity].
Defined.

(** X17.  For |mu| <= 5e-11, [calcul_uk0] raises UnboundLocalError: the
    linear solution already meets both tolerances, the loop body never
    runs, and [return x, u, k] reads an [x] that was never bound. *)
Theorem calcul_uk0_small_mu_unbound (mu : R) :
  Rabs mu <= 5 / 10 ^ 11 -> calcul_uk0 mu = Raise UnboundLocalError.
Proof.
  intros Hmu.
  assert (exists N, Z.of_nat N = 1000%Z /\ (2 <= N)%nat) as (N & E & HN)
    by (exists 1000%nat; split; [reflexivity | lia]).
  exact (calcul_uk0_tiny N mu E HN Hmu).
Qed.

Lemma calcul_uk0_small_mu_unbound_witness :
  calcul_uk0 (- (1 / 10 ^ 11)) = Raise UnboundLocalError.
Proof.
  apply (calcul_uk0_small_mu_unbound (- (1 / 10 ^ 11))).
  rewrite Rabs_Ropp, Rabs_pos_eq; simpl; lra.
Defined.

(** X18.  For |mu| >= 6e-10, [calcul_uk0] returns and never raises: the
    first tolerance fails on the linear solution, so at least one pass
    runs.  It returns the 1000-point grid x[i] = 1 + i / 100, a vector u
    of 1000 entries obtained by a fixed-point step from a previous
    iterate, and a count 1 <= k <= 201. *)
Theorem calcul_uk0_sizeable_mu_returns (mu : R) :
  6 / 10 ^ 10 <= Rabs mu ->
  exists x u k u_prev z,
    calcul_uk0 mu = Ok (x, u, k) /\ (1 <= k <= 201)%Z /\
    Z.of_nat (length x) = 1000%Z /\ Z.of_nat (length u) = 1000%Z /\
    (forall i xi, x !! i = Some xi -> xi = 1 + IZR (Z.of_nat i) / 100) /\
    solve_poisson_boltzmann u_prev 1000 mu = Ok (x, u, z).
Proof.
  intros Hmu.
  assert (exists N, Z.of_nat N = 1000%Z /\ (2 <= N)%nat) as (N & E & HN)
    by (exists 1000%nat; split; [reflexivity | lia]).
  destruct (calcul_uk0_passes N mu E HN Hmu)
    as (A & s & k & HA & Hret & Hk1 & Hinv & _).
  destruct Hinv as (Hk & Hu & _ & _ & _ & Hpos).
  destruct (Hpos Hk1) as (u_prev & z & Au & _ & Hsolve & _).
  destruct (dh_lengths N mu) as (Hlx & _).
  exists (dh_x N), (uk_u s), k, u_prev, z.
  split; [done|]. split; [lia|]. split; [lia|]. split; [lia|].
  split; [|now rewrite <- E].
  intros i xi Hi.
  assert (i < N)%nat as HiN by (apply lookup_lt_Some in Hi; lia).
  rewrite dh_x_lookup in Hi by done. injection Hi as <-.
  unfold grid_x. rewrite (step_size_1000 N E). lra.
Qed.

Lemma calcul_uk0_sizeable_mu_returns_witness :
  exists x u k u_prev z,
    calcul_uk0 1 = Ok (x, u, k) /\ (1 <= k <= 201)%Z /\
    Z.of_nat (length x) = 1000%Z /\ Z.of_nat (length u) = 1000%Z /\
    (forall i xi, x !! i = Some xi -> xi = 1 + IZR (Z.of_nat i) / 100) /\
    solve_poisson_boltzmann u_prev 1000 1 = Ok (x, u, z).
Proof.
  apply (calcul_uk0_sizeable_mu_returns 1). rewrite Rabs_R1. simpl. lra.
Defined.

(** X19.  [find_convergence_mu] never raises, and its loop makes
    exactly 20 passes: with more than 20 units of fuel its [while] ends
    in the state s left by 20 passes of the loop body, and the function
    returns the midpoint m of the twentieth pass, which lies in
    [7 / 2^20, 7 - 7 / 2^20].  At each of the 20 passes the midpoint
    handed to [calcul_uk0] is at least 7 / 2^20, [calcul_uk0] returns
    there with a count 1 <= k <= 201, and the pass completes. *)
Theorem find_convergence_mu_returns :
  exists s m,
    bisect_run calcul_uk0 20 = Ok s /\ bm s = Some m /\
    7 / 2 ^ 20 <= m <= 7 - 7 / 2 ^ 20 /\
    (forall fuel, (20 < fuel)%nat ->
       while fuel bisect_cond (bisect_body calcul_uk0)
         (Bisect 0 7 (7 - 0) None) = Some (Ok s) /\
       find_convergence_mu fuel = Some (Ok m)) /\
    (forall j, (j <= 20)%nat -> exists sj, bisect_run calcul_uk0 j = Ok sj) /\
    (forall j sj, (j < 20)%nat -> bisect_run calcul_uk0 j = Ok sj ->
       7 / 2 ^ 20 <= (debut sj + fin sj) / 2 /\
       exists x u k s',
         calcul_uk0 ((debut sj + fin sj) / 2) = Ok (x, u, k) /\
         (1 <= k <= 201)%Z /\
         bisect_body calcul_uk0 sj = Ok s' /\
         bisect_run calcul_uk0 (S j) = Ok s').
Proof.
  assert (exists N, Z.of_nat N = 1000%Z /\ (2 <= N)%nat) as (N & E & HN)
    by (exists 1000%nat; split; [reflexivity | lia]).
  assert (forall j sj, (j < 20)%nat -> bisect_run calcul_uk0 j = Ok sj ->
            7 / 2 ^ 20 <= (debut sj + fin sj) / 2 /\
            exists x u k s',
              calcul_uk0 ((debut sj + fin sj) / 2) = Ok (x, u, k) /\
              (1 <= k <= 201)%Z /\
              bisect_body calcul_uk0 sj = Ok s' /\
              bisect_run calcul_uk0 (S j) = Ok s') as Hpass.
  { intros j sj Hj Hrun.
    pose proof (bisect_run_inv calcul_uk0 j sj Hrun) as Hinv.
    destruct (bisect_midpoint_answered N j sj E HN Hj Hinv)
      as (_ & Hlow & x & u & k & Hcal & Hk).
    split; [done|]. exists x, u, k. eexists.
    split; [done|]. split; [done|].
    pose proof (bisect_body_Ok calcul_uk0 sj x u k Hcal) as Hbody.
    split; [exact Hbody|].
    rewrite bisect_run_S, Hrun, bind_Ok. exact Hbody. }
  destruct (find_convergence_mu_with_total calcul_uk0 midpoint_inv)
    as (s & m & Hrun & Hinv & HQ & Hm & Hret).
  - intros H. lia.
  - intros j sj Hj Hinv _.
    destruct (bisect_midpoint_answered N j sj E HN Hj Hinv)
      as (Hmid & _ & x & u & k & Hcal & _).
    eexists. split; [exact (bisect_body_Ok calcul_uk0 sj x u k Hcal)|].
    intros _. exists ((debut sj + fin sj) / 2).
    case_decide; (split; [reflexivity | exact Hmid]).
  - destruct (HQ ltac:(lia)) as (m' & Hm' & Hrange).
    rewrite Hm in Hm'. injection Hm' as <-.
    exists s, m. split; [done|]. split; [done|]. split; [done|].
    split; [exact Hret|]. split; [|exact Hpass].
    intros j Hj. induction j as [|j IH].
    + eexists. reflexivity.
    + destruct IH as (sj & Hsj); [lia|].
      destruct (Hpass j sj ltac:(lia) Hsj) as (_ & _ & _ & _ & s' & _ & _ & _ & Hnext).
      now exists s'.
Qed.

(** X20.  The bisection finds a threshold: if the oracle answers at
    every mu, with k > 200 above some mu_star in [0, 7] and k <= 200
    below it, then [find_convergence_mu] returns, with more than 20
    units of fuel, a value within 7 / 2^20 of mu_star. *)
Theorem find_convergence_mu_locates_threshold
    (calcul : R -> result (list R * list R * Z)) (mu_star : R) :
  0 <= mu_star <= 7 ->
  (forall m, exists x u k, calcul m = Ok (x, u, k) /\
     (mu_star < m -> (k > 200)%Z) /\ (m < mu_star -> (k <= 200)%Z)) ->
  exists m, Rabs (m - mu_star) <= 7 / 2 ^ 20 /\
    forall fuel, (20 < fuel)%nat ->
      find_convergence_mu_with calcul fuel = Some (Ok m).
Proof.
  intros Hstar Horacle.
  destruct (find_convergence_mu_with_total calcul (bracket_inv mu_star))
    as (s & m & _ & Hinv & [Hin Hlast] & Hm & Hret).
  - split; [simpl; lra | intros H; lia].
  - intros j s Hj _ [Hin _].
    destruct (Horacle ((debut s + fin s) / 2)) as (x & u & k & Hcal & Hup & Hdown).
    eexists. split; [exact (bisect_body_Ok calcul s x u k Hcal)|].
    case_decide as Hk; (split; simpl; [|intros _; eexists; split; [reflexivity | auto]]).
    + split; [lra|]. destruct (Rle_dec mu_star ((debut s + fin s) / 2)); [done|].
      assert ((k <= 200)%Z) by (apply Hdown; lra). lia.
    + split; [|lra]. destruct (Rle_dec ((debut s + fin s) / 2) mu_star); [done|].
      assert ((k > 200)%Z) by (apply Hup; lra). lia.
  - destruct Hinv as (_ & _ & _ & He & Hw & _).
    destruct Hlast as (m' & Hm' & Hends); [lia|].
    rewrite Hm in Hm'. injection Hm' as <-.
    exists m. split; [|intros fuel Hf; now apply Hret].
    rewrite <- Hw, He. apply Rabs_le. destruct Hends as [-> | ->]; lra.
Qed.

Lemma find_convergence_mu_locates_threshold_witness :
  let calcul := fun m : R =>
    @Ok (list R * list R * Z)
      ([], [], if Rlt_dec 3 m then 201%Z else 0%Z) in
  exists m, Rabs (m - 3) <= 7 / 2 ^ 20 /\
    forall fuel, (20 < fuel)%nat ->
      find_convergence_mu_with calcul fuel = Some (Ok m).
Proof.
  intros calcul. apply (find_convergence_mu_locates_threshold calcul 3).
  - lra.
  - intros m. eexists _, _, _. split; [reflexivity|].
    destruct (Rlt_dec 3 m); split; intros; (lia || lra).
Defined.

(** X21.  For n >= 2 and an iterate u of n entries, the Newton
    assembler builds the grid and sub-diagonal of the fixed-point
    assembler, the diagonal a[i] = -2 - h^2 cosh(u[i]), the
    super-diagonal of the fixed-point assembler with its first entry
    left at 0, and a vector F that is the residual of the fixed-point
    equation at u: F = A u - z, with A and z the matrix and right-hand
    side that [solve_poisson_boltzmann] uses for u. *)
Theorem assemble_newton_residual (n : Z) (mu : R) (u : list R) :
  (2 <= n)%Z -> length u = Z.to_nat n ->
  let h := 10 / IZR n in
  exists x b a c F a0 c0 z A Au,
    assemble_newton u n mu = Ok (x, b, a, c, F) /\
    assemble_poisson_boltzmann u n mu = Ok (x, b, a0, c0, z) /\
    a = map (fun t => -2 - h ^ 2 * cosh t) u /\
    c = <[0%nat := 0]> c0 /\
    tridiag (b, a0, c0) = Ok A /\
    np_dot A u = Ok Au /\ np_sub Au z = Ok F.
Proof.
  intros Hn Hu h. set (N := Z.to_nat n) in *.
  assert (n = Z.of_nat N) as En by (unfold N; lia).
  assert (2 <= N)%nat as HN by lia.
  assert (h = step_size N) as Eh by (unfold h, step_size; now rewrite <- En).
  destruct (dh_lengths N mu) as (_ & Hla & Hlb & Hlc & _).
  destruct (tridiag_dot (dh_b N) (dh_a N) (dh_c N) u) as (A & HA & Hdot);
    try lia.
  rewrite Hla in Hdot.
  exists (dh_x N), (dh_b N), (newton_a N u), (newton_c N), (newton_F N mu u),
    (dh_a N), (dh_c N), (pb_z N mu u), A,
    (map (tri_row (dh_b N) (dh_a N) (dh_c N) u) (seq 0 N)).
  rewrite En, Eh.
  split; [apply assemble_newton_Ok; lia|].
  split; [apply assemble_poisson_boltzmann_Ok; lia|].
  split; [done|]. split; [now apply newton_c_insert|].
  split; [exact HA|]. split; [exact Hdot|].
  rewrite np_sub_Ok by (now rewrite length_map, length_seq, pb_z_length).
  f_equal. symmetry.
  destruct (newton_lengths N mu u) as (_ & _ & HlF).
  apply list_eq_total.
  - rewrite HlF, zip_with_Rminus_length;
      now rewrite length_map, length_seq, ?pb_z_length.
  - rewrite HlF. intros i Hi.
    rewrite newton_F_residual by done.
    rewrite zip_with_Rminus_lookup
      by (rewrite ?length_map, ?length_seq, ?pb_z_length; lia).
    now rewrite (proj2 (tabulates_map N _)) by done.
Qed.

Lemma assemble_newton_residual_witness :
  let u : list R := [1; 2; 3] in
  let h := 10 / IZR 3 in
  exists x b a c F a0 c0 z A Au,
    assemble_newton u 3 1 = Ok (x, b, a, c, F) /\
    assemble_poisson_boltzmann u 3 1 = Ok (x, b, a0, c0, z) /\
    a = map (fun t => -2 - h ^ 2 * cosh t) u /\
    c = <[0%nat := 0]> c0 /\
    tridiag (b, a0, c0) = Ok A /\
    np_dot A u = Ok Au /\ np_sub Au z = Ok F.
Proof.
  intros u. apply (assemble_newton_residual 3 1 u); [lia | reflexivity].
Defined.

(** X22.  The two methods look for the same vector: for n >= 2 and u
    of n entries, the Newton residual F computed at u is zero in every
    component exactly when u is a fixed point of
    [solve_poisson_boltzmann], that is when the step returns u itself. *)
Theorem newton_residual_zero_iff_fixed_point (n : Z) (mu : R) (u : list R) :
  (2 <= n)%Z -> length u = Z.to_nat n ->
  exists x b a c F,
    assemble_newton u n mu = Ok (x, b, a, c, F) /\
    ((forall i Fi, F !! i = Some Fi -> Fi = 0) <->
     exists z, solve_poisson_boltzmann u n mu = Ok (x, u, z)).
Proof.
  intros Hn Hu. set (N := Z.to_nat n) in *.
  assert (n = Z.of_nat N) as En by (unfold N; lia).
  assert (2 <= N)%nat as HN by lia.
  destruct (newton_lengths N mu u) as (_ & _ & HlF).
  destruct (solve_poisson_boltzmann_Ok N mu u HN ltac:(lia))
    as (u' & Hsolve & Hlu' & Hrows).
  exists (dh_x N), (dh_b N), (newton_a N u), (newton_c N), (newton_F N mu u).
  rewrite En. split; [apply assemble_newton_Ok; lia|]. split.
  - intros HF. exists (pb_z N mu u). rewrite Hsolve. do 3 f_equal.
    apply (dh_unique N); try done.
    intros i Hi. rewrite Hrows by done.
    assert (newton_F N mu u !!! i = 0) as H0.
    { apply (HF i). apply list_lookup_lookup_total_lt. lia. }
    rewrite newton_F_residual in H0 by done. lra.
  - intros (z & Hz). rewrite Hsolve in Hz. injection Hz as -> _.
    intros i Fi Hi.
    assert (i < N)%nat as HiN by (apply lookup_lt_Some in Hi; lia).
    rewrite <- (list_lookup_total_correct _ _ _ Hi).
    rewrite newton_F_residual, Hrows by done. lra.
Qed.

Lemma newton_residual_zero_iff_fixed_point_witness :
  let u : list R := [0; 0] in
  exists x b a c F,
    assemble_newton u 2 0 = Ok (x, b, a, c, F) /\
    ((forall i Fi, F !! i = Some Fi -> Fi = 0) <->
     exists z, solve_poisson_boltzmann u 2 0 = Ok (x, u, z)).
Proof.
  intros u.
  apply (newton_residual_zero_iff_fixed_point 2 0 u); [lia | reflexivity].
Defined.

(** X23.  The matrix that the Newton step inverts is never singular
    over the reals: for n >= 2 and u of n entries every row of the
    assembled tridiagonal matrix is strictly dominated by its diagonal
    entry, |b[i-1]| + |c[i]| + h^2 <= |a[i]|, and the dense matrix J
    built from it sends only the zero vector to zero. *)
Theorem newton_matrix_nonsingular (n : Z) (mu : R) (u w : list R) :
  (2 <= n)%Z -> length u = Z.to_nat n -> length w = Z.to_nat n ->
  let h := 10 / IZR n in
  exists x b a c F J,
    assemble_newton u n mu = Ok (x, b, a, c, F) /\
    tridiag (b, a, c) = Ok J /\
    (forall i, (i < Z.to_nat n)%nat -> row_dominant b a c (h ^ 2) i) /\
    (np_dot J w = Ok (replicate (Z.to_nat n) 0) ->
     w = replicate (Z.to_nat n) 0).
Proof.
  intros Hn Hu Hw h. set (N := Z.to_nat n) in *.
  assert (n = Z.of_nat N) as En by (unfold N; lia).
  assert (2 <= N)%nat as HN by lia.
  assert (h = step_size N) as Eh by (unfold h, step_size; now rewrite <- En).
  pose proof (step_size_pos (Z.of_nat N) ltac:(lia)) as Hh.
  fold (step_size N) in Hh.
  destruct (dh_lengths N mu) as (_ & _ & Hlb & _).
  destruct (newton_lengths N mu u) as (Hla & Hlc & _).
  destruct (tridiag_dot (dh_b N) (newton_a N u) (newton_c N) w)
    as (J & HJ & Hdot); try lia.
  rewrite Hla, Hu in Hdot.
  exists (dh_x N), (dh_b N), (newton_a N u), (newton_c N), (newton_F N mu u), J.
  rewrite En, Eh.
  split; [apply assemble_newton_Ok; lia|]. split; [exact HJ|]. split.
  - intros i Hi. now apply newton_dominant.
  - intros Hzero. rewrite Hdot in Hzero. injection Hzero as Hzero.
    apply list_eq_total; [now rewrite length_replicate|].
    rewrite Hw. intros i Hi.
    rewrite lookup_total_replicate_2 by done.
    apply (tri_dominant_injective (dh_b N) (newton_a N u) (newton_c N) w
             (step_size N ^ 2)); rewrite ?Hla, ?Hu; try done.
    + nra.
    + intros j Hj. now apply newton_dominant.
    + intros j Hj.
      rewrite <- (proj2 (tabulates_map N
                   (tri_row (dh_b N) (newton_a N u) (newton_c N) w)) j Hj).
      rewrite Hzero. now apply lookup_total_replicate_2.
Qed.

Lemma newton_matrix_nonsingular_witness :
  let u : list R := [1; 2; 3] in
  let w : list R := [0; 0; 0] in
  let h := 10 / IZR 3 in
  exists x b a c F J,
    assemble_newton u 3 1 = Ok (x, b, a, c, F) /\
    tridiag (b, a, c) = Ok J /\
    (forall i, (i < Z.to_nat 3)%nat -> row_dominant b a c (h ^ 2) i) /\
    (np_dot J w = Ok (replicate (Z.to_nat 3) 0) ->
     w = replicate (Z.to_nat 3) 0).
Proof.
  intros u w.
  apply (newton_matrix_nonsingular 3 1 u w); [lia | reflexivity | reflexivity].
Defined.

(** X24.  Whatever the matrix inversion does, for |mu| <= 5e-11
    [calcul_uk0_newton] raises UnboundLocalError: its initialisation is
    that of [calcul_uk0], both tolerances hold before the first pass, and
    [return x, u, k] reads an [x] that was never bound. *)
Theorem calcul_uk0_newton_small_mu_unbound
    (np_linalg_inv : matrix -> result matrix) (mu : R) :
  Rabs mu <= 5 / 10 ^ 11 ->
  calcul_uk0_newton np_linalg_inv mu = Raise UnboundLocalError.
Proof.
  intros Hmu.
  assert (exists N, Z.of_nat N = 1000%Z /\ (2 <= N)%nat) as (N & E & HN)
    by (exists 1000%nat; split; [reflexivity | lia]).
  exact (calcul_uk0_newton_tiny np_linalg_inv N mu E HN Hmu).
Qed.

Lemma calcul_uk0_newton_small_mu_unbound_witness :
  calcul_uk0_newton zero_matrix_like 0 = Raise UnboundLocalError.
Proof.
  apply (calcul_uk0_newton_small_mu_unbound zero_matrix_like 0).
  rewrite Rabs_R0. simpl. lra.
Defined.

(** X25.  Whenever [calcul_uk0_newton] returns (x, u, k), at least one
    and at most 51 Newton passes were made, x is the 1000-point grid
    x[i] = 1 + i / 100, u has 1000 entries and is the result of a Newton
    step from a previous iterate u_prev with residual F; and if the cap
    was not hit (k <= 50) both tolerances hold: ||F|| < 1e-11 and
    ||u - u_prev|| < 1e-8 in the maximum norm. *)
Theorem calcul_uk0_newton_returns_capped
    (np_linalg_inv : matrix -> result matrix) (mu : R)
    (x u : list R) (k : Z) :
  calcul_uk0_newton np_linalg_inv mu = Ok (x, u, k) ->
  (1 <= k <= 51)%Z /\
  Z.of_nat (length x) = 1000%Z /\ Z.of_nat (length u) = 1000%Z /\
  (forall i xi, x !! i = Some xi -> xi = 1 + IZR (Z.of_nat i) / 100) /\
  exists u_prev F ecart2,
    solve_poisson_boltzmann_newton np_linalg_inv u_prev 1000 mu
    = Ok (x, u, F) /\
    np_sub u u_prev = Ok ecart2 /\
    ((k <= 50)%Z -> exists n1 n2,
       norm_inf F = Ok n1 /\ n1 < 1 / 10 ^ 11 /\
       norm_inf ecart2 = Ok n2 /\ n2 < 1 / 10 ^ 8).
Proof.
  intros Hret.
  assert (exists N, Z.of_nat N = 1000%Z /\ (2 <= N)%nat) as (N & E & HN)
    by (exists 1000%nat; split; [reflexivity | lia]).
  destruct (calcul_uk0_newton_Ok_inv np_linalg_inv N mu x u k E HN Hret)
    as (s & -> & -> & Hk1 & (Hk & Hu & _ & Hpos) & Hexit).
  destruct (Hpos Hk1) as (u_prev & _ & _ & Hsolve & Hsub).
  destruct (dh_lengths N mu) as (Hlx & _).
  split; [lia|]. split; [lia|]. split; [lia|]. split.
  - intros i xi Hi.
    assert (i < N)%nat as HiN by (apply lookup_lt_Some in Hi; lia).
    rewrite dh_x_lookup in Hi by done. injection Hi as <-.
    unfold grid_x. rewrite (step_size_1000 N E). lra.
  - exists u_prev, (uk_ecart1 s), (uk_ecart2 s).
    rewrite <- E. split; [done|]. split; [done|].
    intros Hk50. destruct Hexit as [Hcap|Htol]; [lia|].
    apply uk0_tolerance_true in Htol as (n1 & n2 & Hn1 & H1 & Hn2 & H2).
    rewrite mu1_value in H1. rewrite mu2_value in H2.
    exists n1, n2. auto.
Qed.

(** X25 on a run that stops after one pass: mu = 10^-9, with the zero
    matrix standing in for the inverse. *)
Lemma calcul_uk0_newton_returns_capped_witness :
  exists x u,
    calcul_uk0_newton zero_matrix_like (1 / 1000000000) = Ok (x, u, 1%Z) /\
    (1 <= 1 <= 51)%Z /\
    Z.of_nat (length x) = 1000%Z /\ Z.of_nat (length u) = 1000%Z /\
    (forall i xi, x !! i = Some xi -> xi = 1 + IZR (Z.of_nat i) / 100) /\
    exists u_prev F ecart2,
      solve_poisson_boltzmann_newton zero_matrix_like u_prev 1000
        (1 / 1000000000) = Ok (x, u, F) /\
      np_sub u u_prev = Ok ecart2 /\
      ((1 <= 50)%Z -> exists n1 n2,
         norm_inf F = Ok n1 /\ n1 < 1 / 10 ^ 11 /\
         norm_inf ecart2 = Ok n2 /\ n2 < 1 / 10 ^ 8).
Proof.
  destruct (calcul_uk0_newton_converged_run 1000 eq_refl ltac:(lia))
    as (x & u & Hrun).
  exists x, u. split; [exact Hrun|].
  exact (calcul_uk0_newton_returns_capped zero_matrix_like
           (1 / 1000000000) x u 1 Hrun).
Defined.

(** X26.  A fixed-point step from a small iterate stays close to the
    linear solution: for n >= 2, if every entry of u is at most r <= 1/2
    in absolute value, then every entry of the vector returned by
    [solve_poisson_boltzmann] differs from the matching entry of the
    solution of [solve_debye_huckel] by at most r^2. *)
Theorem fixed_point_step_near_linear (n : Z) (mu r : R) (u : list R) :
  (2 <= n)%Z -> length u = Z.to_nat n -> 0 <= r <= 1 / 2 ->
  (forall i ui, u !! i = Some ui -> Rabs ui <= r) ->
  exists x u' z u0 diags,
    solve_poisson_boltzmann u n mu = Ok (x, u', z) /\
    solve_debye_huckel n mu = Ok (x, u0, diags) /\
    forall i p q, u' !! i = Some p -> u0 !! i = Some q ->
      Rabs (p - q) <= r ^ 2.
Proof.
  intros Hn Hu Hr Hsmall. set (N := Z.to_nat n) in *.
  assert (n = Z.of_nat N) as En by (unfold N; lia).
  assert (2 <= N)%nat as HN by lia.
  pose proof (step_size_pos (Z.of_nat N) ltac:(lia)) as Hh.
  fold (step_size N) in Hh. set (h := step_size N) in *.
  destruct (solve_poisson_boltzmann_Ok N mu u HN ltac:(lia))
    as (u' & Hs & Hlu' & Hrows').
  destruct (solve_debye_huckel_Ok N mu HN) as (u0 & Hs0 & Hlu0 & Hrows0).
  exists (dh_x N), u', (pb_z N mu u), u0, (dh_b N, dh_a N, dh_c N).
  rewrite En. split; [done|]. split; [done|].
  intros i p q Hp Hq.
  assert (i < N)%nat as Hi by (apply lookup_lt_Some in Hp; lia).
  rewrite <- (list_lookup_total_correct _ _ _ Hp).
  rewrite <- (list_lookup_total_correct _ _ _ Hq).
  pose proof (tri_magnitude h N (fun j => 1 * u' !!! j + (-1) * u0 !!! j)
                (h ^ 2 * r ^ 2) Hh HN) as Hmag.
  replace (u' !!! i - u0 !!! i) with (1 * u' !!! i + -1 * u0 !!! i) by lra.
  replace (r ^ 2) with (h ^ 2 * r ^ 2 / h ^ 2) by (field; lra).
  apply Hmag; [|done].
  intros j Hj. rewrite tri_fun_linear. unfold h.
  rewrite <- !tri_row_fun, Hrows', Hrows0 by done.
  rewrite pb_z_lookup, dh_z_lookup_total by done. fold h.
  replace (1 * (h ^ 2 * g (u !!! j)
                + (if decide (j = 0)%nat then mu * h * (h - 2) else 0))
           + -1 * (if decide (j = 0)%nat then mu * h * (h - 2) else 0))
    with (h ^ 2 * g (u !!! j)) by (case_decide; lra).
  assert (0 < h ^ 2) as Hh2 by nra.
  rewrite Rabs_mult, Rabs_pos_eq by lra.
  apply Rmult_le_compat_l; [lra|].
  assert (Rabs (u !!! j) <= r) as Hj0.
  { apply (Hsmall j). apply list_lookup_lookup_total_lt. lia. }
  assert (Rabs (u !!! j) <= 1 / 2) as Hhalf by lra.
  pose proof (g_abs_small (u !!! j) Hhalf) as Hg.
  apply Rabs_le_between in Hj0. nra.
Qed.

Lemma fixed_point_step_near_linear_witness :
  let u : list R := [1 / 4; - (1 / 4)] in
  exists x u' z u0 diags,
    solve_poisson_boltzmann u 2 1 = Ok (x, u', z) /\
    solve_debye_huckel 2 1 = Ok (x, u0, diags) /\
    forall i p q, u' !! i = Some p -> u0 !! i = Some q ->
      Rabs (p - q) <= (1 / 4) ^ 2.
Proof.
  intros u.
  apply (fixed_point_step_near_linear 2 1 (1 / 4) u);
    [lia | reflexivity | lra |].
  intros [|[|i]] ui Hi; simpl in Hi; try discriminate; injection Hi as <-.
  - rewrite Rabs_pos_eq; lra.
  - rewrite Rabs_Ropp, Rabs_pos_eq; lra.
Defined.

(** X27.  The two steps treat an overlong iterate differently: for
    n >= 2 and u with more than n entries, [solve_poisson_boltzmann]
    returns (it reads the first n entries), while
    [solve_poisson_boltzmann_newton] raises ValueError before any
    inversion, because its diagonal has len(u) entries and does not fit
    the sub-diagonal of n - 1 entries in [tridiag]. *)
Theorem newton_long_iterate_raises
    (np_linalg_inv : matrix -> result matrix) (n : Z) (mu : R) (u : list R) :
  (2 <= n)%Z -> (Z.to_nat n < length u)%nat ->
  solve_poisson_boltzmann_newton np_linalg_inv u n mu = Raise ValueError /\
  exists x u' z, solve_poisson_boltzmann u n mu = Ok (x, u', z).
Proof.
  intros Hn Hu. set (N := Z.to_nat n) in *.
  assert (n = Z.of_nat N) as En by (unfold N; lia).
  assert (2 <= N)%nat as HN by lia.
  rewrite En. split.
  - unfold solve_poisson_boltzmann_newton.
    rewrite assemble_newton_Ok, bind_Ok by lia. cbv beta iota.
    destruct (newton_lengths N mu u) as (Hla & _).
    destruct (dh_lengths N mu) as (_ & _ & Hlb & _).
    unfold tridiag.
    rewrite np_add_mismatch; [reflexivity | | |];
      rewrite ?np_diag_rows, ?Hla, ?Hlb; simpl Z.abs_nat; lia.
  - destruct (solve_poisson_boltzmann_Ok N mu u HN ltac:(lia))
      as (u' & Hs & _).
    eauto.
Qed.

Lemma newton_long_iterate_raises_witness :
  let u : list R := [1; 2; 3] in
  solve_poisson_boltzmann_newton zero_matrix_like u 2 1 = Raise ValueError /\
  exists x u' z, solve_poisson_boltzmann u 2 1 = Ok (x, u', z).
Proof.
  intros u.
  apply (newton_long_iterate_raises zero_matrix_like 2 1 u);
    [lia | simpl; lia].
Defined.
